(** * mitso-core-js, src/06-objects-tasks.js: the CSS selector builder and
      the JSON helpers.

    The builder derives every new selector with [Object.create(this)] and
    then assigns [parts] or [combined] on the fresh object, pushing onto the
    array it has just stored there.  Objects and arrays therefore live in a
    store addressed by locations; property reads walk the prototype chain;
    assignments and [push] update the store in place.

    [getJSON] and [fromJSON] wrap the runtime's [JSON] object.  Their
    embedding takes it as a parameter; the grammar of JSON texts, a parser
    and a printer that are proved to keep to it provide the instance the
    helpers are run on.  [Object.assign] is modelled with the assignment
    semantics it has: setters run, read-only names throw. *)

From stdpp Require Import base list strings pretty.
From Stdlib Require Import ZArith Lia Sorted Permutation Ascii DecimalString
  DecimalPos.

Open Scope string_scope.
Open Scope list_scope.

(** ** Data *)

Definition loc := nat.

(** The object literal [{ type, value }] pushed by the builder methods.  It
    is never written to after its creation, so it is kept as a value. *)
Record part := Part { type : string; value : string }.

(** The object literal [{ selector1, combinator, selector2 }] stored under
    [combined]; both selectors are references to builder objects. *)
Record combination := Combination {
  selector1 : loc;
  combinator : string;
  selector2 : loc
}.

(** An object made by [Object.create]: its prototype ([None] for the
    facade [cssSelectorBuilder] itself, whose methods every derived object
    inherits) and its two possible own properties. *)
Record object := Object {
  proto : option loc;
  parts : option loc;
  combined : option combination
}.

Inductive cell :=
  | CObject (o : object)
  | CArray (a : list part).

Abbreviation heap := (list cell).

(** The facade object [cssSelectorBuilder]: no [parts], no [combined]. *)
Definition root_object : object := Object None None None.

(** The store right after the module is loaded, and the facade's address. *)
Definition initial_heap : heap := [CObject root_object].
Definition builder : loc := 0.

(** ** Outcomes and the store monad *)

Inductive outcome (A : Type) :=
  | Return (a : A)
  | Throw (e : string)
  | Fault.
Arguments Return {A} a.
Arguments Throw {A} e.
Arguments Fault {A}.

Definition M (A : Type) : Type := heap -> heap * outcome A.

Definition ret {A} (a : A) : M A := fun h => (h, Return a).

Definition bind {A B} (m : M A) (f : A -> M B) : M B :=
  fun h =>
    match m h with
    | (h', Return a) => f a h'
    | (h', Throw e) => (h', Throw e)
    | (h', Fault) => (h', Fault)
    end.

Definition throw {A} (e : string) : M A := fun h => (h, Throw e).
Definition fault {A} : M A := fun h => (h, Fault).

Notation "'let*' x ':=' c 'in' k" := (bind c (fun x => k))
  (at level 10, x name, c at level 100, k at level 200).
Notation "'do' c 'then' k" := (bind c (fun _ => k))
  (at level 10, c at level 100, k at level 200).

(** The two messages thrown by the builder, under the names the
    specification gives to the two failures. *)
Definition DuplicateSelectorPartError : string :=
  "Element, id and pseudo-element should not occur more then one time inside the selector".
Definition OrderViolationError : string :=
  "Selector parts should be arranged in the following order: element, id, class, attribute, pseudo-class, pseudo-element".

(** ** Store primitives *)

(** Reading property [own] of the object at [l] through its prototype
    chain.  [Some None] is [undefined]; the outer [None] is a dangling
    reference or a chain longer than [fuel]. *)
Fixpoint lookup_chain {A} (own : object -> option A) (fuel : nat) (h : heap)
    (l : loc) : option (option A) :=
  match fuel with
  | O => None
  | S n =>
      match h !! l with
      | Some (CObject o) =>
          match own o with
          | Some a => Some (Some a)
          | None =>
              match proto o with
              | Some p => lookup_chain own n h p
              | None => Some None
              end
          end
      | _ => None
      end
  end.

(** A chain of distinct objects of [h] has at most [length h] links. *)
Definition get {A} (own : object -> option A) (h : heap) (l : loc)
    : option (option A) :=
  lookup_chain own (length h) h l.

Definition get_prop {A} (own : object -> option A) (l : loc) : M (option A) :=
  fun h =>
    match get own h l with
    | Some r => (h, Return r)
    | None => (h, Fault)
    end.

(** [Object.create(p)] *)
Definition Object_create (p : loc) : M loc :=
  fun h => (h ++ [CObject (Object (Some p) None None)], Return (length h)).

(** A fresh array holding [ps]: the literal [[]] and the copy [[...a]]. *)
Definition Array_new (ps : list part) : M loc :=
  fun h => (h ++ [CArray ps], Return (length h)).

Definition Array_read (a : loc) : M (list part) :=
  fun h =>
    match h !! a with
    | Some (CArray ps) => (h, Return ps)
    | _ => (h, Fault)
    end.

(** [a.push(p)] *)
Definition Array_push (a : loc) (p : part) : M unit :=
  fun h =>
    match h !! a with
    | Some (CArray ps) => (<[a := CArray (ps ++ [p])]> h, Return tt)
    | _ => (h, Fault)
    end.

(** [o.parts = a] and [o.combined = c]: an assignment defines or overwrites
    the own property of [o], whatever the prototype chain holds. *)
Definition set_parts (o a : loc) : M unit :=
  fun h =>
    match h !! o with
    | Some (CObject ob) =>
        (<[o := CObject (Object (proto ob) (Some a) (combined ob))]> h, Return tt)
    | _ => (h, Fault)
    end.

Definition set_combined (o : loc) (c : combination) : M unit :=
  fun h =>
    match h !! o with
    | Some (CObject ob) =>
        (<[o := CObject (Object (proto ob) (parts ob) (Some c))]> h, Return tt)
    | _ => (h, Fault)
    end.

(** ** Array built-ins used by [stringify] *)

(** [Array.prototype.sort(comparefn)], which ECMAScript requires to be
    stable: here insertion from the right end, an element moving past
    exactly those it must follow ([comparefn(x, y) > 0]). *)
Fixpoint sort_insert {A} (comparefn : A -> A -> Z) (x : A) (l : list A)
    : list A :=
  match l with
  | [] => [x]
  | y :: l' =>
      if (0 <? comparefn x y)%Z then y :: sort_insert comparefn x l'
      else x :: l
  end.

Fixpoint Array_sort {A} (comparefn : A -> A -> Z) (l : list A) : list A :=
  match l with
  | [] => []
  | x :: l' => sort_insert comparefn x (Array_sort comparefn l')
  end.

(** [strs.join('')] *)
Definition join (strs : list string) : string := String.concat "" strs.

(** ** validateOrder *)

Definition order : list string :=
  ["element"; "id"; "class"; "attr"; "pseudoClass"; "pseudoElement"].

(** [Array.prototype.indexOf]: the first index holding [x], or [-1]. *)
Fixpoint indexOf_from (i : Z) (l : list string) (x : string) : Z :=
  match l with
  | [] => (-1)%Z
  | y :: l' => if String.eqb y x then i else indexOf_from (i + 1)%Z l' x
  end.

Definition indexOf (l : list string) (x : string) : Z := indexOf_from 0%Z l x.

(** The [for] loop of [validateOrder] over [obj.parts]: [true] when some
    iteration reaches the [throw]. *)
Fixpoint validateOrder_loop (newIndex : Z) (ps : list part) : bool :=
  match ps with
  | [] => false
  | existing :: rest =>
      let existingIndex := indexOf order (type existing) in
      if (newIndex <? existingIndex)%Z then true
      else validateOrder_loop newIndex rest
  end.

Definition validateOrder (obj : loc) (newType : string) : M loc :=
  let newIndex := indexOf order newType in
  let* a := get_prop parts obj in
  match a with
  | None => fault
  | Some a =>
      let* ps := Array_read a in
      if validateOrder_loop newIndex ps then throw OrderViolationError
      else ret obj
  end.

(** ** cssSelectorBuilder *)

(** The opening lines shared by the six append methods:
    [if (this.parts) obj.parts = [...this.parts]; else obj.parts = [];] *)
Definition copy_parts (this obj : loc) : M unit :=
  let* tp := get_prop parts this in
  match tp with
  | Some a =>
      let* ps := Array_read a in
      let* c := Array_new ps in
      set_parts obj c
  | None =>
      let* c := Array_new [] in
      set_parts obj c
  end.

(** [obj.parts.some((part) => part.type === t)] *)
Definition parts_some (obj : loc) (t : string) : M bool :=
  let* a := get_prop parts obj in
  match a with
  | None => fault
  | Some a =>
      let* ps := Array_read a in
      ret (existsb (fun p => String.eqb (type p) t) ps)
  end.

(** [obj.parts.push(p)] *)
Definition parts_push (obj : loc) (p : part) : M unit :=
  let* a := get_prop parts obj in
  match a with
  | None => fault
  | Some a => Array_push a p
  end.

Module cssSelectorBuilder.

Definition element (this : loc) (value : string) : M loc :=
  let* obj := Object_create this in
  do copy_parts this obj then
  let* dup := parts_some obj "element" in
  if dup then throw DuplicateSelectorPartError
  else
    do validateOrder obj "element" then
    do parts_push obj (Part "element" value) then
    ret obj.

Definition id (this : loc) (value : string) : M loc :=
  let* obj := Object_create this in
  do copy_parts this obj then
  let* dup := parts_some obj "id" in
  if dup then throw DuplicateSelectorPartError
  else
    do validateOrder obj "id" then
    do parts_push obj (Part "id" value) then
    ret obj.

Definition class (this : loc) (value : string) : M loc :=
  let* obj := Object_create this in
  do copy_parts this obj then
  do validateOrder obj "class" then
  do parts_push obj (Part "class" value) then
  ret obj.

Definition attr (this : loc) (value : string) : M loc :=
  let* obj := Object_create this in
  do copy_parts this obj then
  do validateOrder obj "attr" then
  do parts_push obj (Part "attr" value) then
  ret obj.

Definition pseudoClass (this : loc) (value : string) : M loc :=
  let* obj := Object_create this in
  do copy_parts this obj then
  do validateOrder obj "pseudoClass" then
  do parts_push obj (Part "pseudoClass" value) then
  ret obj.

Definition pseudoElement (this : loc) (value : string) : M loc :=
  let* obj := Object_create this in
  do copy_parts this obj then
  let* dup := parts_some obj "pseudoElement" in
  if dup then throw DuplicateSelectorPartError
  else
    do validateOrder obj "pseudoElement" then
    do parts_push obj (Part "pseudoElement" value) then
    ret obj.

Definition combine (this : loc) (selector1 : loc) (combinator : string)
    (selector2 : loc) : M loc :=
  let* obj := Object_create this in
  do set_combined obj (Combination selector1 combinator selector2) then
  ret obj.

(** The comparator handed to [sort] by [stringify]. *)
Definition compare_parts (a b : part) : Z :=
  (indexOf order (type a) - indexOf order (type b))%Z.

(** The [switch] inside the [map] callback. *)
Definition render (p : part) : string :=
  if String.eqb (type p) "element" then value p
  else if String.eqb (type p) "id" then "#" +:+ value p
  else if String.eqb (type p) "class" then "." +:+ value p
  else if String.eqb (type p) "attr" then "[" +:+ value p +:+ "]"
  else if String.eqb (type p) "pseudoClass" then ":" +:+ value p
  else if String.eqb (type p) "pseudoElement" then "::" +:+ value p
  else "".

(** [stringify] only reads the store: [slice()] copies the array before
    sorting, and the copy, the mapped array and the joined string are
    temporaries.  [None] is a dangling reference or exhausted fuel. *)
Fixpoint stringify_fuel (fuel : nat) (h : heap) (this : loc)
    : option string :=
  match fuel with
  | O => None
  | S n =>
      match get combined h this with
      | None => None
      | Some (Some c) =>
          match stringify_fuel n h (selector1 c),
                stringify_fuel n h (selector2 c) with
          | Some s1, Some s2 =>
              Some (s1 +:+ " " +:+ combinator c +:+ " " +:+ s2)
          | _, _ => None
          end
      | Some None =>
          match get parts h this with
          | None => None
          | Some None => Some ""
          | Some (Some a) =>
              match h !! a with
              | Some (CArray ps) =>
                  let sortedParts := Array_sort compare_parts ps in
                  Some (join (map render sortedParts))
              | _ => None
              end
          end
      end
  end.

(** Selectors nest through older objects only, so [length h] levels of
    recursion reach every leaf. *)
Definition stringify (h : heap) (this : loc) : option string :=
  stringify_fuel (length h) h this.

End cssSelectorBuilder.

Import cssSelectorBuilder.

(** ** Well-formed stores *)

Definition is_object (h : heap) (l : loc) : bool :=
  match h !! l with Some (CObject _) => true | _ => false end.

Definition is_array (h : heap) (l : loc) : bool :=
  match h !! l with Some (CArray _) => true | _ => false end.

(** What the cell at address [i] may refer to: a prototype and combined
    selectors that are objects created before it, and an array under
    [parts]. *)
Definition wf_cell (h : heap) (i : nat) (c : cell) : bool :=
  match c with
  | CArray _ => true
  | CObject o =>
      match proto o with
      | Some p => (p <? i)%nat && is_object h p
      | None => true
      end
      && match parts o with
         | Some a => is_array h a
         | None => true
         end
      && match combined o with
         | Some c =>
             (selector1 c <? i)%nat && is_object h (selector1 c)
             && ((selector2 c <? i)%nat && is_object h (selector2 c))
         | None => true
         end
  end.

Fixpoint wf_cells (h : heap) (i : nat) (cs : list cell) : bool :=
  match cs with
  | [] => true
  | c :: cs' => wf_cell h i c && wf_cells h (S i) cs'
  end.

Definition wf_heap (h : heap) : bool := wf_cells h 0 h.

(** The fragment sequence a builder shows: the array its [parts] property
    resolves to, empty when the property is [undefined]. *)
Definition fragments (h : heap) (b : loc) : list part :=
  match get parts h b with
  | Some (Some a) =>
      match h !! a with
      | Some (CArray ps) => ps
      | _ => []
      end
  | _ => []
  end.

(** ** The append methods as one schema *)

Inductive method :=
  | Element | Id | Class | Attr | PseudoClass | PseudoElement.

Definition method_type (m : method) : string :=
  match m with
  | Element => "element"
  | Id => "id"
  | Class => "class"
  | Attr => "attr"
  | PseudoClass => "pseudoClass"
  | PseudoElement => "pseudoElement"
  end.

(** The methods that carry the [some] check. *)
Definition method_unique (m : method) : bool :=
  match m with
  | Element | Id | PseudoElement => true
  | Class | Attr | PseudoClass => false
  end.

(** The canonical rank of a method's fragment kind. *)
Definition rank (m : method) : Z := indexOf order (method_type m).

(** [call m this value] is the method call [this.m(value)]. *)
Definition call (m : method) : loc -> string -> M loc :=
  match m with
  | Element => element
  | Id => id
  | Class => class
  | Attr => attr
  | PseudoClass => pseudoClass
  | PseudoElement => pseudoElement
  end.

(** The common shape of the six bodies. *)
Definition append (unique : bool) (t : string) (this : loc) (value : string)
    : M loc :=
  let* obj := Object_create this in
  do copy_parts this obj then
  let* dup := (if unique then parts_some obj t else ret false) in
  if dup then throw DuplicateSelectorPartError
  else
    do validateOrder obj t then
    do parts_push obj (Part t value) then
    ret obj.

(** Chained calls: [chain b [(m1, v1); (m2, v2)]] is [b.m1(v1).m2(v2)]. *)
Fixpoint chain (b : loc) (calls : list (method * string)) : M loc :=
  match calls with
  | [] => ret b
  | (m, v) :: rest =>
      let* b' := call m b v in
      chain b' rest
  end.

Definition call_part (c : method * string) : part :=
  Part (method_type (fst c)) (snd c).

(** ** Derived stores, ranks and the specification's renderings *)

(** The two cells an append call adds: the derived object, whose own
    [parts] is the array right behind it, and that array. *)
Definition derived (h : heap) (this : loc) (ps : list part) : heap :=
  h ++ [CObject (Object (Some this) (Some (S (length h))) None); CArray ps].

(** A comparator of the shape [key(a) - key(b)], as [stringify] passes,
    and the order it sorts into. *)
Definition by_key {A} (key : A -> Z) (a b : A) : Z := (key a - key b)%Z.

Definition key_le {A} (key : A -> Z) (a b : A) : Prop := (key a <= key b)%Z.

Definition part_rank (p : part) : Z := indexOf order (type p).

(** The rendering of one fragment, in the words of the specification. *)
Definition fragment_text (m : method) (text : string) : string :=
  match m with
  | Element => text
  | Id => "#" +:+ text
  | Class => "." +:+ text
  | Attr => "[" +:+ text +:+ "]"
  | PseudoClass => ":" +:+ text
  | PseudoElement => "::" +:+ text
  end.

Definition call_rank (c : method * string) : Z := rank (fst c).

Definition combined_cell (this : loc) (c : combination) : cell :=
  CObject (Object (Some this) None (Some c)).

(** C2, as the specification states it: whenever some fragment already
    present outranks the appended one, the call throws the order error. *)
Definition lower_rank_raises_order_error
    (h : heap) (b : loc) (m : method) (v : string) : Prop :=
  Exists (fun p => (rank m < part_rank p)%Z) (fragments h b) ->
  snd (call m b v h) = Throw OrderViolationError.

(** * getJSON and fromJSON *)

(** Plain data: what [JSON.parse] returns and [JSON.stringify] accepts
    without loss.  The type of numbers is a parameter; the helpers are run
    on exact decimals. *)
#[warnings="-register-all"]
Inductive json (number : Type) : Type :=
  | JNull
  | JBool (b : bool)
  | JNumber (n : number)
  | JString (s : string)
  | JArray (items : list (json number))
  | JObject (members : list (string * json number)).
Arguments JNull {number}.
Arguments JBool {number} b.
Arguments JNumber {number} n.
Arguments JString {number} s.
Arguments JArray {number} items.
Arguments JObject {number} members.

(** The runtime's global [JSON] object.  [JSON_parse] answers [None] where
    [JSON.parse] throws its [SyntaxError]. *)
Class JSON (number : Type) := {
  JSON_stringify : json number -> string;
  JSON_parse : string -> option (json number)
}.

(** The own enumerable properties [Object.assign] copies from its source:
    the members of an object, the indexed items of an array, the indexed
    characters of a string, nothing for the other primitives. *)
Definition own_enumerable {number} (data : json number)
    : list (string * json number) :=
  match data with
  | JObject members => members
  | JArray items => imap (fun i x => (pretty i, x)) items
  | JString s =>
      imap (fun i c => (pretty i, JString (String c EmptyString)))
        (String.list_ascii_of_string s)
  | _ => []
  end.

(** What a setter does when an assignment reaches it, given the value
    assigned and the own fields of the receiver: it leaves the receiver
    with these own fields; or it gives the receiver another prototype, a
    piece of plain data or [null], as the accessor [__proto__] does; or it
    throws. *)
Inductive effect (number : Type) : Type :=
  | Stored (fields : list (string * json number))
  | Reparented (parent : option (json number))
  | Raised (e : string).
Arguments Stored {number} fields.
Arguments Reparented {number} parent.
Arguments Raised {number} e.

(** What the assignment [obj.k = v] finds under [k] on the prototype chain
    of [obj]: a writable data property (a method, say), which the
    assignment shadows with an own property; a read-only property or an
    accessor without a setter, on which [Object.assign] throws; or an
    accessor, whose setter runs with the receiver as [this]. *)
Inductive inherited (number : Type) : Type :=
  | Writable
  | ReadOnly
  | Setter (set : json number -> list (string * json number)
                  -> effect number).
Arguments Writable {number}.
Arguments ReadOnly {number}.
Arguments Setter {number} set.

(** A prototype, as far as [fromJSON] can tell one from another: the
    properties visible along its chain, the nearest first.  The empty list
    is the chain of [Object.create(null)]. *)
Definition prototype (number : Type) : Type :=
  list (string * inherited number).

(** The object [fromJSON] builds: its prototype and its own fields, in the
    order of their creation. *)
Record instance (number : Type) := MkInstance {
  instance_proto : prototype number;
  own_fields : list (string * json number)
}.
Arguments MkInstance {number} instance_proto own_fields.
Arguments instance_proto {number} i.
Arguments own_fields {number} i.

(** The error of [JSON.parse], which the specification calls ParseError,
    and the error of a failed assignment. *)
Definition ParseError : string := "SyntaxError".
Definition TypeError : string := "TypeError".

Fixpoint assoc {V} (k : string) (l : list (string * V)) : option V :=
  match l with
  | [] => None
  | (k', v) :: l' => if String.eqb k' k then Some v else assoc k l'
  end.

Fixpoint update {V} (k : string) (v : V) (l : list (string * V))
    : list (string * V) :=
  match l with
  | [] => []
  | (k', v') :: l' =>
      if String.eqb k' k then (k', v) :: l' else (k', v') :: update k v l'
  end.

(** [this.k = v] inside a setter, for a name [k] the chain does not have:
    the own field is overwritten, or created. *)
Definition put {V} (k : string) (v : V) (l : list (string * V))
    : list (string * V) :=
  match assoc k l with
  | Some _ => update k v l
  | None => l ++ [(k, v)]
  end.

(** The setter of the accessor [Object.prototype.__proto__]: an object, an
    array or [null] becomes the prototype of the receiver; any other value
    is ignored. *)
Definition proto_setter {number} (v : json number)
    (fields : list (string * json number)) : effect number :=
  match v with
  | JNull => Reparented None
  | JObject _ | JArray _ => Reparented (Some v)
  | _ => Stored fields
  end.

(** [Object.prototype], where every chain but that of [Object.create(null)]
    ends.  Its methods are writable and need no entry: an assignment treats
    them as it treats a missing name. *)
Definition Object_prototype {number} : prototype number :=
  [("__proto__", Setter proto_setter)].

(** The chain of a piece of parsed data that has become a prototype: its
    own properties, all of them writable, then [Object.prototype]. *)
Definition data_prototype {number} (parent : option (json number))
    : prototype number :=
  match parent with
  | Some v =>
      map (fun kv => (fst kv, Writable)) (own_enumerable v)
      ++ Object_prototype
  | None => []
  end.

(** [obj[k] = v] in strict mode. *)
Definition Object_set {number} (obj : instance number)
    (k : string) (v : json number) : outcome (instance number) :=
  let proto := instance_proto obj in
  let fields := own_fields obj in
  match assoc k fields with
  | Some _ => Return (MkInstance proto (update k v fields))
  | None =>
      match assoc k proto with
      | None | Some Writable => Return (MkInstance proto (fields ++ [(k, v)]))
      | Some ReadOnly => Throw TypeError
      | Some (Setter set) =>
          match set v fields with
          | Stored fields' => Return (MkInstance proto fields')
          | Reparented parent =>
              Return (MkInstance (data_prototype parent) fields)
          | Raised e => Throw e
          end
      end
  end.

(** [Object.assign(obj, data)], property by property; the object is
    handed on as each assignment leaves it. *)
Fixpoint Object_assign {number} (obj : instance number)
    (source : list (string * json number)) : outcome (instance number) :=
  match source with
  | [] => Return obj
  | (k, v) :: rest =>
      match Object_set obj k v with
      | Return obj' => Object_assign obj' rest
      | Throw e => Throw e
      | Fault => Fault
      end
  end.

Definition getJSON {number} `{JSON number} (obj : json number) : string :=
  JSON_stringify obj.

Definition fromJSON {number} `{JSON number} (proto : prototype number)
    (json : string) : outcome (instance number) :=
  let obj := MkInstance proto [] in
  match JSON_parse json with
  | None => Throw ParseError
  | Some data =>
      match Object_assign obj (own_enumerable data) with
      | Return obj' => Return obj'
      | Throw e => Throw e
      | Fault => Fault
      end
  end.

Definition quote : ascii := ascii_of_nat 34.

(** ** The JSON grammar (ECMA-404)

    A text is a list of bytes, the UTF-8 form of the string handed to
    [JSON.parse].  The grammar is given as inductive predicates on texts,
    apart from any parser; only the tables of characters are shared. *)
Abbreviation text := (list ascii).

Definition backslash : ascii := "\"%char.

Definition code_in (lo hi : nat) (c : ascii) : bool :=
  (lo <=? nat_of_ascii c)%nat && (nat_of_ascii c <=? hi)%nat.

(** White space: space, tab, line feed, carriage return. *)
Definition is_ws (c : ascii) : bool :=
  Ascii.eqb c " " || Ascii.eqb c "009" || Ascii.eqb c "010" || Ascii.eqb c "013".

Definition is_digit (c : ascii) : bool := code_in 48 57 c.
Definition is_digit19 (c : ascii) : bool := code_in 49 57 c.
Definition is_hex (c : ascii) : bool :=
  code_in 48 57 c || code_in 97 102 c || code_in 65 70 c.

(** What a string literal holds as it is: anything but the quote, the
    backslash and the control characters below the space. *)
Definition is_plain (c : ascii) : bool :=
  (32 <=? nat_of_ascii c)%nat && negb (Ascii.eqb c quote)
  && negb (Ascii.eqb c backslash).

(** The character an escape [\c] stands for; the escape [\u] with its four
    hexadecimal digits is apart. *)
Definition unescape (c : ascii) : option ascii :=
  if Ascii.eqb c quote then Some quote
  else if Ascii.eqb c backslash then Some backslash
  else if Ascii.eqb c "/" then Some "/"%char
  else if Ascii.eqb c "b" then Some "008"%char
  else if Ascii.eqb c "f" then Some "012"%char
  else if Ascii.eqb c "n" then Some "010"%char
  else if Ascii.eqb c "r" then Some "013"%char
  else if Ascii.eqb c "t" then Some "009"%char
  else None.

Arguments is_ws : simpl never.
Arguments is_digit : simpl never.
Arguments is_digit19 : simpl never.
Arguments is_hex : simpl never.
Arguments is_plain : simpl never.
Arguments unescape : simpl never.

(** White space, the parts of a number literal, and the characters of a
    string literal. *)
Definition WS (w : text) : Prop := forallb is_ws w = true.
Definition Digits (ds : text) : Prop := ds <> [] /\ forallb is_digit ds = true.

Inductive Int : text -> Prop :=
  | Int_zero : Int ["0"%char]
  | Int_pos d ds :
      is_digit19 d = true -> forallb is_digit ds = true -> Int (d :: ds).

Inductive Frac : text -> Prop :=
  | Frac_none : Frac []
  | Frac_some ds : Digits ds -> Frac ("."%char :: ds).

Inductive Exp : text -> Prop :=
  | Exp_none : Exp []
  | Exp_some e sg ds :
      e = "e"%char \/ e = "E"%char ->
      sg = [] \/ sg = ["+"%char] \/ sg = ["-"%char] ->
      Digits ds -> Exp (e :: sg ++ ds).

Inductive Number : text -> Prop :=
  | Number_intro sg i f e :
      sg = [] \/ sg = ["-"%char] -> Int i -> Frac f -> Exp e ->
      Number (sg ++ i ++ f ++ e).

Inductive Chars : text -> Prop :=
  | Chars_nil : Chars []
  | Chars_plain c s : is_plain c = true -> Chars s -> Chars (c :: s)
  | Chars_escape c s :
      is_Some (unescape c) -> Chars s -> Chars (backslash :: c :: s)
  | Chars_unicode h1 h2 h3 h4 s :
      is_hex h1 = true -> is_hex h2 = true -> is_hex h3 = true ->
      is_hex h4 = true -> Chars s ->
      Chars (backslash :: "u"%char :: h1 :: h2 :: h3 :: h4 :: s).

Inductive StringLit : text -> Prop :=
  | StringLit_intro body : Chars body -> StringLit (quote :: body ++ [quote]).

Definition null_text : text := ["n"; "u"; "l"; "l"]%char.
Definition true_text : text := ["t"; "r"; "u"; "e"]%char.
Definition false_text : text := ["f"; "a"; "l"; "s"; "e"]%char.

Inductive Value : text -> Prop :=
  | Value_null : Value null_text
  | Value_true : Value true_text
  | Value_false : Value false_text
  | Value_number s : Number s -> Value s
  | Value_string s : StringLit s -> Value s
  | Value_empty_array w : WS w -> Value ("["%char :: w ++ ["]"%char])
  | Value_array es : Elements es -> Value ("["%char :: es ++ ["]"%char])
  | Value_empty_object w : WS w -> Value ("{"%char :: w ++ ["}"%char])
  | Value_object ms : Members ms -> Value ("{"%char :: ms ++ ["}"%char])
with Elements : text -> Prop :=
  | Elements_one w1 v w2 :
      WS w1 -> Value v -> WS w2 -> Elements (w1 ++ v ++ w2)
  | Elements_more w1 v w2 es :
      WS w1 -> Value v -> WS w2 -> Elements es ->
      Elements (w1 ++ v ++ w2 ++ ","%char :: es)
with Members : text -> Prop :=
  | Members_one w1 k w2 w3 v w4 :
      WS w1 -> StringLit k -> WS w2 -> WS w3 -> Value v -> WS w4 ->
      Members (w1 ++ k ++ w2 ++ ":"%char :: w3 ++ v ++ w4)
  | Members_more w1 k w2 w3 v w4 ms :
      WS w1 -> StringLit k -> WS w2 -> WS w3 -> Value v -> WS w4 ->
      Members ms ->
      Members (w1 ++ k ++ w2 ++ ":"%char :: w3 ++ v ++ w4 ++ ","%char :: ms).

Inductive JSONText : text -> Prop :=
  | JSONText_intro w1 v w2 :
      WS w1 -> Value v -> WS w2 -> JSONText (w1 ++ v ++ w2).

Definition well_formed (t : string) : Prop :=
  JSONText (String.list_ascii_of_string t).

(** ** [JSON.parse]

    A recursive-descent parser.  Its functions take the text at hand and
    answer with what they have read and the text that is left; the nesting
    of values is bounded by fuel, which [parse_text] sets to the length of
    the text. *)
Fixpoint skip_ws (s : text) : text :=
  match s with
  | c :: r => if is_ws c then skip_ws r else s
  | [] => []
  end.

Fixpoint span_digits (s : text) : text * text :=
  match s with
  | c :: r =>
      if is_digit c then let (ds, r') := span_digits r in (c :: ds, r')
      else ([], s)
  | [] => ([], [])
  end.

Fixpoint strip_prefix (p s : text) : option text :=
  match p, s with
  | [], _ => Some s
  | c :: p', d :: s' => if Ascii.eqb c d then strip_prefix p' s' else None
  | _ :: _, [] => None
  end.

Definition parse_exp (lex s : text) : option (text * text) :=
  match s with
  | e :: r =>
      if Ascii.eqb e "e" || Ascii.eqb e "E" then
        let (sg, r1) :=
          match r with
          | c :: r' =>
              if Ascii.eqb c "+" || Ascii.eqb c "-" then ([c], r') else ([], r)
          | [] => ([], r)
          end in
        let (ds, r2) := span_digits r1 in
        match ds with
        | [] => None
        | _ :: _ => Some (lex ++ e :: sg ++ ds, r2)
        end
      else Some (lex, s)
  | [] => Some (lex, s)
  end.

Definition parse_frac (lex s : text) : option (text * text) :=
  match s with
  | c :: r =>
      if Ascii.eqb c "." then
        let (ds, r1) := span_digits r in
        match ds with
        | [] => None
        | _ :: _ => parse_exp (lex ++ c :: ds) r1
        end
      else parse_exp lex s
  | [] => parse_exp lex s
  end.

Definition parse_int (lex s : text) : option (text * text) :=
  match s with
  | c :: r =>
      if Ascii.eqb c "0" then parse_frac (lex ++ [c]) r
      else if is_digit19 c then
        let (ds, r1) := span_digits r in parse_frac (lex ++ c :: ds) r1
      else None
  | [] => None
  end.

(** A number literal at the head of [s]: the literal and what follows. *)
Definition parse_number (s : text) : option (text * text) :=
  match s with
  | c :: r => if Ascii.eqb c "-" then parse_int [c] r else parse_int [] s
  | [] => None
  end.

(** The value of a hexadecimal digit. *)
Definition hex_value (c : ascii) : N :=
  let n := N_of_ascii c in
  if code_in 48 57 c then (n - 48)%N
  else if code_in 97 102 c then (n - 87)%N
  else (n - 55)%N.

(** The characters of a string, as its literal gives them: a byte of the
    text, or the UTF-16 code unit of an escape [\uXXXX]. *)
Inductive item : Type :=
  | Plain (c : ascii)
  | Escaped (code : N).

(** The code unit of the escape [\uh1h2h3h4]. *)
Definition code_unit (h1 h2 h3 h4 : ascii) : N :=
  (((hex_value h1 * 16 + hex_value h2) * 16 + hex_value h3) * 16
   + hex_value h4)%N.

(** The UTF-8 bytes of a code point. *)
Definition utf8 (n : N) : text :=
  (if n <? 128 then [ascii_of_N n]
   else if n <? 2048 then
     [ascii_of_N (192 + n / 64); ascii_of_N (128 + n mod 64)]
   else if n <? 65536 then
     [ascii_of_N (224 + n / 4096); ascii_of_N (128 + (n / 64) mod 64);
      ascii_of_N (128 + n mod 64)]
   else
     [ascii_of_N (240 + n / 262144); ascii_of_N (128 + (n / 4096) mod 64);
      ascii_of_N (128 + (n / 64) mod 64); ascii_of_N (128 + n mod 64)])%N.

Definition is_high_surrogate (n : N) : bool :=
  ((55296 <=? n) && (n <? 56320))%N.
Definition is_low_surrogate (n : N) : bool :=
  ((56320 <=? n) && (n <? 57344))%N.

(** The string a literal denotes, in UTF-8: a surrogate pair of escapes is
    one code point. *)
Fixpoint decode (l : list item) : text :=
  match l with
  | [] => []
  | Plain c :: r => c :: decode r
  | Escaped hi :: r =>
      match r with
      | Escaped lo :: r' =>
          if is_high_surrogate hi && is_low_surrogate lo then
            utf8 (65536 + (hi - 55296) * 1024 + (lo - 56320))%N ++ decode r'
          else utf8 hi ++ decode r
      | _ => utf8 hi ++ decode r
      end
  end.

(** The characters of a string literal after its opening quote, up to and
    past the closing one: the characters they denote and what follows. *)
Fixpoint parse_chars (s : text) : option (list item * text) :=
  match s with
  | [] => None
  | c :: r =>
      if Ascii.eqb c quote then Some ([], r)
      else if Ascii.eqb c backslash then
        match r with
        | [] => None
        | e :: r1 =>
            if Ascii.eqb e "u" then
              match r1 with
              | h1 :: h2 :: h3 :: h4 :: r2 =>
                  if is_hex h1 && is_hex h2 && is_hex h3 && is_hex h4 then
                    match parse_chars r2 with
                    | Some (d, r3) =>
                        Some (Escaped (code_unit h1 h2 h3 h4) :: d, r3)
                    | None => None
                    end
                  else None
              | _ => None
              end
            else
              match unescape e with
              | Some x =>
                  match parse_chars r1 with
                  | Some (d, r3) => Some (Plain x :: d, r3)
                  | None => None
                  end
              | None => None
              end
        end
      else if (32 <=? nat_of_ascii c)%nat then
        match parse_chars r with
        | Some (d, r3) => Some (Plain c :: d, r3)
        | None => None
        end
      else None
  end.

Definition string_of_items (d : list item) : string :=
  String.string_of_list_ascii (decode d).

(** The number a run of decimal digits stands for. *)
Definition digit_value (c : ascii) : N := (N_of_ascii c - 48)%N.

Definition digits_value (ds : text) : N :=
  fold_left (fun n c => (10 * n + digit_value c)%N) ds 0%N.

(** The array index a property name stands for, if it is one: a canonical
    numeric string below 2^32 - 1. *)
Definition array_index (k : string) : option N :=
  let ds := String.list_ascii_of_string k in
  match ds with
  | [] => None
  | c :: r =>
      if forallb is_digit ds
         && (negb (Ascii.eqb c "0") || (length r =? 0)%nat)
         && (length ds <=? 10)%nat
         && (digits_value ds <? 4294967295)%N
      then Some (digits_value ds)
      else None
  end.

(** A new property among the own properties of an object: array indices
    come first, in ascending order, then the other names in the order of
    their creation. *)
Fixpoint insert_index {V} (i : N) (k : string) (v : V)
    (ms : list (string * V)) : list (string * V) :=
  match ms with
  | [] => [(k, v)]
  | (k', v') :: r =>
      match array_index k' with
      | Some j =>
          if (i <? j)%N then (k, v) :: ms
          else (k', v') :: insert_index i k v r
      | None => (k, v) :: ms
      end
  end.

(** [CreateDataProperty]: a name the object has keeps its place and takes
    the new value. *)
Definition define_member {V} (k : string) (v : V) (ms : list (string * V))
    : list (string * V) :=
  match assoc k ms with
  | Some _ => update k v ms
  | None =>
      match array_index k with
      | Some i => insert_index i k v ms
      | None => ms ++ [(k, v)]
      end
  end.

(** The object a member list of a JSON text builds, member by member. *)
Definition object_of_members {V} (ms : list (string * V))
    : list (string * V) :=
  fold_left (fun o kv => define_member (fst kv) (snd kv) o) ms [].

Section Parser.
Context {number : Type} (read_number : text -> number).

Fixpoint parse_value (fuel : nat) (s : text)
    : option (json number * text) :=
  match fuel with
  | O => None
  | S n =>
      match s with
      | [] => None
      | c :: r =>
          if Ascii.eqb c "[" then
            match skip_ws r with
            | d :: r1 =>
                if Ascii.eqb d "]" then Some (JArray [], r1)
                else
                  match parse_elements n r with
                  | Some (vs, r2) => Some (JArray vs, r2)
                  | None => None
                  end
            | [] => None
            end
          else if Ascii.eqb c "{" then
            match skip_ws r with
            | d :: r1 =>
                if Ascii.eqb d "}" then Some (JObject [], r1)
                else
                  match parse_members n r with
                  | Some (ms, r2) => Some (JObject (object_of_members ms), r2)
                  | None => None
                  end
            | [] => None
            end
          else if Ascii.eqb c quote then
            match parse_chars r with
            | Some (d, r1) => Some (JString (string_of_items d), r1)
            | None => None
            end
          else if Ascii.eqb c "n" then
            match strip_prefix null_text s with
            | Some r1 => Some (JNull, r1)
            | None => None
            end
          else if Ascii.eqb c "t" then
            match strip_prefix true_text s with
            | Some r1 => Some (JBool true, r1)
            | None => None
            end
          else if Ascii.eqb c "f" then
            match strip_prefix false_text s with
            | Some r1 => Some (JBool false, r1)
            | None => None
            end
          else
            match parse_number s with
            | Some (lex, r1) => Some (JNumber (read_number lex), r1)
            | None => None
            end
      end
  end
with parse_elements (fuel : nat) (s : text)
    : option (list (json number) * text) :=
  match fuel with
  | O => None
  | S n =>
      match parse_value n (skip_ws s) with
      | Some (v, r) =>
          match skip_ws r with
          | d :: r1 =>
              if Ascii.eqb d "," then
                match parse_elements n r1 with
                | Some (vs, r2) => Some (v :: vs, r2)
                | None => None
                end
              else if Ascii.eqb d "]" then Some ([v], r1)
              else None
          | [] => None
          end
      | None => None
      end
  end
with parse_members (fuel : nat) (s : text)
    : option (list (string * json number) * text) :=
  match fuel with
  | O => None
  | S n =>
      match skip_ws s with
      | q :: r =>
          if Ascii.eqb q quote then
            match parse_chars r with
            | Some (k, r1) =>
                match skip_ws r1 with
                | c :: r2 =>
                    if Ascii.eqb c ":" then
                      match parse_value n (skip_ws r2) with
                      | Some (v, r3) =>
                          match skip_ws r3 with
                          | d :: r4 =>
                              if Ascii.eqb d "," then
                                match parse_members n r4 with
                                | Some (ms, r5) =>
                                    Some ((string_of_items k, v) :: ms, r5)
                                | None => None
                                end
                              else if Ascii.eqb d "}" then
                                Some ([(string_of_items k, v)], r4)
                              else None
                          | [] => None
                          end
                      | None => None
                      end
                    else None
                | [] => None
                end
            | None => None
            end
          else None
      | [] => None
      end
  end.

(** [JSON.parse]: one value, white space around it, nothing else. *)
Definition parse_text (s : text) : option (json number) :=
  match parse_value (S (length s)) (skip_ws s) with
  | Some (v, r) =>
      match skip_ws r with
      | [] => Some v
      | _ :: _ => None
      end
  | None => None
  end.
End Parser.



(** ** Numbers: exact decimals *)

(** A number [mantissa * 10 ^ exponent]; the mantissa has no factor ten, and
    zero is [Decimal 0 0].  The rounding of the runtime's binary doubles is
    left out. *)
Record decimal : Type := Decimal { mantissa : Z; exponent : Z }.

Fixpoint strip_zeros (ds : text) : text :=
  match ds with
  | c :: r => if Ascii.eqb c "0" then strip_zeros r else ds
  | [] => []
  end.

(** The digits between the leading and the trailing zeros, and the number
    of trailing zeros. *)
Definition significand (ds : text) : text * nat :=
  let back := strip_zeros (rev ds) in
  (strip_zeros (rev back), length ds - length back).

Definition decimal_of_digits (negative : bool) (ds : text) (scale : Z)
    : decimal :=
  let (sig, zeros) := significand ds in
  match sig with
  | [] => Decimal 0 0
  | _ :: _ =>
      Decimal ((if negative then -1 else 1) * Z.of_N (digits_value sig))
              (scale + Z.of_nat zeros)
  end.

(** The value of a number literal. *)
Definition read_number (lex : text) : decimal :=
  let (negative, s) :=
    match lex with
    | c :: r => if Ascii.eqb c "-" then (true, r) else (false, lex)
    | [] => (false, lex)
    end in
  let (i, s1) := span_digits s in
  let (f, s2) :=
    match s1 with
    | c :: r => if Ascii.eqb c "." then span_digits r else ([], s1)
    | [] => ([], s1)
    end in
  let x :=
    match s2 with
    | _ :: c :: r =>
        if Ascii.eqb c "-" then (- Z.of_N (digits_value r))%Z
        else if Ascii.eqb c "+" then Z.of_N (digits_value r)
        else Z.of_N (digits_value (c :: r))
    | _ => 0%Z
    end in
  decimal_of_digits negative (i ++ f) (x - Z.of_nat (length f)).

Definition N_digits (n : N) : text :=
  String.list_ascii_of_string (NilEmpty.string_of_uint (N.to_uint n)).

Definition exponent_text (x : Z) : text :=
  "e"%char :: (if (x <? 0)%Z then "-"%char else "+"%char)
  :: N_digits (Z.abs_N x).

(** [Number::toString] on the digits [ds] of a positive number
    [0.ds * 10 ^ n]. *)
Definition print_digits (ds : text) (n : Z) : text :=
  let k := Z.of_nat (length ds) in
  if ((k <=? n) && (n <=? 21))%Z then
    ds ++ repeat "0"%char (Z.to_nat (n - k))
  else if ((0 <? n) && (n <=? 21))%Z then
    firstn (Z.to_nat n) ds ++ "."%char :: skipn (Z.to_nat n) ds
  else if ((-6 <? n) && (n <=? 0))%Z then
    "0"%char :: "."%char :: repeat "0"%char (Z.to_nat (- n)) ++ ds
  else
    match ds with
    | [c] => c :: exponent_text (n - 1)
    | c :: rest => c :: "."%char :: rest ++ exponent_text (n - 1)
    | [] => []
    end.

Definition print_number (d : decimal) : text :=
  let (ds, zeros) := significand (N_digits (Z.abs_N (mantissa d))) in
  match ds with
  | [] => ["0"%char]
  | _ :: _ =>
      (if (mantissa d <? 0)%Z then ["-"%char] else [])
      ++ print_digits ds
           (Z.of_nat (length ds) + Z.of_nat zeros + exponent d)
  end.

(** Numerals for the numbers of the examples: [10] is the decimal of the
    literal [10]. *)
Definition decimal_of_uint (u : Number.uint) : option decimal :=
  match u with
  | Number.UIntDecimal d =>
      Some (decimal_of_digits false
              (String.list_ascii_of_string (NilEmpty.string_of_uint d)) 0)
  | Number.UIntHexadecimal _ => None
  end.

Definition uint_of_decimal (d : decimal) : option Number.uint :=
  if ((0 <=? mantissa d) && (0 <=? exponent d))%Z then
    Some (Number.UIntDecimal
            (N.to_uint (Z.to_N (mantissa d * 10 ^ exponent d))))
  else None.

Declare Scope decimal_scope.
Delimit Scope decimal_scope with decimal.
Number Notation decimal decimal_of_uint uint_of_decimal : decimal_scope.
Arguments JNumber {number} n%_decimal.

(** ** [JSON.stringify] *)

Definition hex_char (n : N) : ascii :=
  if (n <? 10)%N then ascii_of_N (48 + n) else ascii_of_N (87 + n).

(** [QuoteJSONString], character by character. *)
Definition escape (c : ascii) : text :=
  if Ascii.eqb c quote then [backslash; quote]
  else if Ascii.eqb c backslash then [backslash; backslash]
  else if Ascii.eqb c "008" then [backslash; "b"%char]
  else if Ascii.eqb c "012" then [backslash; "f"%char]
  else if Ascii.eqb c "010" then [backslash; "n"%char]
  else if Ascii.eqb c "013" then [backslash; "r"%char]
  else if Ascii.eqb c "009" then [backslash; "t"%char]
  else if (N_of_ascii c <? 32)%N then
    [backslash; "u"%char; "0"%char; "0"%char;
     hex_char (N_of_ascii c / 16); hex_char (N_of_ascii c mod 16)]
  else [c].

Definition quote_string (s : string) : text :=
  quote :: flat_map escape (String.list_ascii_of_string s) ++ [quote].

Fixpoint join_text (sep : ascii) (l : list text) : text :=
  match l with
  | [] => []
  | [x] => x
  | x :: r => x ++ sep :: join_text sep r
  end.

Section Printer.
Context {number : Type} (print_number : number -> text).

Fixpoint print_value (v : json number) : text :=
  match v with
  | JNull => null_text
  | JBool true => true_text
  | JBool false => false_text
  | JNumber n => print_number n
  | JString s => quote_string s
  | JArray items =>
      "["%char :: join_text "," (map print_value items) ++ ["]"%char]
  | JObject members =>
      "{"%char
      :: join_text ","
           (map (fun kv => quote_string (fst kv) ++ ":"%char
                           :: print_value (snd kv)) members)
      ++ ["}"%char]
  end.
End Printer.

Section json_induction.
Context {number : Type} (P : json number -> Prop).
Hypothesis Hnull : P JNull.
Hypothesis Hbool : forall b, P (JBool b).
Hypothesis Hnumber : forall n, P (JNumber n).
Hypothesis Hstring : forall s, P (JString s).
Hypothesis Harray : forall items, Forall P items -> P (JArray items).
Hypothesis Hobject :
  forall members, Forall (fun kv => P (snd kv)) members -> P (JObject members).

Fixpoint json_nested_ind (v : json number) : P v :=
  match v with
  | JNull => Hnull
  | JBool b => Hbool b
  | JNumber n => Hnumber n
  | JString s => Hstring s
  | JArray items =>
      Harray items
        ((fix go (l : list (json number)) : Forall P l :=
            match l with
            | [] => List.Forall_nil P
            | x :: r => @List.Forall_cons _ P x r (json_nested_ind x) (go r)
            end) items)
  | JObject members =>
      Hobject members
        ((fix go (l : list (string * json number))
            : Forall (fun kv => P (snd kv)) l :=
            match l with
            | [] => List.Forall_nil _
            | kv :: r =>
                @List.Forall_cons _ (fun kv => P (snd kv)) kv r
                  (json_nested_ind (snd kv)) (go r)
            end) members)
  end.
End json_induction.

(** The runtime's [JSON] object, on byte strings and exact decimals. *)
#[global] Instance ecma_JSON : JSON decimal := {|
  JSON_stringify v := String.string_of_list_ascii (print_value print_number v);
  JSON_parse t := parse_text read_number (String.list_ascii_of_string t)
|}.

(** ** What the parser can tell from the next character *)

(** The characters a value can start with. *)
Definition is_value_start (c : ascii) : bool :=
  Ascii.eqb c "[" || Ascii.eqb c "{" || Ascii.eqb c quote
  || Ascii.eqb c "n" || Ascii.eqb c "t" || Ascii.eqb c "f"
  || Ascii.eqb c "-" || is_digit c.

(** The characters that can come after a value: at one of them a number
    literal has ended. *)
Definition is_follow (c : ascii) : bool :=
  is_ws c || Ascii.eqb c "," || Ascii.eqb c "]" || Ascii.eqb c "}".

Arguments is_value_start : simpl never.
Arguments is_follow : simpl never.

Definition follows (rest : text) : Prop :=
  match rest with
  | [] => True
  | c :: _ => is_follow c = true
  end.

Definition no_digit_ahead (r : text) : Prop :=
  match r with
  | [] => True
  | c :: _ => is_digit c = false
  end.

Scheme Value_min := Minimality for Value Sort Prop
with Elements_min := Minimality for Elements Sort Prop
with Members_min := Minimality for Members Sort Prop.
Combined Scheme grammar_min from Value_min, Elements_min, Members_min.

(** ** Prototypes to run the helpers on *)

(** [Rectangle.prototype]: the method [getArea], then [Object.prototype]. *)
Definition Rectangle_prototype : prototype decimal :=
  ("getArea", Writable) :: Object_prototype.

(** A prototype with an accessor: [set radius(r) { this._radius = r; }] *)
Definition circle_proto : prototype decimal :=
  [("radius", Setter (fun r fields => Stored (put "_radius" r fields)));
   ("getArea", Writable)] ++ Object_prototype.

(** A prototype whose accessor checks what it is given:
    [set radius(r) {
       if (typeof r !== 'number') throw new SyntaxError('radius');
       this._radius = r; }] *)
Definition checked_circle_proto : prototype decimal :=
  [("radius",
    Setter (fun r fields =>
              match r with
              | JNumber _ => Stored (put "_radius" r fields)
              | _ => Raised ParseError
              end));
   ("getArea", Writable)] ++ Object_prototype.

(** The text [s] between double quotes. *)
Definition quoted (s : string) : string :=
  String quote (s +:+ String quote EmptyString).

(** C8, as the specification states it, for any prototype at all. *)
Definition round_trip_as_stated {number} `{JSON number}
    (P : prototype number) (fields : list (string * json number)) : Prop :=
  NoDup (map fst fields) ->
  JSON_parse (getJSON (JObject fields)) = Some (JObject fields) ->
  fromJSON P (getJSON (JObject fields)) = Return (MkInstance P fields).

(** C9, as the specification states it, for any prototype at all. *)
Definition parse_error_iff_malformed_as_stated
    (P : prototype decimal) (t : string) : Prop :=
  fromJSON P t = Throw ParseError <-> ~ well_formed t.

(** A script run from the freshly loaded module: the text of the selector
    it returns, or the error it stops on. *)
Definition script_text (script : M loc) : option string + string :=
  match script initial_heap with
  | (h, Return b) => inl (stringify h b)
  | (_, Throw e) => inr e
  | (_, Fault) => inl None
  end.

(** ** Sequences of calls the builder accepts *)

(** A call [x] made before a call [y] lets [y] through: the fragment of
    [x] ranks strictly lower, or it ranks the same and the kind is one that
    may repeat. *)
Definition accepts (x y : method * string) : bool :=
  (rank (fst x) <? rank (fst y))%Z
  || ((rank (fst x) =? rank (fst y))%Z && negb (method_unique (fst y))).

(** Every call is let through by all the calls before it. *)
Fixpoint valid_calls (calls : list (method * string)) : bool :=
  match calls with
  | [] => true
  | c :: rest => forallb (accepts c) rest && valid_calls rest
  end.

(** No two objects hold the same array under [parts]. *)
Definition unshared (h : heap) : Prop :=
  forall i j oi oj a,
    h !! i = Some (CObject oi) -> h !! j = Some (CObject oj) ->
    parts oi = Some a -> parts oj = Some a -> i = j.

(** The shape of a fragment sequence the builder lets grow: ranks never
    decrease, and each of the three unique types occurs at most once. *)
Definition canonical (ps : list part) : Prop :=
  StronglySorted (fun p q => (part_rank p <= part_rank q)%Z) ps /\
  forall t, In t ["element"; "id"; "pseudoElement"] ->
    length (List.filter (fun p => String.eqb (type p) t) ps) <= 1.

(** The text of the selector a script returns when run on the store [h]. *)
Definition run_text (script : M loc) (h : heap) : option string :=
  match script h with
  | (h', Return o) => stringify h' o
  | _ => None
  end.

(** * Lemmas *)

Lemma call_append m this v :
  call m this v = append (method_unique m) (method_type m) this v.
Proof. destruct m; reflexivity. Qed.

Section Chain.
Context {A : Type} (own : object -> option A).

Lemma lookup_chain_S n h l :
  lookup_chain own (S n) h l
  = match h !! l with
    | Some (CObject o) =>
        match own o with
        | Some a => Some (Some a)
        | None =>
            match proto o with
            | Some p => lookup_chain own n h p
            | None => Some None
            end
        end
    | _ => None
    end.
Proof. reflexivity. Qed.

Lemma lookup_chain_mono n m h l r :
  lookup_chain own n h l = Some r -> n <= m ->
  lookup_chain own m h l = Some r.
Proof.
  revert m l. induction n as [|n IH]; intros m l H Hle; [discriminate|].
  destruct m as [|m]; [lia|]. simpl in *.
  destruct (h !! l) as [[o|]|]; try discriminate.
  destruct (own o); [assumption|].
  destruct (proto o); [|assumption].
  apply IH; [assumption|lia].
Qed.

Lemma lookup_chain_app n h ext l r :
  lookup_chain own n h l = Some r ->
  lookup_chain own n (h ++ ext) l = Some r.
Proof.
  revert l. induction n as [|n IH]; intros l H; [discriminate|].
  simpl in *.
  destruct (h !! l) as [c|] eqn:E; [|discriminate].
  rewrite (lookup_app_l_Some _ _ _ _ E).
  destruct c as [o|]; [|discriminate].
  destruct (own o); [assumption|].
  destruct (proto o); [|assumption].
  now apply IH.
Qed.

Lemma get_app_Some h ext l r :
  get own h l = Some r -> get own (h ++ ext) l = Some r.
Proof.
  unfold get. intros H.
  apply lookup_chain_mono with (n := length h).
  - now apply lookup_chain_app.
  - rewrite length_app. lia.
Qed.
End Chain.

(** ** Well-formedness and store extension *)

Lemma is_object_Some h l :
  is_object h l = true <-> exists o, h !! l = Some (CObject o).
Proof.
  unfold is_object. split.
  - destruct (h !! l) as [[o|]|]; try discriminate. eauto.
  - intros [o ->]. reflexivity.
Qed.

Lemma is_array_Some h l :
  is_array h l = true <-> exists ps, h !! l = Some (CArray ps).
Proof.
  unfold is_array. split.
  - destruct (h !! l) as [[|ps]|]; try discriminate. eauto.
  - intros [ps ->]. reflexivity.
Qed.

Lemma is_object_lt h l : is_object h l = true -> l < length h.
Proof.
  intros [o E]%is_object_Some. apply lookup_lt_Some in E. exact E.
Qed.

Lemma is_object_app h ext l :
  is_object h l = true -> is_object (h ++ ext) l = true.
Proof.
  intros [o E]%is_object_Some. apply is_object_Some. exists o.
  now apply lookup_app_l_Some.
Qed.

Lemma is_array_app h ext l :
  is_array h l = true -> is_array (h ++ ext) l = true.
Proof.
  intros [o E]%is_array_Some. apply is_array_Some. exists o.
  now apply lookup_app_l_Some.
Qed.

Lemma wf_cell_app h ext i c :
  wf_cell h i c = true -> wf_cell (h ++ ext) i c = true.
Proof.
  destruct c as [[p a c]|]; simpl; [|reflexivity].
  rewrite !andb_true_iff. intros [[Hp Ha] Hc]. repeat split.
  - destruct p; [|reflexivity]. apply andb_true_iff in Hp as [? ?].
    apply andb_true_iff. split; [assumption|]. now apply is_object_app.
  - destruct a; [|reflexivity]. now apply is_array_app.
  - destruct c; [|reflexivity].
    rewrite !andb_true_iff in *. destruct Hc as [[? ?] [? ?]].
    repeat split; try assumption; now apply is_object_app.
Qed.

Lemma wf_cells_spec h i cs :
  wf_cells h i cs = true <->
  forall j c, cs !! j = Some c -> wf_cell h (i + j) c = true.
Proof.
  revert i. induction cs as [|c0 cs IH]; intros i; simpl.
  - split; [intros _ j c E; discriminate|reflexivity].
  - rewrite andb_true_iff, IH. split.
    + intros [H0 H] [|j] c E; simpl in E.
      * injection E as <-. now rewrite Nat.add_0_r.
      * rewrite Nat.add_succ_r. now apply H.
    + intros H. split.
      * specialize (H 0 c0 eq_refl). now rewrite Nat.add_0_r in H.
      * intros j c E. specialize (H (S j) c E).
        now rewrite Nat.add_succ_r in H.
Qed.

Lemma wf_heap_lookup h i c :
  wf_heap h = true -> h !! i = Some c -> wf_cell h i c = true.
Proof.
  unfold wf_heap. rewrite wf_cells_spec. intros H E. exact (H i c E).
Qed.

(** Cells appended to a well-formed store keep it well-formed when they
    are themselves well-formed in the extended store. *)
Lemma wf_heap_app h ext :
  wf_heap h = true ->
  wf_cells (h ++ ext) (length h) ext = true ->
  wf_heap (h ++ ext) = true.
Proof.
  unfold wf_heap. rewrite !wf_cells_spec. intros Hh Hext j c E.
  destruct (lookup_app_Some h ext j c) as [Hcase _].
  destruct (Hcase E) as [E1|[Hle E2]].
  - apply wf_cell_app. now apply Hh.
  - specialize (Hext _ _ E2).
    replace (length h + (j - length h)) with j in Hext by lia.
    exact Hext.
Qed.

Lemma wf_initial_heap : wf_heap initial_heap = true.
Proof. reflexivity. Qed.

Section ChainWf.
Context {A : Type} (own : object -> option A).
Variable h : heap.
Hypothesis Hwf : wf_heap h = true.

Lemma lookup_chain_total n l :
  l < n -> is_object h l = true ->
  exists r, lookup_chain own n h l = Some r.
Proof.
  revert l. induction n as [|n IH]; intros l Hlt Hobj; [lia|].
  apply is_object_Some in Hobj as [o E]. simpl. rewrite E.
  destruct (own o); [eauto|].
  pose proof (wf_heap_lookup _ _ _ Hwf E) as W. simpl in W.
  destruct (proto o) as [p|]; [|eauto].
  rewrite !andb_true_iff in W. destruct W as [[[Hp Hpo] _] _].
  apply Nat.ltb_lt in Hp. apply IH; [lia|assumption].
Qed.

Lemma get_total l :
  is_object h l = true -> exists r, get own h l = Some r.
Proof.
  intros Hobj. apply lookup_chain_total; [|assumption].
  now apply is_object_lt.
Qed.

Lemma get_app ext l :
  is_object h l = true -> get own (h ++ ext) l = get own h l.
Proof.
  intros Hobj. destruct (get_total l Hobj) as [r E].
  rewrite E. now apply get_app_Some.
Qed.

(** A property that resolves was defined by the object or an ancestor. *)
Lemma lookup_chain_found n l x :
  lookup_chain own n h l = Some (Some x) ->
  exists a o, a <= l /\ h !! a = Some (CObject o) /\ own o = Some x.
Proof.
  revert l. induction n as [|n IH]; intros l H; [discriminate|].
  simpl in H. destruct (h !! l) as [[o|]|] eqn:E; try discriminate.
  destruct (own o) as [y|] eqn:Eo.
  - injection H as <-. exists l, o. auto.
  - pose proof (wf_heap_lookup _ _ _ Hwf E) as W. simpl in W.
    destruct (proto o) as [p|]; [|discriminate].
    rewrite !andb_true_iff in W.
    destruct W as [[[Hp Hpo] _] _].
    apply Nat.ltb_lt in Hp.
    destruct (IH _ H) as (a & o' & Hle & Ea & Ex).
    exists a, o'. split; [lia|auto].
Qed.
End ChainWf.

Lemma get_parts_array h l a :
  wf_heap h = true -> get parts h l = Some (Some a) ->
  exists ps, h !! a = Some (CArray ps).
Proof.
  intros Hwf H. destruct (lookup_chain_found parts h Hwf _ _ _ H)
    as (b & o & _ & E & Eo).
  pose proof (wf_heap_lookup _ _ _ Hwf E) as W. simpl in W.
  rewrite Eo in W. rewrite !andb_true_iff in W.
  destruct W as [[_ Ha] _]. now apply is_array_Some.
Qed.

Lemma get_combined_older h l c :
  wf_heap h = true -> get combined h l = Some (Some c) ->
  (selector1 c < l /\ is_object h (selector1 c) = true) /\
  (selector2 c < l /\ is_object h (selector2 c) = true).
Proof.
  intros Hwf H. destruct (lookup_chain_found combined h Hwf _ _ _ H)
    as (b & o & Hle & E & Eo).
  pose proof (wf_heap_lookup _ _ _ Hwf E) as W. simpl in W.
  rewrite Eo in W. rewrite !andb_true_iff in W.
  destruct W as [_ [[H1 ?] [H2 ?]]].
  apply Nat.ltb_lt in H1, H2. repeat split; try assumption; lia.
Qed.

Lemma fragments_app h ext b :
  wf_heap h = true -> is_object h b = true ->
  fragments (h ++ ext) b = fragments h b.
Proof.
  intros Hwf Hb. unfold fragments. rewrite (get_app parts h Hwf ext b Hb).
  destruct (get parts h b) as [[a|]|] eqn:E; try reflexivity.
  destruct (get_parts_array _ _ _ Hwf E) as [ps Ea].
  now rewrite (lookup_app_l_Some _ _ _ _ Ea), Ea.
Qed.

(** ** What one append call does to the store *)

Lemma derived_object h this ps :
  derived h this ps !! length h
  = Some (CObject (Object (Some this) (Some (S (length h))) None)).
Proof. unfold derived. now apply list_lookup_middle. Qed.

Lemma derived_array h this ps :
  derived h this ps !! S (length h) = Some (CArray ps).
Proof.
  unfold derived. rewrite lookup_app_r by lia.
  replace (S (length h) - length h) with 1 by lia. reflexivity.
Qed.

Lemma derived_old h this ps l :
  l < length h -> derived h this ps !! l = h !! l.
Proof. intros Hlt. unfold derived. now apply lookup_app_l. Qed.

Lemma derived_length h this ps : length (derived h this ps) = S (S (length h)).
Proof. unfold derived. rewrite length_app. simpl. lia. Qed.

Lemma derived_get_parts h this ps :
  get parts (derived h this ps) (length h) = Some (Some (S (length h))).
Proof.
  unfold get. rewrite derived_length. simpl.
  now rewrite derived_object.
Qed.

Lemma derived_push h this ps q :
  <[S (length h) := CArray q]> (derived h this ps) = derived h this q.
Proof.
  unfold derived. rewrite insert_app_r_alt by lia.
  replace (S (length h) - length h) with 1 by lia. reflexivity.
Qed.

Lemma derived_fragments h this ps :
  fragments (derived h this ps) (length h) = ps.
Proof.
  unfold fragments. now rewrite derived_get_parts, derived_array.
Qed.

(** [Object.create(this)] followed by the copy of [this.parts]. *)
Lemma copy_parts_run {B} h this (k : loc -> M B) :
  wf_heap h = true -> is_object h this = true ->
  (let* obj := Object_create this in
   do copy_parts this obj then k obj) h
  = k (length h) (derived h this (fragments h this)).
Proof.
  intros Hwf Hthis.
  unfold bind at 1. unfold Object_create.
  unfold bind at 1. unfold copy_parts.
  unfold bind at 1. unfold get_prop.
  rewrite (get_app parts h Hwf _ this Hthis).
  unfold fragments.
  destruct (get_total parts h Hwf this Hthis) as [[a|] E]; rewrite E.
  - destruct (get_parts_array _ _ _ Hwf E) as [ps Ea]. rewrite Ea.
    unfold bind, Array_read, Array_new, set_parts.
    rewrite (lookup_app_l_Some _ _ _ _ Ea).
    rewrite <- app_assoc. simpl.
    rewrite (list_lookup_middle h _ _ (length h) eq_refl). simpl.
    rewrite length_app. simpl.
    rewrite insert_app_r_alt by lia. rewrite Nat.sub_diag. simpl.
    unfold derived. now rewrite Nat.add_1_r.
  - unfold bind, Array_new, set_parts.
    rewrite <- app_assoc. simpl.
    rewrite (list_lookup_middle h _ _ (length h) eq_refl). simpl.
    rewrite length_app. simpl.
    rewrite insert_app_r_alt by lia. rewrite Nat.sub_diag. simpl.
    unfold derived. now rewrite Nat.add_1_r.
Qed.

Lemma parts_some_derived h this ps t :
  parts_some (length h) t (derived h this ps)
  = (derived h this ps,
     Return (existsb (fun p => String.eqb (type p) t) ps)).
Proof.
  unfold parts_some, bind, get_prop, Array_read.
  now rewrite derived_get_parts, derived_array.
Qed.

Lemma validateOrder_derived h this ps t :
  validateOrder (length h) t (derived h this ps)
  = (derived h this ps,
     if validateOrder_loop (indexOf order t) ps
     then Throw OrderViolationError else Return (length h)).
Proof.
  unfold validateOrder, bind, get_prop, Array_read.
  rewrite derived_get_parts, derived_array.
  now destruct (validateOrder_loop _ ps).
Qed.

Lemma parts_push_derived h this ps p :
  parts_push (length h) p (derived h this ps)
  = (derived h this (ps ++ [p]), Return tt).
Proof.
  unfold parts_push, bind, get_prop, Array_push.
  now rewrite derived_get_parts, derived_array, derived_push.
Qed.

(** The complete effect of [append]: the store always grows by the derived
    object and its array; the array receives the new fragment only when
    both checks pass. *)
Lemma append_run unique t this v h :
  wf_heap h = true -> is_object h this = true ->
  append unique t this v h =
    let ps := fragments h this in
    if unique && existsb (fun p => String.eqb (type p) t) ps
    then (derived h this ps, Throw DuplicateSelectorPartError)
    else if validateOrder_loop (indexOf order t) ps
    then (derived h this ps, Throw OrderViolationError)
    else (derived h this (ps ++ [Part t v]), Return (length h)).
Proof.
  intros Hwf Hthis. unfold append.
  rewrite copy_parts_run by assumption. cbv zeta.
  set (ps := fragments h this).
  assert (Hrest :
    (do validateOrder (length h) t then
     do parts_push (length h) (Part t v) then ret (length h))
      (derived h this ps)
    = if validateOrder_loop (indexOf order t) ps
      then (derived h this ps, Throw OrderViolationError)
      else (derived h this (ps ++ [Part t v]), Return (length h))).
  { unfold bind at 1. rewrite validateOrder_derived.
    destruct (validateOrder_loop _ ps); [reflexivity|].
    unfold bind. now rewrite parts_push_derived. }
  destruct unique; simpl.
  - unfold bind at 1. rewrite parts_some_derived.
    destruct (existsb _ ps); [reflexivity|]. exact Hrest.
  - unfold bind at 1. unfold ret at 1. exact Hrest.
Qed.

Lemma wf_derived h this ps :
  wf_heap h = true -> is_object h this = true ->
  wf_heap (derived h this ps) = true.
Proof.
  intros Hwf Hthis. apply wf_heap_app; [assumption|].
  pose proof (is_object_lt _ _ Hthis) as Hlt.
  simpl. rewrite !andb_true_r. apply andb_true_iff. split.
  - apply andb_true_iff. split; [now apply Nat.ltb_lt|].
    now apply is_object_app.
  - apply is_array_Some. exists ps. apply (derived_array h this ps).
Qed.

(** ** stringify: fuel, totality, store extension *)

Lemma stringify_fuel_mono n m h l s :
  stringify_fuel n h l = Some s -> n <= m -> stringify_fuel m h l = Some s.
Proof.
  revert m l s. induction n as [|n IH]; intros m l s H Hle; [discriminate|].
  destruct m as [|m]; [lia|]. simpl in *.
  destruct (get combined h l) as [[c|]|]; try discriminate; [|assumption].
  destruct (stringify_fuel n h (selector1 c)) as [s1|] eqn:E1;
    [|discriminate].
  destruct (stringify_fuel n h (selector2 c)) as [s2|] eqn:E2;
    [|discriminate].
  rewrite (IH m _ _ E1), (IH m _ _ E2) by lia. assumption.
Qed.

Lemma stringify_fuel_app n h ext l s :
  stringify_fuel n h l = Some s -> stringify_fuel n (h ++ ext) l = Some s.
Proof.
  revert l s. induction n as [|n IH]; intros l s H; [discriminate|].
  simpl in *.
  destruct (get combined h l) as [[c|]|] eqn:Ec; try discriminate.
  - rewrite (get_app_Some _ _ _ _ _ Ec).
    destruct (stringify_fuel n h (selector1 c)) as [s1|] eqn:E1;
      [|discriminate].
    destruct (stringify_fuel n h (selector2 c)) as [s2|] eqn:E2;
      [|discriminate].
    now rewrite (IH _ _ E1), (IH _ _ E2).
  - rewrite (get_app_Some _ _ _ _ _ Ec).
    destruct (get parts h l) as [[a|]|] eqn:Ep; try discriminate.
    + rewrite (get_app_Some _ _ _ _ _ Ep).
      destruct (h !! a) as [c|] eqn:Ea; [|discriminate].
      now rewrite (lookup_app_l_Some _ _ _ _ Ea).
    + now rewrite (get_app_Some _ _ _ _ _ Ep).
Qed.

(** On a well-formed store the recursion of [stringify] bottoms out: fuel
    above the receiver's address is enough for a result. *)
Lemma stringify_fuel_total h :
  wf_heap h = true ->
  forall n l, l < n -> is_object h l = true ->
  exists s, stringify_fuel n h l = Some s.
Proof.
  intros Hwf. induction n as [|n IH]; intros l Hlt Hobj; [lia|].
  simpl. destruct (get_total combined h Hwf l Hobj) as [[c|] Ec]; rewrite Ec.
  - destruct (get_combined_older _ _ _ Hwf Ec) as [[L1 O1] [L2 O2]].
    destruct (IH (selector1 c)) as [s1 ->]; [lia|assumption|].
    destruct (IH (selector2 c)) as [s2 ->]; [lia|assumption|]. eauto.
  - destruct (get_total parts h Hwf l Hobj) as [[a|] Ep]; rewrite Ep;
      [|eauto].
    destruct (get_parts_array _ _ _ Hwf Ep) as [ps ->]. eauto.
Qed.

Lemma stringify_total h l :
  wf_heap h = true -> is_object h l = true ->
  exists s, stringify h l = Some s.
Proof.
  intros Hwf Hobj. apply stringify_fuel_total; try assumption.
  now apply is_object_lt.
Qed.

Lemma stringify_app h ext l :
  wf_heap h = true -> is_object h l = true ->
  stringify (h ++ ext) l = stringify h l.
Proof.
  intros Hwf Hobj. destruct (stringify_total h l Hwf Hobj) as [s E].
  rewrite E. unfold stringify in *.
  apply stringify_fuel_mono with (n := length h).
  - now apply stringify_fuel_app.
  - rewrite length_app. lia.
Qed.

(** Any fuel that yields a result yields the result of [stringify]. *)
Lemma stringify_fuel_stringify h n l s :
  wf_heap h = true -> is_object h l = true ->
  stringify_fuel n h l = Some s -> stringify h l = Some s.
Proof.
  intros Hwf Hobj H. destruct (stringify_total h l Hwf Hobj) as [s' E].
  rewrite E. unfold stringify in E.
  destruct (Nat.le_ge_cases n (length h)) as [Hle|Hle].
  - rewrite (stringify_fuel_mono _ _ _ _ _ H Hle) in E. congruence.
  - rewrite (stringify_fuel_mono _ _ _ _ _ E Hle) in H. congruence.
Qed.

(** ** The sort: a permutation, ordered, stable *)

Section Sort.
Context {A : Type} (key : A -> Z).

Lemma sort_insert_perm x l :
  Permutation (x :: l) (sort_insert (by_key key) x l).
Proof.
  induction l as [|y l IH]; simpl; [reflexivity|].
  destruct (0 <? by_key key x y)%Z; [|reflexivity].
  rewrite perm_swap. now apply perm_skip.
Qed.

Lemma Array_sort_perm l : Permutation l (Array_sort (by_key key) l).
Proof.
  induction l as [|x l IH]; simpl; [reflexivity|].
  rewrite <- sort_insert_perm. now apply perm_skip.
Qed.

Lemma sort_insert_sorted x l :
  Sorted (key_le key) l -> Sorted (key_le key) (sort_insert (by_key key) x l).
Proof.
  induction l as [|y l IH]; intros Hs; simpl.
  - repeat constructor.
  - unfold by_key at 1. destruct (0 <? key x - key y)%Z eqn:E.
    + apply Z.ltb_lt in E. inversion Hs as [|? ? Hs' Hhd]; subst.
      constructor; [now apply IH|].
      destruct l as [|z l]; simpl.
      * constructor. unfold key_le. lia.
      * unfold by_key at 1. destruct (0 <? key x - key z)%Z.
        -- inversion Hhd; subst. now constructor.
        -- constructor. unfold key_le. lia.
    + apply Z.ltb_ge in E. constructor; [assumption|].
      constructor. unfold key_le. lia.
Qed.

Lemma Array_sort_sorted l : Sorted (key_le key) (Array_sort (by_key key) l).
Proof.
  induction l as [|x l IH]; simpl; [constructor|].
  now apply sort_insert_sorted.
Qed.

(** Stability: the elements of any one key come out in the order they
    went in. *)
Lemma sort_insert_filter k x l :
  List.filter (fun a => (key a =? k)%Z) (sort_insert (by_key key) x l)
  = List.filter (fun a => (key a =? k)%Z) (x :: l).
Proof.
  induction l as [|y l IH]; [reflexivity|].
  simpl sort_insert. unfold by_key at 1.
  destruct (0 <? key x - key y)%Z eqn:E; [|reflexivity].
  apply Z.ltb_lt in E. simpl in *. rewrite IH.
  destruct (key x =? k)%Z eqn:Ex, (key y =? k)%Z eqn:Ey; try reflexivity.
  apply Z.eqb_eq in Ex, Ey. lia.
Qed.

Lemma Array_sort_filter k l :
  List.filter (fun a => (key a =? k)%Z) (Array_sort (by_key key) l)
  = List.filter (fun a => (key a =? k)%Z) l.
Proof.
  induction l as [|x l IH]; [reflexivity|].
  simpl Array_sort. rewrite sort_insert_filter. simpl. now rewrite IH.
Qed.

(** An array already in order is left as it is. *)
Lemma Array_sort_sorted_id l : Sorted (key_le key) l -> Array_sort (by_key key) l = l.
Proof.
  induction l as [|x l IH]; intros Hs; [reflexivity|].
  inversion Hs as [|? ? Hs' Hhd]; subst. simpl. rewrite IH by assumption.
  destruct Hhd as [|y l Hxy]; [reflexivity|]. simpl.
  unfold by_key, key_le in *.
  destruct (0 <? key x - key y)%Z eqn:E; [|reflexivity].
  apply Z.ltb_lt in E. lia.
Qed.
(** The three properties single out one list: two lists in key order
    that agree key by key are equal. *)
Lemma key_sorted_head x l :
  Sorted (key_le key) (x :: l) -> forall y, In y (x :: l) -> (key x <= key y)%Z.
Proof.
  intros Hs y Hin. apply Sorted_StronglySorted in Hs.
  - inversion Hs as [|? ? _ Hall]; subst. destruct Hin as [<-|Hin]; [lia|].
    rewrite List.Forall_forall in Hall. now apply Hall.
  - intros a b c. unfold key_le. lia.
Qed.

Lemma filter_key_head x l :
  List.filter (fun a => (key a =? key x)%Z) (x :: l)
  = x :: List.filter (fun a => (key a =? key x)%Z) l.
Proof. simpl. now rewrite Z.eqb_refl. Qed.

Lemma stable_sorted_unique l1 : forall l2,
  Sorted (key_le key) l1 -> Sorted (key_le key) l2 ->
  (forall k, List.filter (fun a => (key a =? k)%Z) l1
             = List.filter (fun a => (key a =? k)%Z) l2) ->
  l1 = l2.
Proof.
  induction l1 as [|x t1 IH]; intros l2 S1 S2 Hf.
  - destruct l2 as [|y t2]; [reflexivity|].
    specialize (Hf (key y)). rewrite filter_key_head in Hf. discriminate Hf.
  - destruct l2 as [|y t2].
    { specialize (Hf (key x)). rewrite filter_key_head in Hf.
      discriminate Hf. }
    assert (Hy : In y (x :: t1)).
    { apply (proj1 (List.filter_In (fun a => (key a =? key y)%Z) y (x :: t1))).
      rewrite Hf, filter_key_head. now left. }
    assert (Hx : In x (y :: t2)).
    { apply (proj1 (List.filter_In (fun a => (key a =? key x)%Z) x (y :: t2))).
      rewrite <- Hf, filter_key_head. now left. }
    pose proof (key_sorted_head _ _ S1 _ Hy) as Lxy.
    pose proof (key_sorted_head _ _ S2 _ Hx) as Lyx.
    assert (Exy : key x = key y) by lia.
    pose proof (Hf (key x)) as Hfx.
    rewrite filter_key_head, Exy, filter_key_head in Hfx.
    injection Hfx as <- _.
    f_equal. apply IH.
    + now inversion S1.
    + now inversion S2.
    + intros k. specialize (Hf k). simpl in Hf.
      destruct (key x =? k)%Z; [now injection Hf|exact Hf].
Qed.
End Sort.

(** Sorting commutes with a map that preserves the comparator. *)
Lemma sort_insert_map {A B} (f : A -> B) (cA : A -> A -> Z)
    (cB : B -> B -> Z) x l :
  (forall a b, cB (f a) (f b) = cA a b) ->
  sort_insert cB (f x) (map f l) = map f (sort_insert cA x l).
Proof.
  intros Hc. induction l as [|y l IH]; [reflexivity|].
  simpl. rewrite Hc. destruct (0 <? cA x y)%Z; [|reflexivity].
  simpl. now rewrite IH.
Qed.

Lemma Array_sort_map {A B} (f : A -> B) (cA : A -> A -> Z)
    (cB : B -> B -> Z) l :
  (forall a b, cB (f a) (f b) = cA a b) ->
  Array_sort cB (map f l) = map f (Array_sort cA l).
Proof.
  intros Hc. induction l as [|x l IH]; [reflexivity|].
  simpl. rewrite IH. now apply sort_insert_map.
Qed.

(** ** Calls and chains *)

Lemma validateOrder_loop_Exists n ps :
  validateOrder_loop n ps = true <-> Exists (fun p => (n < part_rank p)%Z) ps.
Proof.
  induction ps as [|p ps IH]; simpl.
  - split; [discriminate|]. intros H. inversion H.
  - fold (part_rank p). destruct (n <? part_rank p)%Z eqn:E.
    + apply Z.ltb_lt in E. split; [|reflexivity]. intros _. now left.
    + apply Z.ltb_ge in E. rewrite IH. split.
      * intros H. now right.
      * intros H. inversion H; subst; [lia|assumption].
Qed.

Lemma parts_some_Exists t ps :
  existsb (fun p => String.eqb (type p) t) ps = true
  <-> Exists (fun p => type p = t) ps.
Proof.
  rewrite List.existsb_exists, List.Exists_exists.
  split; intros (p & Hin & Hp); exists p; split; try assumption;
    now apply String.eqb_eq.
Qed.

Lemma errors_distinct : DuplicateSelectorPartError <> OrderViolationError.
Proof. discriminate. Qed.

Lemma call_run m this v h :
  wf_heap h = true -> is_object h this = true ->
  call m this v h =
    let ps := fragments h this in
    if method_unique m
       && existsb (fun p => String.eqb (type p) (method_type m)) ps
    then (derived h this ps, Throw DuplicateSelectorPartError)
    else if validateOrder_loop (rank m) ps
    then (derived h this ps, Throw OrderViolationError)
    else (derived h this (ps ++ [Part (method_type m) v]), Return (length h)).
Proof. intros Hwf Hthis. rewrite call_append. now apply append_run. Qed.

(** Whatever a call returns or throws, the store it leaves is the old one
    followed by the derived object and its array. *)
Lemma call_derived m this v h h' r :
  wf_heap h = true -> is_object h this = true ->
  call m this v h = (h', r) ->
  exists ps, h' = derived h this ps.
Proof.
  intros Hwf Hthis. rewrite call_run by assumption. cbv zeta.
  destruct (_ && _); [|destruct (validateOrder_loop _ _)];
    intros [= <- _]; eauto.
Qed.

Lemma derived_get_combined h this ps :
  wf_heap h = true -> is_object h this = true ->
  get combined (derived h this ps) (length h) = get combined h this.
Proof.
  intros Hwf Hthis. unfold get at 1. rewrite derived_length.
  destruct (get_total combined h Hwf this Hthis) as [r E]. rewrite E.
  rewrite lookup_chain_S, derived_object. cbn [combined proto].
  apply lookup_chain_mono with (n := length h); [|lia].
  now apply lookup_chain_app.
Qed.

Lemma derived_is_object h this ps : is_object (derived h this ps) (length h) = true.
Proof. apply is_object_Some. eexists. apply derived_object. Qed.

Lemma chain_run calls : forall h b h' b',
  wf_heap h = true -> is_object h b = true ->
  chain b calls h = (h', Return b') ->
  wf_heap h' = true /\ is_object h' b' = true /\
  get combined h' b' = get combined h b /\
  fragments h' b' = fragments h b ++ map call_part calls.
Proof.
  induction calls as [|[m v] calls IH]; intros h b h' b' Hwf Hb H.
  - injection H as <- <-. now rewrite app_nil_r.
  - simpl in H. unfold bind in H. rewrite call_run in H by assumption.
    cbv zeta in H.
    destruct (_ && _); [discriminate|].
    destruct (validateOrder_loop _ _); [discriminate|].
    apply IH in H as (W & O & C & F).
    + repeat split; try assumption.
      * rewrite C. now apply derived_get_combined.
      * rewrite F, derived_fragments, <- app_assoc. reflexivity.
    + now apply wf_derived.
    + apply derived_is_object.
Qed.

(** [stringify] on a selector without [combined]. *)
Lemma stringify_simple h b :
  wf_heap h = true -> is_object h b = true ->
  get combined h b = Some None ->
  stringify h b
  = Some (join (map render (Array_sort compare_parts (fragments h b)))).
Proof.
  intros Hwf Hb Hc. unfold stringify.
  pose proof (is_object_lt _ _ Hb) as Hlt.
  destruct (length h) as [|n] eqn:El; [lia|].
  simpl. rewrite Hc. unfold fragments.
  destruct (get_total parts h Hwf b Hb) as [[a|] Ep]; rewrite Ep;
    [|reflexivity].
  destruct (get_parts_array _ _ _ Hwf Ep) as [ps ->]. reflexivity.
Qed.

Lemma render_call_part c : render (call_part c) = fragment_text (fst c) (snd c).
Proof. destruct c as [[] t]; reflexivity. Qed.

Lemma compare_call_parts a b :
  compare_parts (call_part a) (call_part b) = by_key call_rank a b.
Proof. reflexivity. Qed.

(** Well-formedness is an invariant of the builder's operations. *)
Lemma wf_call m this v h h' r :
  wf_heap h = true -> is_object h this = true ->
  call m this v h = (h', r) -> wf_heap h' = true.
Proof.
  intros Hwf Hthis Hcall.
  destruct (call_derived _ _ _ _ _ _ Hwf Hthis Hcall) as [ps ->].
  now apply wf_derived.
Qed.

(** ** combine *)

Lemma combine_run this A c B h :
  combine this A c B h
  = (h ++ [combined_cell this (Combination A c B)], Return (length h)).
Proof.
  unfold combine, bind, Object_create, set_combined, ret.
  rewrite (list_lookup_middle h [] _ (length h) eq_refl).
  rewrite insert_app_r_alt by lia. now rewrite Nat.sub_diag.
Qed.

Lemma stringify_fuel_S n h this :
  stringify_fuel (S n) h this
  = match get combined h this with
    | None => None
    | Some (Some c) =>
        match stringify_fuel n h (selector1 c),
              stringify_fuel n h (selector2 c) with
        | Some s1, Some s2 =>
            Some (s1 +:+ " " +:+ combinator c +:+ " " +:+ s2)
        | _, _ => None
        end
    | Some None =>
        match get parts h this with
        | None => None
        | Some None => Some ""
        | Some (Some a) =>
            match h !! a with
            | Some (CArray ps) =>
                Some (join (map render (Array_sort compare_parts ps)))
            | _ => None
            end
        end
    end.
Proof. reflexivity. Qed.

Lemma stringify_combined_cell h this c sa sb :
  stringify h (selector1 c) = Some sa ->
  stringify h (selector2 c) = Some sb ->
  stringify (h ++ [combined_cell this c]) (length h)
  = Some (sa +:+ " " +:+ combinator c +:+ " " +:+ sb).
Proof.
  intros Ha Hb. unfold stringify in *.
  rewrite length_app, Nat.add_1_r, stringify_fuel_S.
  assert (Hc : get combined (h ++ [combined_cell this c]) (length h)
               = Some (Some c)).
  { unfold get. rewrite length_app, Nat.add_1_r, lookup_chain_S.
    now rewrite (list_lookup_middle h [] _ (length h) eq_refl). }
  rewrite Hc.
  now rewrite (stringify_fuel_app _ _ _ _ _ Ha),
    (stringify_fuel_app _ _ _ _ _ Hb).
Qed.

Lemma wf_combine this A c B h :
  wf_heap h = true -> is_object h this = true ->
  is_object h A = true -> is_object h B = true ->
  wf_heap (fst (combine this A c B h)) = true.
Proof.
  intros Hwf Hthis HA HB. rewrite combine_run. simpl.
  apply wf_heap_app; [assumption|]. simpl.
  rewrite (is_object_app _ _ _ Hthis), (is_object_app _ _ _ HA),
    (is_object_app _ _ _ HB).
  apply is_object_lt in Hthis, HA, HB.
  apply Nat.ltb_lt in Hthis, HA, HB. now rewrite Hthis, HA, HB.
Qed.

(** ** Frame lemmas for the append calls *)

Lemma derived_frame h this ps b :
  wf_heap h = true -> is_object h b = true ->
  fragments (derived h this ps) b = fragments h b /\
  stringify (derived h this ps) b = stringify h b.
Proof.
  intros Hwf Hb. unfold derived. split.
  - now apply fragments_app.
  - now apply stringify_app.
Qed.

(** ** The parser accepts the grammar, and nothing else *)

(** Facts about single characters, by running through the 256 of them. *)
Ltac by_bits c :=
  destruct c as [[] [] [] [] [] [] [] []]; vm_compute in *;
  repeat split; try congruence; auto.


Lemma value_start_facts c :
  is_value_start c = true ->
  is_ws c = false /\ Ascii.eqb c "]" = false /\ Ascii.eqb c "}" = false
  /\ Ascii.eqb c "," = false /\ Ascii.eqb c ":" = false.
Proof. intros H. by_bits c. Qed.

Lemma number_start_facts c :
  Ascii.eqb c "-" = true \/ is_digit c = true ->
  Ascii.eqb c "[" = false /\ Ascii.eqb c "{" = false
  /\ Ascii.eqb c quote = false /\ Ascii.eqb c "n" = false
  /\ Ascii.eqb c "t" = false /\ Ascii.eqb c "f" = false.
Proof. intros H. by_bits c; destruct H; congruence. Qed.

Lemma follow_facts c :
  is_follow c = true ->
  is_digit c = false /\ Ascii.eqb c "." = false
  /\ Ascii.eqb c "e" = false /\ Ascii.eqb c "E" = false.
Proof. intros H. by_bits c. Qed.

Lemma digit_facts c :
  is_digit c = true ->
  Ascii.eqb c "+" = false /\ Ascii.eqb c "-" = false
  /\ Ascii.eqb c "." = false /\ Ascii.eqb c "e" = false
  /\ Ascii.eqb c "E" = false.
Proof. intros H. by_bits c. Qed.

Lemma digit19_facts c :
  is_digit19 c = true -> is_digit c = true /\ Ascii.eqb c "0" = false.
Proof. intros H. by_bits c. Qed.

Lemma digit_cases c :
  is_digit c = true -> Ascii.eqb c "0" = true \/ is_digit19 c = true.
Proof. intros H. by_bits c. Qed.

Lemma plain_facts c :
  is_plain c = true ->
  Ascii.eqb c quote = false /\ Ascii.eqb c backslash = false
  /\ (32 <=? nat_of_ascii c)%nat = true.
Proof. intros H. by_bits c. Qed.

Lemma unescape_facts c :
  is_Some (unescape c) -> Ascii.eqb c "u" = false.
Proof.
  intros [x H]. destruct (Ascii.eqb c "u") eqn:E; [|reflexivity].
  apply Ascii.eqb_eq in E. subst c. discriminate H.
Qed.


Ltac by_assoc :=
  solve [ reflexivity
        | rewrite <- List.app_assoc; reflexivity
        | rewrite <- !List.app_assoc; reflexivity
        | cbn [app]; rewrite <- ?List.app_assoc; reflexivity ].

(** White space, digits, prefixes. *)

Lemma skip_ws_ws w r : WS w -> skip_ws (w ++ r) = skip_ws r.
Proof.
  unfold WS. induction w as [|c w IH]; intros H; [reflexivity|].
  simpl in *. apply andb_true_iff in H as [Hc Hw]. rewrite Hc. now apply IH.
Qed.

Lemma skip_ws_head c r : is_ws c = false -> skip_ws (c :: r) = c :: r.
Proof. intros H. simpl. now rewrite H. Qed.

Lemma skip_ws_split s : exists w, s = w ++ skip_ws s /\ WS w.
Proof.
  induction s as [|c s (w & E & Hw)]; [exists []; now split|].
  simpl. destruct (is_ws c) eqn:Ec.
  - exists (c :: w). split; [simpl; congruence|].
    unfold WS in *. simpl. now rewrite Ec.
  - exists []. now split.
Qed.

Lemma skip_ws_stops s c r : skip_ws s = c :: r -> is_ws c = false.
Proof.
  induction s as [|d s IH]; [discriminate|]. simpl.
  destruct (is_ws d) eqn:E; [assumption|]. now intros [= <- _].
Qed.

Lemma skip_ws_nil s : skip_ws s = [] -> WS s.
Proof.
  destruct (skip_ws_split s) as (w & E & Hw). intros H.
  rewrite H, app_nil_r in E. now subst.
Qed.

Lemma WS_follows w : WS w -> follows w.
Proof.
  destruct w as [|c w]; [easy|]. unfold WS. simpl.
  intros [H _]%andb_true_iff. unfold is_follow. now rewrite H.
Qed.

Lemma WS_app_follows w c r :
  WS w -> is_follow c = true -> follows (w ++ c :: r).
Proof.
  destruct w as [|d w]; [easy|]. unfold WS. simpl.
  intros [H _]%andb_true_iff _. unfold is_follow. now rewrite H.
Qed.

Lemma span_digits_sound s ds r :
  span_digits s = (ds, r) -> s = ds ++ r /\ forallb is_digit ds = true.
Proof.
  revert ds r. induction s as [|c s IH]; intros ds r; simpl.
  - now intros [= <- <-].
  - destruct (is_digit c) eqn:Ec.
    + destruct (span_digits s) as [ds' r'] eqn:Es. intros [= <- <-].
      destruct (IH _ _ eq_refl) as [-> Hd]. simpl. now rewrite Ec.
    + now intros [= <- <-].
Qed.

Lemma span_digits_complete ds r :
  forallb is_digit ds = true -> no_digit_ahead r ->
  span_digits (ds ++ r) = (ds, r).
Proof.
  induction ds as [|c ds IH]; intros Hd Hr; simpl.
  - destruct r as [|c r]; [reflexivity|]. simpl in *. now rewrite Hr.
  - simpl in Hd. apply andb_true_iff in Hd as [Hc Hd].
    now rewrite Hc, IH.
Qed.

Lemma strip_prefix_sound p s r : strip_prefix p s = Some r -> s = p ++ r.
Proof.
  revert s. induction p as [|c p IH]; intros s; simpl.
  - now intros [= ->].
  - destruct s as [|d s]; [discriminate|].
    destruct (Ascii.eqb c d) eqn:E; [|discriminate].
    apply Ascii.eqb_eq in E as ->. intros H. now rewrite (IH _ H).
Qed.

Lemma strip_prefix_complete p r : strip_prefix p (p ++ r) = Some r.
Proof.
  induction p as [|c p IH]; simpl; [reflexivity|].
  now rewrite Ascii.eqb_refl.
Qed.

(** Number literals. *)

Lemma parse_exp_sound lex s l r :
  parse_exp lex s = Some (l, r) ->
  exists e, l = lex ++ e /\ s = e ++ r /\ Exp e.
Proof.
  unfold parse_exp. destruct s as [|e s1].
  { intros [= <- <-]. exists []. rewrite app_nil_r. repeat split. constructor. }
  destruct (Ascii.eqb e "e" || Ascii.eqb e "E") eqn:Ee.
  2:{ intros [= <- <-]. exists []. rewrite app_nil_r. repeat split.
      constructor. }
  assert (He : e = "e"%char \/ e = "E"%char).
  { apply orb_true_iff in Ee as [E|E]; apply Ascii.eqb_eq in E; auto. }
  set (sp := match s1 with
             | c :: r' =>
                 if Ascii.eqb c "+" || Ascii.eqb c "-" then ([c], r')
                 else ([], s1)
             | [] => ([], s1)
             end).
  assert (Hsp : s1 = fst sp ++ snd sp /\
                (fst sp = [] \/ fst sp = ["+"%char] \/ fst sp = ["-"%char])).
  { unfold sp. destruct s1 as [|c r']; [simpl; auto|].
    destruct (Ascii.eqb c "+" || Ascii.eqb c "-") eqn:Ec; [|simpl; auto].
    simpl. split; [reflexivity|].
    apply orb_true_iff in Ec as [E|E]; apply Ascii.eqb_eq in E; subst; auto. }
  destruct sp as [sg r1]. simpl in Hsp. destruct Hsp as [-> Hsg].
  destruct (span_digits r1) as [ds r2] eqn:Es.
  destruct (span_digits_sound _ _ _ Es) as [-> Hd].
  destruct ds as [|d ds]; [discriminate|]. intros [= <- <-].
  exists (e :: sg ++ d :: ds). split; [reflexivity|]. split.
  - by_assoc.
  - constructor; try assumption. split; [discriminate|assumption].
Qed.

Lemma parse_frac_sound lex s l r :
  parse_frac lex s = Some (l, r) ->
  exists f e, l = lex ++ f ++ e /\ s = f ++ e ++ r /\ Frac f /\ Exp e.
Proof.
  unfold parse_frac.
  assert (Hnone : parse_exp lex s = Some (l, r) ->
    exists f e, l = lex ++ f ++ e /\ s = f ++ e ++ r /\ Frac f /\ Exp e).
  { intros H. apply parse_exp_sound in H as (e & -> & -> & He).
    exists [], e. repeat split; try assumption. constructor. }
  destruct s as [|c s1]; [assumption|].
  destruct (Ascii.eqb c ".") eqn:Ec; [|assumption].
  apply Ascii.eqb_eq in Ec as ->.
  destruct (span_digits s1) as [ds r1] eqn:Es.
  destruct (span_digits_sound _ _ _ Es) as [-> Hd].
  destruct ds as [|d ds]; [discriminate|]. intros H.
  apply parse_exp_sound in H as (e & -> & -> & He).
  exists ("."%char :: d :: ds), e.
  repeat split; try assumption; try by_assoc.
  constructor. split; [discriminate|assumption].
Qed.

Lemma parse_int_sound lex s l r :
  parse_int lex s = Some (l, r) ->
  exists i f e,
    l = lex ++ i ++ f ++ e /\ s = i ++ f ++ e ++ r /\
    Int i /\ Frac f /\ Exp e.
Proof.
  unfold parse_int. destruct s as [|c s1]; [discriminate|].
  destruct (Ascii.eqb c "0") eqn:E0.
  - apply Ascii.eqb_eq in E0 as ->. intros H.
    apply parse_frac_sound in H as (f & e & -> & -> & Hf & He).
    exists ["0"%char], f, e.
    repeat split; try assumption; try by_assoc. constructor.
  - destruct (is_digit19 c) eqn:Ec; [|discriminate].
    destruct (span_digits s1) as [ds r1] eqn:Es.
    destruct (span_digits_sound _ _ _ Es) as [-> Hd]. intros H.
    apply parse_frac_sound in H as (f & e & -> & -> & Hf & He).
    exists (c :: ds), f, e.
    repeat split; try assumption; try by_assoc. now constructor.
Qed.

Lemma parse_number_sound s l r :
  parse_number s = Some (l, r) -> s = l ++ r /\ Number l.
Proof.
  unfold parse_number. destruct s as [|c s1]; [discriminate|].
  destruct (Ascii.eqb c "-") eqn:Ec.
  - apply Ascii.eqb_eq in Ec as ->. intros H.
    apply parse_int_sound in H as (i & f & e & -> & -> & Hi & Hf & He).
    split.
    + simpl. by_assoc.
    + apply (Number_intro ["-"%char]); auto.
  - intros H.
    apply parse_int_sound in H as (i & f & e & -> & E & Hi & Hf & He).
    split.
    + simpl. rewrite E. by_assoc.
    + apply (Number_intro []); auto.
Qed.

Lemma parse_exp_complete lex e r :
  Exp e -> follows r -> parse_exp lex (e ++ r) = Some (lex ++ e, r).
Proof.
  intros He Hr. destruct He as [|e sg ds He Hsg [Hne Hd]].
  - simpl. rewrite app_nil_r. unfold parse_exp.
    destruct r as [|c r]; [reflexivity|]. simpl in Hr.
    destruct (follow_facts c Hr) as (_ & _ & E1 & E2). now rewrite E1, E2.
  - assert (Hnd : no_digit_ahead r).
    { destruct r as [|c r]; [easy|]. simpl in *.
      now destruct (follow_facts c Hr). }
    destruct ds as [|d ds]; [contradiction|].
    simpl in Hd. apply andb_true_iff in Hd as [Hd1 Hd2].
    destruct (digit_facts d Hd1) as (Ep & Em & _).
    pose proof (span_digits_complete ds r Hd2 Hnd) as Hspan.
    unfold parse_exp.
    destruct He as [-> | ->]; destruct Hsg as [-> | [-> | ->]];
      simpl; rewrite ?Ep, ?Em; simpl; rewrite Hd1, Hspan; reflexivity.
Qed.

Lemma exp_follows_no_digit e r :
  Exp e -> follows r -> no_digit_ahead (e ++ r) /\
  match e ++ r with [] => True | c :: _ => Ascii.eqb c "." = false end.
Proof.
  intros He Hr. destruct He as [|e sg ds He _ _]; simpl.
  - destruct r as [|c r]; [easy|]. simpl in Hr.
    now destruct (follow_facts c Hr) as (? & ? & _).
  - destruct He as [-> | ->]; now split.
Qed.

Lemma parse_frac_complete lex f e r :
  Frac f -> Exp e -> follows r ->
  parse_frac lex (f ++ e ++ r) = Some (lex ++ f ++ e, r).
Proof.
  intros Hf He Hr. destruct (exp_follows_no_digit e r He Hr) as [Hnd Hdot].
  destruct Hf as [|ds [Hne Hd]].
  - simpl app. unfold parse_frac.
    pose proof (parse_exp_complete lex e r He Hr) as Hexp.
    destruct (e ++ r) as [|c s]; [assumption|]. now rewrite Hdot.
  - unfold parse_frac. simpl.
    rewrite (span_digits_complete ds (e ++ r) Hd Hnd).
    destruct ds as [|d ds]; [contradiction|].
    rewrite parse_exp_complete by assumption.
    f_equal. f_equal. by_assoc.
Qed.

Lemma frac_exp_follows_no_digit f e r :
  Frac f -> Exp e -> follows r -> no_digit_ahead (f ++ e ++ r).
Proof.
  intros Hf He Hr. destruct Hf as [|ds _].
  - exact (proj1 (exp_follows_no_digit e r He Hr)).
  - reflexivity.
Qed.

Lemma parse_int_complete lex i f e r :
  Int i -> Frac f -> Exp e -> follows r ->
  parse_int lex (i ++ f ++ e ++ r) = Some (lex ++ i ++ f ++ e, r).
Proof.
  intros Hi Hf He Hr. destruct Hi as [|d ds Hd Hds].
  - unfold parse_int. simpl.
    rewrite parse_frac_complete by assumption.
    f_equal. f_equal. by_assoc.
  - unfold parse_int. simpl.
    destruct (digit19_facts d Hd) as [_ E0]. rewrite E0, Hd.
    rewrite (span_digits_complete ds (f ++ e ++ r) Hds
               (frac_exp_follows_no_digit f e r Hf He Hr)).
    rewrite parse_frac_complete by assumption.
    f_equal. f_equal. by_assoc.
Qed.

Lemma int_head i : Int i -> exists c r, i = c :: r /\ is_digit c = true.
Proof.
  intros [|d ds Hd _]; eexists _, _; split; try reflexivity.
  now destruct (digit19_facts d Hd).
Qed.

Lemma number_head s :
  Number s ->
  exists c r, s = c :: r /\ (Ascii.eqb c "-" = true \/ is_digit c = true).
Proof.
  intros [sg i f e Hsg Hi _ _]. destruct Hsg as [-> | ->].
  - destruct (int_head i Hi) as (c & r & -> & Hc). simpl. eauto.
  - simpl. eexists _, _. split; [reflexivity|]. now left.
Qed.

Lemma parse_number_complete s r :
  Number s -> follows r -> parse_number (s ++ r) = Some (s, r).
Proof.
  intros [sg i f e Hsg Hi Hf He] Hr. unfold parse_number.
  destruct Hsg as [-> | ->].
  - pose proof (parse_int_complete [] i f e r Hi Hf He Hr) as H.
    destruct (int_head i Hi) as (c & i' & -> & Hc).
    destruct (digit_facts c Hc) as (_ & Em & _).
    replace (([] ++ (c :: i') ++ f ++ e) ++ r)
      with ((c :: i') ++ f ++ e ++ r) by by_assoc.
    simpl. simpl in H. now rewrite Em.
  - pose proof (parse_int_complete ["-"%char] i f e r Hi Hf He Hr) as H.
    replace ((["-"%char] ++ i ++ f ++ e) ++ r)
      with ("-"%char :: i ++ f ++ e ++ r) by by_assoc.
    simpl. exact H.
Qed.

(** String literals. *)

Lemma parse_chars_sound s d r :
  parse_chars s = Some (d, r) ->
  exists body, s = body ++ quote :: r /\ Chars body.
Proof.
  revert d r. induction s as [s IH] using (induction_ltof1 _ (@length _)).
  unfold ltof in IH. intros d r.
  destruct s as [|c s1]; [discriminate|]. cbn [parse_chars].
  destruct (Ascii.eqb c quote) eqn:Eq.
  { apply Ascii.eqb_eq in Eq as ->. intros [= <- <-].
    exists []. split; [reflexivity|constructor]. }
  destruct (Ascii.eqb c backslash) eqn:Eb.
  - apply Ascii.eqb_eq in Eb as ->.
    destruct s1 as [|e s2]; [discriminate|].
    destruct (Ascii.eqb e "u") eqn:Eu.
    + apply Ascii.eqb_eq in Eu as ->.
      destruct s2 as [|h1 [|h2 [|h3 [|h4 s3]]]]; try discriminate.
      destruct (is_hex h1 && is_hex h2 && is_hex h3 && is_hex h4) eqn:Eh;
        [|discriminate].
      destruct (parse_chars s3) as [[d' r']|] eqn:Ep; [|discriminate].
      intros [= <- <-].
      destruct (IH s3 ltac:(simpl; lia) _ _ Ep) as (body & -> & Hb).
      apply andb_true_iff in Eh as [[[H1 H2]%andb_true_iff H3]%andb_true_iff H4].
      exists (backslash :: "u"%char :: h1 :: h2 :: h3 :: h4 :: body).
      split; [reflexivity|]. now constructor.
    + destruct (unescape e) as [x|] eqn:Ex; [|discriminate].
      destruct (parse_chars s2) as [[d' r']|] eqn:Ep; [|discriminate].
      intros [= <- <-].
      destruct (IH s2 ltac:(simpl; lia) _ _ Ep) as (body & -> & Hb).
      exists (backslash :: e :: body). split; [reflexivity|].
      constructor; [|assumption]. rewrite Ex. eauto.
  - destruct (32 <=? nat_of_ascii c)%nat eqn:E32; [|discriminate].
    destruct (parse_chars s1) as [[d' r']|] eqn:Ep; [|discriminate].
    intros [= <- <-].
    destruct (IH s1 ltac:(simpl; lia) _ _ Ep) as (body & -> & Hb).
    exists (c :: body). split; [reflexivity|].
    constructor; [|assumption]. unfold is_plain. now rewrite E32, Eq, Eb.
Qed.

Lemma parse_chars_complete body r :
  Chars body -> exists d, parse_chars (body ++ quote :: r) = Some (d, r).
Proof.
  induction 1 as [|c s Hc _ [d IH]|c s Hc _ [d IH]
                  |h1 h2 h3 h4 s H1 H2 H3 H4 _ [d IH]].
  - exists []. cbn [app parse_chars]. now rewrite Ascii.eqb_refl.
  - destruct (plain_facts c Hc) as (Eq & Eb & E32).
    eexists. cbn [app parse_chars]. now rewrite Eq, Eb, E32, IH.
  - pose proof (unescape_facts c Hc) as Eu. destruct Hc as [x Ex].
    eexists. cbn [app parse_chars].
    change (Ascii.eqb backslash quote) with false.
    rewrite Ascii.eqb_refl. cbv iota. now rewrite Eu, Ex, IH.
  - eexists. cbn [app parse_chars].
    change (Ascii.eqb backslash quote) with false.
    rewrite !Ascii.eqb_refl. cbv iota. now rewrite H1, H2, H3, H4, IH.
Qed.

Ltac norm :=
  rewrite <- ?List.app_assoc; cbn [app];
  rewrite <- ?List.app_assoc; cbn [app];
  rewrite <- ?List.app_assoc; cbn [app].

Ltac norm_in H :=
  rewrite <- ?List.app_assoc in H; cbn [app] in H;
  rewrite <- ?List.app_assoc in H; cbn [app] in H;
  rewrite <- ?List.app_assoc in H; cbn [app] in H.

Ltac by_norm := solve [norm; reflexivity].

Ltac lengths H :=
  repeat first [rewrite List.length_app in H | progress (cbn [length] in H)].

Lemma number_start_value c :
  Ascii.eqb c "-" = true \/ is_digit c = true -> is_value_start c = true.
Proof. intros H. by_bits c; destruct H; congruence. Qed.

Lemma value_head v :
  Value v -> exists c rest, v = c :: rest /\ is_value_start c = true.
Proof.
  intros H. destruct H as [| | |s Hs|s Hs|w _|es _|w _|ms _];
    try (eexists _, _; split; reflexivity).
  - destruct (number_head s Hs) as (c & rest & -> & Hc).
    exists c, rest. split; [reflexivity|]. now apply number_start_value.
  - destruct Hs as [body _]. eexists _, _. split; reflexivity.
Qed.

Lemma skip_ws_value v x : Value v -> skip_ws (v ++ x) = v ++ x.
Proof.
  intros H. destruct (value_head v H) as (c & rest & -> & Hc).
  destruct (value_start_facts c Hc) as (Hw & _).
  cbn [app]. now apply skip_ws_head.
Qed.

Lemma skip_ws_all w : WS w -> skip_ws w = [].
Proof.
  intros H. rewrite <- (app_nil_r w). now rewrite skip_ws_ws.
Qed.

Lemma elements_head es x :
  Elements es ->
  exists c rest, skip_ws (es ++ x) = c :: rest /\ is_value_start c = true.
Proof.
  intros H.
  assert (exists w v y, es = w ++ v ++ y /\ WS w /\ Value v)
    as (w & v & y & -> & Hw & Hv).
  { destruct H as [w1 v w2 H1 Hv _|w1 v w2 es H1 Hv _ _];
      eexists _, _, _; repeat split; eassumption || reflexivity. }
  norm. rewrite skip_ws_ws, skip_ws_value by assumption.
  destruct (value_head v Hv) as (c & rest & -> & Hc).
  eexists _, _. split; [reflexivity|assumption].
Qed.

Lemma members_head ms x :
  Members ms -> exists rest, skip_ws (ms ++ x) = quote :: rest.
Proof.
  intros H.
  assert (exists w k y, ms = w ++ k ++ y /\ WS w /\ StringLit k)
    as (w & k & y & -> & Hw & Hk).
  { destruct H; eexists _, _, _; repeat split; eassumption || reflexivity. }
  destruct Hk as [body _]. norm. rewrite skip_ws_ws by assumption.
  rewrite skip_ws_head by reflexivity. eauto.
Qed.

Section ParserProofs.
Context {number : Type} (read_number : text -> number).

Lemma parse_value_S n c r :
  parse_value read_number (S n) (c :: r) =
  if Ascii.eqb c "[" then
    match skip_ws r with
    | d :: r1 =>
        if Ascii.eqb d "]" then Some (JArray [], r1)
        else
          match parse_elements read_number n r with
          | Some (vs, r2) => Some (JArray vs, r2)
          | None => None
          end
    | [] => None
    end
  else if Ascii.eqb c "{" then
    match skip_ws r with
    | d :: r1 =>
        if Ascii.eqb d "}" then Some (JObject [], r1)
        else
          match parse_members read_number n r with
          | Some (ms, r2) => Some (JObject (object_of_members ms), r2)
          | None => None
          end
    | [] => None
    end
  else if Ascii.eqb c quote then
    match parse_chars r with
    | Some (d, r1) => Some (JString (string_of_items d), r1)
    | None => None
    end
  else if Ascii.eqb c "n" then
    match strip_prefix null_text (c :: r) with
    | Some r1 => Some (JNull, r1)
    | None => None
    end
  else if Ascii.eqb c "t" then
    match strip_prefix true_text (c :: r) with
    | Some r1 => Some (JBool true, r1)
    | None => None
    end
  else if Ascii.eqb c "f" then
    match strip_prefix false_text (c :: r) with
    | Some r1 => Some (JBool false, r1)
    | None => None
    end
  else
    match parse_number (c :: r) with
    | Some (lex, r1) => Some (JNumber (read_number lex), r1)
    | None => None
    end.
Proof. reflexivity. Qed.

Lemma parse_elements_S n s :
  parse_elements read_number (S n) s =
  match parse_value read_number n (skip_ws s) with
  | Some (v, r) =>
      match skip_ws r with
      | d :: r1 =>
          if Ascii.eqb d "," then
            match parse_elements read_number n r1 with
            | Some (vs, r2) => Some (v :: vs, r2)
            | None => None
            end
          else if Ascii.eqb d "]" then Some ([v], r1)
          else None
      | [] => None
      end
  | None => None
  end.
Proof. reflexivity. Qed.

Lemma parse_members_S n s :
  parse_members read_number (S n) s =
  match skip_ws s with
  | q :: r =>
      if Ascii.eqb q quote then
        match parse_chars r with
        | Some (k, r1) =>
            match skip_ws r1 with
            | c :: r2 =>
                if Ascii.eqb c ":" then
                  match parse_value read_number n (skip_ws r2) with
                  | Some (v, r3) =>
                      match skip_ws r3 with
                      | d :: r4 =>
                          if Ascii.eqb d "," then
                            match parse_members read_number n r4 with
                            | Some (ms, r5) =>
                                Some ((string_of_items k, v) :: ms, r5)
                            | None => None
                            end
                          else if Ascii.eqb d "}" then
                            Some ([(string_of_items k, v)], r4)
                          else None
                      | [] => None
                      end
                  | None => None
                  end
                else None
            | [] => None
            end
        | None => None
        end
      else None
  | [] => None
  end.
Proof. reflexivity. Qed.

Lemma parse_sound fuel :
  (forall s v r, parse_value read_number fuel s = Some (v, r) ->
     exists lit, s = lit ++ r /\ Value lit)
  /\ (forall s vs r, parse_elements read_number fuel s = Some (vs, r) ->
     exists es, s = es ++ "]"%char :: r /\ Elements es)
  /\ (forall s ms r, parse_members read_number fuel s = Some (ms, r) ->
     exists t, s = t ++ "}"%char :: r /\ Members t).
Proof.
  induction fuel as [|n (IHv & IHe & IHm)]; [repeat split; discriminate|].
  repeat split.
  - intros s v r. destruct s as [|c r0]; [discriminate|].
    rewrite parse_value_S.
    destruct (Ascii.eqb c "[") eqn:E1.
    { apply Ascii.eqb_eq in E1 as ->.
      destruct (skip_ws_split r0) as (w & Er0 & Hw).
      destruct (skip_ws r0) as [|d r1]; [discriminate|].
      destruct (Ascii.eqb d "]") eqn:E2.
      - apply Ascii.eqb_eq in E2 as ->. intros [= <- <-]. subst r0.
        exists ("["%char :: w ++ ["]"%char]).
        split; [by_norm|now constructor].
      - destruct (parse_elements read_number n r0) as [[vs r2]|] eqn:Ep;
          [|discriminate].
        intros [= <- <-]. destruct (IHe _ _ _ Ep) as (es & -> & Hes).
        exists ("["%char :: es ++ ["]"%char]).
        split; [by_norm|now apply Value_array]. }
    destruct (Ascii.eqb c "{") eqn:E2.
    { apply Ascii.eqb_eq in E2 as ->.
      destruct (skip_ws_split r0) as (w & Er0 & Hw).
      destruct (skip_ws r0) as [|d r1]; [discriminate|].
      destruct (Ascii.eqb d "}") eqn:E3.
      - apply Ascii.eqb_eq in E3 as ->. intros [= <- <-]. subst r0.
        exists ("{"%char :: w ++ ["}"%char]).
        split; [by_norm|now constructor].
      - destruct (parse_members read_number n r0) as [[ms r2]|] eqn:Ep;
          [|discriminate].
        intros [= <- <-]. destruct (IHm _ _ _ Ep) as (t & -> & Ht).
        exists ("{"%char :: t ++ ["}"%char]).
        split; [by_norm|now apply Value_object]. }
    destruct (Ascii.eqb c quote) eqn:E3.
    { apply Ascii.eqb_eq in E3 as ->.
      destruct (parse_chars r0) as [[d r1]|] eqn:Ep; [|discriminate].
      intros [= <- <-].
      destruct (parse_chars_sound _ _ _ Ep) as (body & -> & Hb).
      exists (quote :: body ++ [quote]).
      split; [by_norm|]. apply Value_string. now constructor. }
    destruct (Ascii.eqb c "n").
    { destruct (strip_prefix null_text (c :: r0)) as [r1|] eqn:Ep;
        [|discriminate].
      intros [= <- <-]. apply strip_prefix_sound in Ep.
      exists null_text. split; [assumption|constructor]. }
    destruct (Ascii.eqb c "t").
    { destruct (strip_prefix true_text (c :: r0)) as [r1|] eqn:Ep;
        [|discriminate].
      intros [= <- <-]. apply strip_prefix_sound in Ep.
      exists true_text. split; [assumption|constructor]. }
    destruct (Ascii.eqb c "f").
    { destruct (strip_prefix false_text (c :: r0)) as [r1|] eqn:Ep;
        [|discriminate].
      intros [= <- <-]. apply strip_prefix_sound in Ep.
      exists false_text. split; [assumption|constructor]. }
    destruct (parse_number (c :: r0)) as [[lex r1]|] eqn:Ep; [|discriminate].
    intros [= <- <-]. apply parse_number_sound in Ep as [E Hn].
    exists lex. split; [assumption|now apply Value_number].
  - intros s vs r. rewrite parse_elements_S.
    destruct (skip_ws_split s) as (w1 & Es & Hw1).
    destruct (parse_value read_number n (skip_ws s)) as [[v r0]|] eqn:Ep;
      [|discriminate].
    destruct (IHv _ _ _ Ep) as (lit & El & Hl). rewrite El in Es.
    destruct (skip_ws_split r0) as (w2 & Er0 & Hw2).
    destruct (skip_ws r0) as [|d r1]; [discriminate|].
    destruct (Ascii.eqb d ",") eqn:E1.
    { apply Ascii.eqb_eq in E1 as ->.
      destruct (parse_elements read_number n r1) as [[vs' r2]|] eqn:Ep2;
        [|discriminate].
      intros [= <- <-]. destruct (IHe _ _ _ Ep2) as (es & -> & Hes).
      exists (w1 ++ lit ++ w2 ++ ","%char :: es).
      split; [subst s r0; by_norm|now constructor]. }
    destruct (Ascii.eqb d "]") eqn:E2; [|discriminate].
    apply Ascii.eqb_eq in E2 as ->. intros [= <- <-].
    exists (w1 ++ lit ++ w2). split; [subst s r0; by_norm|now constructor].
  - intros s ms r. rewrite parse_members_S.
    destruct (skip_ws_split s) as (w1 & Es & Hw1).
    destruct (skip_ws s) as [|q r0]; [discriminate|].
    destruct (Ascii.eqb q quote) eqn:Eq; [|discriminate].
    apply Ascii.eqb_eq in Eq as ->.
    destruct (parse_chars r0) as [[k r1]|] eqn:Ek; [|discriminate].
    destruct (parse_chars_sound _ _ _ Ek) as (body & -> & Hb).
    destruct (skip_ws_split r1) as (w2 & Er1 & Hw2).
    destruct (skip_ws r1) as [|c r2]; [discriminate|].
    destruct (Ascii.eqb c ":") eqn:Ec; [|discriminate].
    apply Ascii.eqb_eq in Ec as ->.
    destruct (skip_ws_split r2) as (w3 & Er2 & Hw3).
    destruct (parse_value read_number n (skip_ws r2)) as [[v r3]|] eqn:Ep;
      [|discriminate].
    destruct (IHv _ _ _ Ep) as (lit & El & Hl). rewrite El in Er2.
    destruct (skip_ws_split r3) as (w4 & Er3 & Hw4).
    destruct (skip_ws r3) as [|d r4]; [discriminate|].
    assert (StringLit (quote :: body ++ [quote])) as Hk by now constructor.
    destruct (Ascii.eqb d ",") eqn:E1.
    { apply Ascii.eqb_eq in E1 as ->.
      destruct (parse_members read_number n r4) as [[ms' r5]|] eqn:Ep2;
        [|discriminate].
      intros [= <- <-]. destruct (IHm _ _ _ Ep2) as (t & -> & Ht).
      exists (w1 ++ (quote :: body ++ [quote]) ++ w2 ++ ":"%char :: w3
              ++ lit ++ w4 ++ ","%char :: t).
      split; [subst s r1 r2 r3; by_norm|now constructor]. }
    destruct (Ascii.eqb d "}") eqn:E2; [|discriminate].
    apply Ascii.eqb_eq in E2 as ->. intros [= <- <-].
    exists (w1 ++ (quote :: body ++ [quote]) ++ w2 ++ ":"%char :: w3
            ++ lit ++ w4).
    split; [subst s r1 r2 r3; by_norm|now constructor].
Qed.

Lemma parse_complete :
  (forall lit, Value lit -> forall r fuel,
     follows r -> length lit < fuel ->
     exists v, parse_value read_number fuel (lit ++ r) = Some (v, r))
  /\ (forall es, Elements es -> forall r fuel,
     length es + 1 < fuel ->
     exists vs,
       parse_elements read_number fuel (es ++ "]"%char :: r) = Some (vs, r))
  /\ (forall t, Members t -> forall r fuel,
     length t + 1 < fuel ->
     exists ms,
       parse_members read_number fuel (t ++ "}"%char :: r) = Some (ms, r)).
Proof.
  apply grammar_min.
  - intros r [|n] _ Hlen; [simpl in Hlen; lia|].
    eexists. cbn [app null_text]. rewrite parse_value_S. reflexivity.
  - intros r [|n] _ Hlen; [simpl in Hlen; lia|].
    eexists. cbn [app true_text]. rewrite parse_value_S. reflexivity.
  - intros r [|n] _ Hlen; [simpl in Hlen; lia|].
    eexists. cbn [app false_text]. rewrite parse_value_S. reflexivity.
  - intros s Hs r [|n] Hr Hlen; [lia|].
    destruct (number_head s Hs) as (c & s' & E & Hc).
    destruct (number_start_facts c Hc) as (E1 & E2 & E3 & E4 & E5 & E6).
    replace (s ++ r) with (c :: s' ++ r) by (now rewrite E).
    rewrite parse_value_S.
    rewrite E1, E2, E3, E4, E5, E6.
    change (c :: s' ++ r) with ((c :: s') ++ r). rewrite <- E.
    rewrite (parse_number_complete s r Hs Hr). eauto.
  - intros s [body Hb] r [|n] Hr Hlen; [simpl in Hlen; lia|].
    destruct (parse_chars_complete body r Hb) as [d Hd].
    norm. rewrite parse_value_S.
    change (Ascii.eqb quote "[") with false.
    change (Ascii.eqb quote "{") with false.
    rewrite Ascii.eqb_refl. cbv iota. rewrite Hd. eauto.
  - intros w Hw r [|n] Hr Hlen; [simpl in Hlen; lia|].
    norm. rewrite parse_value_S.
    change (Ascii.eqb "[" "[") with true. cbv iota.
    rewrite skip_ws_ws by assumption. rewrite skip_ws_head by reflexivity.
    change (Ascii.eqb "]" "]") with true. cbv iota. eauto.
  - intros es Hes IH r [|n] Hr Hlen; [simpl in Hlen; lia|].
    destruct (IH r n) as [vs Hvs].
    { lengths Hlen. lia. }
    destruct (elements_head es ("]"%char :: r) Hes) as (c & rest & Eh & Hc).
    destruct (value_start_facts c Hc) as (_ & Eb & _).
    norm. rewrite parse_value_S.
    change (Ascii.eqb "[" "[") with true. cbv iota.
    rewrite Eh, Eb, Hvs. eauto.
  - intros w Hw r [|n] Hr Hlen; [simpl in Hlen; lia|].
    norm. rewrite parse_value_S.
    change (Ascii.eqb "{" "[") with false.
    change (Ascii.eqb "{" "{") with true. cbv iota.
    rewrite skip_ws_ws by assumption. rewrite skip_ws_head by reflexivity.
    change (Ascii.eqb "}" "}") with true. cbv iota. eauto.
  - intros ms Hms IH r [|n] Hr Hlen; [simpl in Hlen; lia|].
    destruct (IH r n) as [vs Hvs].
    { lengths Hlen. lia. }
    destruct (members_head ms ("}"%char :: r) Hms) as (rest & Eh).
    norm. rewrite parse_value_S.
    change (Ascii.eqb "{" "[") with false.
    change (Ascii.eqb "{" "{") with true. cbv iota.
    rewrite Eh. change (Ascii.eqb quote "}") with false. cbv iota.
    rewrite Hvs. eauto.
  - intros w1 v w2 Hw1 Hv IHv Hw2 r [|n] Hlen; [lia|].
    destruct (IHv (w2 ++ "]"%char :: r) n) as [x Hx].
    { now apply WS_app_follows. }
    { lengths Hlen. lia. }
    norm. rewrite parse_elements_S.
    rewrite skip_ws_ws, skip_ws_value by assumption. rewrite Hx.
    rewrite skip_ws_ws by assumption. rewrite skip_ws_head by reflexivity.
    change (Ascii.eqb "]" ",") with false.
    change (Ascii.eqb "]" "]") with true. cbv iota. eauto.
  - intros w1 v w2 es Hw1 Hv IHv Hw2 Hes IHes r [|n] Hlen; [lia|].
    destruct (IHv (w2 ++ ","%char :: es ++ "]"%char :: r) n) as [x Hx].
    { now apply WS_app_follows. }
    { lengths Hlen. lia. }
    destruct (IHes r n) as [xs Hxs].
    { lengths Hlen. lia. }
    norm. rewrite parse_elements_S.
    rewrite skip_ws_ws, skip_ws_value by assumption. rewrite Hx.
    rewrite skip_ws_ws by assumption. rewrite skip_ws_head by reflexivity.
    change (Ascii.eqb "," ",") with true. cbv iota. rewrite Hxs. eauto.
  - intros w1 k w2 w3 v w4 Hw1 [body Hb] Hw2 Hw3 Hv IHv Hw4 r [|n] Hlen;
      [lia|].
    destruct (IHv (w4 ++ "}"%char :: r) n) as [x Hx].
    { now apply WS_app_follows. }
    { lengths Hlen. lia. }
    destruct (parse_chars_complete body
                (w2 ++ ":"%char :: w3 ++ v ++ w4 ++ "}"%char :: r) Hb)
      as [d Hd].
    norm. rewrite parse_members_S.
    rewrite skip_ws_ws by assumption. rewrite skip_ws_head by reflexivity.
    rewrite Ascii.eqb_refl, Hd.
    rewrite skip_ws_ws by assumption. rewrite skip_ws_head by reflexivity.
    change (Ascii.eqb ":" ":") with true. cbv iota.
    rewrite skip_ws_ws, skip_ws_value by assumption. rewrite Hx.
    rewrite skip_ws_ws by assumption. rewrite skip_ws_head by reflexivity.
    change (Ascii.eqb "}" ",") with false.
    change (Ascii.eqb "}" "}") with true. cbv iota. eauto.
  - intros w1 k w2 w3 v w4 ms Hw1 [body Hb] Hw2 Hw3 Hv IHv Hw4 Hms IHms
      r [|n] Hlen; [lia|].
    destruct (IHv (w4 ++ ","%char :: ms ++ "}"%char :: r) n) as [x Hx].
    { now apply WS_app_follows. }
    { lengths Hlen. lia. }
    destruct (IHms r n) as [xs Hxs].
    { lengths Hlen. lia. }
    destruct (parse_chars_complete body
                (w2 ++ ":"%char :: w3 ++ v ++ w4 ++ ","%char :: ms
                 ++ "}"%char :: r) Hb)
      as [d Hd].
    norm. rewrite parse_members_S.
    rewrite skip_ws_ws by assumption. rewrite skip_ws_head by reflexivity.
    rewrite Ascii.eqb_refl, Hd.
    rewrite skip_ws_ws by assumption. rewrite skip_ws_head by reflexivity.
    change (Ascii.eqb ":" ":") with true. cbv iota.
    rewrite skip_ws_ws, skip_ws_value by assumption. rewrite Hx.
    rewrite skip_ws_ws by assumption. rewrite skip_ws_head by reflexivity.
    change (Ascii.eqb "," ",") with true. cbv iota. rewrite Hxs. eauto.
Qed.

Theorem parse_text_sound s v :
  parse_text read_number s = Some v -> JSONText s.
Proof.
  unfold parse_text. intros H.
  destruct (skip_ws_split s) as (w1 & Es & Hw1).
  destruct (parse_value read_number (S (length s)) (skip_ws s))
    as [[x r]|] eqn:Ep; [|discriminate].
  destruct (proj1 (parse_sound _) _ _ _ Ep) as (lit & El & Hl).
  destruct (skip_ws r) as [|] eqn:Er; [|discriminate].
  apply skip_ws_nil in Er. rewrite El in Es. rewrite Es. now constructor.
Qed.

Theorem parse_text_complete s :
  JSONText s -> exists v, parse_text read_number s = Some v.
Proof.
  intros [w1 v w2 Hw1 Hv Hw2]. unfold parse_text.
  rewrite skip_ws_ws, skip_ws_value by assumption.
  destruct (proj1 parse_complete v Hv w2 (S (length (w1 ++ v ++ w2))))
    as [x Hx].
  { now apply WS_follows. }
  { rewrite !List.length_app. lia. }
  rewrite Hx. rewrite skip_ws_all by assumption. eauto.
Qed.

End ParserProofs.

(** ** [JSON.stringify] writes well-formed texts *)

Lemma forallb_rev_digits (l : text) :
  forallb is_digit l = true -> forallb is_digit (rev l) = true.
Proof.
  rewrite !List.forallb_forall. intros H c Hc. apply H.
  now apply List.in_rev.
Qed.

Lemma strip_zeros_digits l :
  forallb is_digit l = true -> forallb is_digit (strip_zeros l) = true.
Proof.
  induction l as [|c l IH]; [reflexivity|]. intros H. cbn [strip_zeros].
  destruct (Ascii.eqb c "0"); [|assumption].
  cbn [forallb] in H. apply andb_true_iff in H as [_ H]. now apply IH.
Qed.

Lemma strip_zeros_head l c r :
  strip_zeros l = c :: r -> Ascii.eqb c "0" = false.
Proof.
  induction l as [|d l IH]; [discriminate|]. cbn [strip_zeros].
  destruct (Ascii.eqb d "0") eqn:E; [assumption|]. now intros [= <- _].
Qed.

Lemma significand_digits l ds z :
  forallb is_digit l = true -> significand l = (ds, z) ->
  forallb is_digit ds = true
  /\ match ds with
     | c :: _ => is_digit19 c = true
     | [] => True
     end.
Proof.
  unfold significand. intros H [= <- _].
  assert (forallb is_digit (strip_zeros (rev (strip_zeros (rev l)))) = true)
    as Hd.
  { apply strip_zeros_digits, forallb_rev_digits, strip_zeros_digits.
    now apply forallb_rev_digits. }
  split; [assumption|].
  destruct (strip_zeros (rev (strip_zeros (rev l)))) as [|c r] eqn:E;
    [exact I|].
  apply strip_zeros_head in E. cbn [forallb] in Hd.
  apply andb_true_iff in Hd as [Hc _].
  destruct (digit_cases c Hc) as [H0|H19]; [congruence|assumption].
Qed.

Lemma uint_digits u :
  forallb is_digit
    (String.list_ascii_of_string (NilEmpty.string_of_uint u)) = true.
Proof.
  induction u; cbn [NilEmpty.string_of_uint String.list_ascii_of_string forallb];
    first [reflexivity | rewrite IHu; reflexivity].
Qed.

Lemma N_digits_digits n : forallb is_digit (N_digits n) = true.
Proof. apply uint_digits. Qed.

Lemma N_digits_nonempty n : N_digits n <> [].
Proof.
  unfold N_digits. destruct n as [|p]; [discriminate|].
  cbn [N.to_uint]. pose proof (DecimalPos.Unsigned.to_uint_nonnil p) as H.
  destruct (Pos.to_uint p); [contradiction|discriminate..].
Qed.

Lemma zeros_digits m : forallb is_digit (repeat "0"%char m) = true.
Proof. induction m as [|m IH]; [reflexivity|]. cbn [repeat forallb]. now rewrite IH. Qed.

Lemma forallb_firstn (l : text) m :
  forallb is_digit l = true -> forallb is_digit (firstn m l) = true.
Proof.
  revert l. induction m as [|m IH]; intros [|c l] H; try reflexivity.
  cbn [firstn forallb] in *. apply andb_true_iff in H as [Hc Hl].
  now rewrite Hc, IH.
Qed.

Lemma forallb_skipn (l : text) m :
  forallb is_digit l = true -> forallb is_digit (skipn m l) = true.
Proof.
  revert l. induction m as [|m IH]; intros [|c l] H; try reflexivity;
    [assumption|].
  cbn [skipn forallb] in *. apply andb_true_iff in H as [Hc Hl]. now apply IH.
Qed.

Lemma Number_of sg i f e s :
  s = sg ++ i ++ f ++ e ->
  sg = [] \/ sg = ["-"%char] -> Int i -> Frac f -> Exp e -> Number s.
Proof. intros ->. apply Number_intro. Qed.

Lemma exponent_text_valid x : Exp (exponent_text x).
Proof.
  unfold exponent_text.
  assert (Digits (N_digits (Z.abs_N x))) as Hd.
  { split; [apply N_digits_nonempty|apply N_digits_digits]. }
  destruct (x <? 0)%Z.
  - apply (Exp_some "e" ["-"%char]); auto.
  - apply (Exp_some "e" ["+"%char]); auto.
Qed.

Lemma print_digits_valid sg c rest n :
  sg = [] \/ sg = ["-"%char] ->
  is_digit19 c = true -> forallb is_digit rest = true ->
  Number (sg ++ print_digits (c :: rest) n).
Proof.
  intros Hsg Hc Hrest. destruct (digit19_facts c Hc) as [Hcd _].
  assert (forallb is_digit (c :: rest) = true) as Hds
    by (cbn [forallb]; now rewrite Hcd).
  unfold print_digits.
  set (k := Z.of_nat (length (c :: rest))).
  destruct ((k <=? n) && (n <=? 21))%Z eqn:E1.
  { apply (Number_of sg (c :: rest ++ repeat "0"%char (Z.to_nat (n - k)))
             [] []); try assumption; try constructor; try assumption.
    - now rewrite !app_nil_r.
    - rewrite forallb_app, Hrest. apply zeros_digits. }
  destruct ((0 <? n) && (n <=? 21))%Z eqn:E2.
  { apply andb_true_iff in E2 as [Hn0 Hn21]. apply Z.ltb_lt in Hn0.
    assert (n < k)%Z as Hnk.
    { destruct (k <=? n)%Z eqn:Ek; [|now apply Z.leb_gt in Ek].
      cbn [andb] in E1. congruence. }
    destruct (Z.to_nat n) as [|m] eqn:Em; [lia|].
    assert (m < length rest)%nat as Hm.
    { subst k. cbn [length] in Hnk. lia. }
    cbn [firstn skipn].
    apply (Number_of sg (c :: firstn m rest) ("."%char :: skipn m rest) []);
      try assumption; try constructor.
    - now rewrite app_nil_r.
    - assumption.
    - now apply forallb_firstn.
    - split; [|now apply forallb_skipn].
      intros E. apply (f_equal (@length _)) in E.
      rewrite List.length_skipn in E. cbn [length] in E. lia. }
  destruct ((-6 <? n) && (n <=? 0))%Z eqn:E3.
  { apply (Number_of sg ["0"%char]
             ("."%char :: repeat "0"%char (Z.to_nat (- n)) ++ c :: rest) []);
      try assumption; try constructor.
    - now rewrite app_nil_r.
    - split; [now destruct (repeat "0"%char (Z.to_nat (- n)))|].
      rewrite forallb_app, zeros_digits. exact Hds. }
  destruct rest as [|d rest].
  - apply (Number_of sg [c] [] (exponent_text (n - 1)));
      try assumption; try constructor; try assumption; try reflexivity.
    apply exponent_text_valid.
  - apply (Number_of sg [c] ("."%char :: d :: rest) (exponent_text (n - 1)));
      try assumption; try constructor; try assumption; try reflexivity.
    + split; [discriminate|assumption].
    + apply exponent_text_valid.
Qed.

Lemma print_number_valid d : Number (print_number d).
Proof.
  unfold print_number.
  destruct (significand (N_digits (Z.abs_N (mantissa d)))) as [ds z] eqn:E.
  destruct (significand_digits _ _ _ (N_digits_digits _) E) as [Hd Hh].
  destruct ds as [|c rest].
  - apply (Number_of [] ["0"%char] [] []); auto; constructor.
  - cbn [forallb] in Hd. apply andb_true_iff in Hd as [_ Hrest].
    apply print_digits_valid; [|assumption..].
    destruct (mantissa d <? 0)%Z; auto.
Qed.

Lemma hex_char_hex n : (n < 16)%N -> is_hex (hex_char n) = true.
Proof.
  intros H.
  assert (In n (map N.of_nat (seq 0 16))) as Hin.
  { apply in_map_iff. exists (N.to_nat n). split; [lia|].
    apply in_seq. lia. }
  cbn in Hin. repeat (destruct Hin as [<-|Hin]; [reflexivity|]). contradiction.
Qed.

Lemma escape_valid c s : Chars s -> Chars (escape c ++ s).
Proof.
  intros Hs. unfold escape.
  destruct (Ascii.eqb c quote) eqn:E1;
    [apply Chars_escape; [now eexists|assumption]|].
  destruct (Ascii.eqb c backslash) eqn:E2;
    [apply Chars_escape; [now eexists|assumption]|].
  destruct (Ascii.eqb c "008");
    [apply Chars_escape; [now eexists|assumption]|].
  destruct (Ascii.eqb c "012");
    [apply Chars_escape; [now eexists|assumption]|].
  destruct (Ascii.eqb c "010");
    [apply Chars_escape; [now eexists|assumption]|].
  destruct (Ascii.eqb c "013");
    [apply Chars_escape; [now eexists|assumption]|].
  destruct (Ascii.eqb c "009");
    [apply Chars_escape; [now eexists|assumption]|].
  destruct (N_of_ascii c <? 32)%N eqn:E3.
  - apply N.ltb_lt in E3. apply Chars_unicode; try reflexivity;
      try assumption; apply hex_char_hex.
    + apply N.Div0.div_lt_upper_bound. lia.
    + apply N.mod_lt. lia.
  - apply Chars_plain; [|assumption]. unfold is_plain.
    rewrite E1, E2. cbn [negb andb]. rewrite !andb_true_r.
    apply N.ltb_ge in E3. apply Nat.leb_le. unfold nat_of_ascii. lia.
Qed.

Lemma quote_string_valid s : StringLit (quote_string s).
Proof.
  unfold quote_string. constructor.
  induction (String.list_ascii_of_string s) as [|c l IH]; [constructor|].
  cbn [flat_map]. now apply escape_valid.
Qed.

Lemma Elements_single v : Value v -> Elements v.
Proof.
  intros H. rewrite <- (app_nil_r v). now apply (Elements_one [] v []).
Qed.

Lemma Elements_cons v es :
  Value v -> Elements es -> Elements (v ++ ","%char :: es).
Proof. intros Hv Hes. now apply (Elements_more [] v [] es). Qed.

Lemma Members_single k v :
  StringLit k -> Value v -> Members (k ++ ":"%char :: v).
Proof.
  intros Hk Hv. rewrite <- (app_nil_r v).
  now apply (Members_one [] k [] [] v []).
Qed.

Lemma Members_cons k v ms :
  StringLit k -> Value v -> Members ms ->
  Members (k ++ ":"%char :: v ++ ","%char :: ms).
Proof. intros Hk Hv Hms. now apply (Members_more [] k [] [] v [] ms). Qed.

Section PrinterProofs.
Context {number : Type} (print_number : number -> text).
Hypothesis print_number_value : forall n, Value (print_number n).

Lemma print_elements items :
  Forall (fun v => Value (print_value print_number v)) items ->
  items <> [] ->
  Elements (join_text "," (map (print_value print_number) items)).
Proof.
  induction 1 as [|v [|w r] Hv Hr IH]; [congruence| |]; intros _.
  - now apply Elements_single.
  - cbn [map join_text] in *. apply Elements_cons; [assumption|].
    now apply IH.
Qed.

Lemma print_members members :
  Forall (fun kv => Value (print_value print_number (snd kv))) members ->
  members <> [] ->
  Members
    (join_text ","
       (map (fun kv => quote_string (fst kv) ++ ":"%char
                       :: print_value print_number (snd kv)) members)).
Proof.
  induction 1 as [|v [|w r] Hv Hr IH]; [congruence| |]; intros _.
  - apply Members_single; [apply quote_string_valid|assumption].
  - cbn [map join_text] in *. rewrite <- List.app_assoc. cbn [app].
    apply Members_cons; [apply quote_string_valid|assumption|].
    now apply IH.
Qed.

Theorem print_value_valid v : Value (print_value print_number v).
Proof.
  induction v as [|[]|n|s|items IH|members IH] using json_nested_ind;
    cbn [print_value].
  - constructor.
  - constructor.
  - constructor.
  - apply print_number_value.
  - apply Value_string, quote_string_valid.
  - destruct items as [|v r]; [now apply (Value_empty_array [])|].
    apply Value_array, print_elements; [assumption|discriminate].
  - destruct members as [|v r]; [now apply (Value_empty_object [])|].
    apply Value_object, print_members; [assumption|discriminate].
Qed.
End PrinterProofs.

Theorem stringify_well_formed (v : json decimal) :
  well_formed (JSON_stringify v).
Proof.
  unfold well_formed. cbn [JSON_stringify ecma_JSON].
  rewrite String.list_ascii_of_string_of_list_ascii.
  rewrite <- (app_nil_r (print_value _ _)).
  apply (JSONText_intro [] _ []); try reflexivity.
  apply print_value_valid. intros n. apply Value_number, print_number_valid.
Qed.

Theorem parse_fails_iff_malformed (t : string) :
  JSON_parse (number := decimal) t = None <-> ~ well_formed t.
Proof.
  unfold well_formed. cbn [JSON_parse ecma_JSON]. split.
  - intros E H. apply (parse_text_complete read_number) in H as [v Hv].
    congruence.
  - intros H.
    destruct (parse_text read_number (String.list_ascii_of_string t))
      as [v|] eqn:E; [|reflexivity].
    destruct H. exact (parse_text_sound _ _ _ E).
Qed.

(** ** Object.assign on a fresh object *)

Section Assign.
Context {number : Type}.
Implicit Types (P : prototype number) (fields : list (string * json number)).

Lemma assoc_None_not_In {V} k (l : list (string * V)) :
assoc k l = None <-> ~ In k (map fst l).
Proof.
induction l as [|[k' v] l IH]; simpl.
- tauto.
- destruct (String.eqb k' k) eqn:E.
  + apply String.eqb_eq in E. split; [discriminate|tauto].
  + apply String.eqb_neq in E. rewrite IH. tauto.
Qed.

(** One assignment under a name the chain leaves alone: the own field is
  overwritten or created, and the prototype stays. *)
Lemma Object_set_plain P fields k v :
assoc k P = None \/ assoc k P = Some Writable ->
Object_set (MkInstance P fields) k v = Return (MkInstance P (put k v fields)).
Proof.
intros HP. unfold Object_set, put. cbn [instance_proto own_fields].
destruct (assoc k fields); [reflexivity|].
now destruct HP as [-> | ->].
Qed.

(** With no accessor and no read-only property in the way, and no name
  twice, [Object.assign] appends the source to the own fields. *)
Lemma Object_assign_plain P fields source :
NoDup (map fst (fields ++ source)) ->
(forall k, In k (map fst source) ->
   assoc k P = None \/ assoc k P = Some Writable) ->
Object_assign (MkInstance P fields) source
= Return (MkInstance P (fields ++ source)).
Proof.
revert fields. induction source as [|[k v] source IH]; intros fields Hnd HP.
- simpl. now rewrite app_nil_r.
- cbn [Object_assign].
  assert (Hk : assoc k fields = None).
  { apply assoc_None_not_In. intros Hin.
    rewrite map_app in Hnd. apply NoDup_app in Hnd as (_ & Hdis & _).
    apply (Hdis k); [now apply list_elem_of_In|].
    apply list_elem_of_In. now left. }
  rewrite Object_set_plain by (apply HP; now left).
  unfold put. rewrite Hk. rewrite IH.
  + now rewrite <- app_assoc.
  + now rewrite <- app_assoc.
  + intros k' Hin. apply HP. now right.
Qed.
End Assign.

(** While no setter runs, the prototype stays and the only error an
    assignment can end in is the TypeError of a read-only name. *)
Lemma Object_assign_no_setter {number} (P : prototype number) source :
  forall fields,
  Forall (fun kv => forall set, assoc (fst kv) P <> Some (Setter set))
    source ->
  (exists fields',
     Object_assign (MkInstance P fields) source
     = Return (MkInstance P fields'))
  \/ Object_assign (MkInstance P fields) source = Throw TypeError.
Proof.
  induction source as [|[k v] source IH]; intros fields Hno.
  - left. eauto.
  - apply List.Forall_cons_iff in Hno as [Hk Hno]. cbn [fst] in Hk.
    cbn [Object_assign]. unfold Object_set.
    cbn [instance_proto own_fields].
    destruct (assoc k fields); [now apply IH|].
    destruct (assoc k P) as [[| |set]|] eqn:E.
    + now apply IH.
    + now right.
    + now contradiction (Hk set).
    + now apply IH.
Qed.

(** * The claims *)

(** C1. A selector built from an empty builder (the facade, for one) by a
    chain of append calls that all succeed stringifies to its fragments
    taken in canonical rank order, Element < Id < Class < Attribute <
    PseudoClass < PseudoElement, fragments of one rank in the order of the
    calls, each rendered by its kind ([fragment_text]) and concatenated
    with no separator.  The arrangement [out] is the only one with these
    three properties ([stable_sorted_unique]). *)
Theorem C1_stringify_canonical_order
    (h : heap) (b : loc) (calls : list (method * string))
    (h' : heap) (b' : loc) :
  wf_heap h = true -> is_object h b = true ->
  get combined h b = Some None -> fragments h b = [] ->
  chain b calls h = (h', Return b') ->
  (exists out,
      Permutation calls out /\
      Sorted (fun c d => (rank (fst c) <= rank (fst d))%Z) out /\
      (forall r,
          List.filter (fun c => (rank (fst c) =? r)%Z) out
          = List.filter (fun c => (rank (fst c) =? r)%Z) calls) /\
      stringify h' b'
      = Some (String.concat ""
                (map (fun c => fragment_text (fst c) (snd c)) out))) /\
  (rank Element < rank Id < rank Class)%Z /\
  (rank Class < rank Attr < rank PseudoClass)%Z /\
  (rank PseudoClass < rank PseudoElement)%Z.
Proof.
  intros Hwf Hb Hc Hf Hrun.
  destruct (chain_run _ _ _ _ _ Hwf Hb Hrun) as (W & O & C & F).
  split; [|repeat split; reflexivity].
  exists (Array_sort (by_key call_rank) calls). repeat split.
  - apply Array_sort_perm.
  - apply (Array_sort_sorted call_rank).
  - intros r. apply (Array_sort_filter call_rank).
  - rewrite stringify_simple by (try assumption; now rewrite C).
    rewrite F, Hf. simpl app.
    rewrite (Array_sort_map call_part (by_key call_rank) compare_parts)
      by apply compare_call_parts.
    rewrite map_map. unfold join. do 2 f_equal.
    apply map_ext. intros c. apply render_call_part.
Qed.

Lemma C1_witness :
  exists out,
    Permutation [(Id, "main"); (Class, "container"); (Class, "editable")] out
    /\ stringify
         [CObject root_object;
          CObject (Object (Some 0) (Some 2) None);
          CArray [Part "id" "main"];
          CObject (Object (Some 1) (Some 4) None);
          CArray [Part "id" "main"; Part "class" "container"];
          CObject (Object (Some 3) (Some 6) None);
          CArray [Part "id" "main"; Part "class" "container";
                  Part "class" "editable"]] 5
       = Some (String.concat ""
                 (map (fun c => fragment_text (fst c) (snd c)) out)).
Proof.
  destruct (C1_stringify_canonical_order initial_heap builder
              [(Id, "main"); (Class, "container"); (Class, "editable")]
              _ 5 eq_refl eq_refl eq_refl eq_refl eq_refl)
    as [(out & P & _ & _ & S) _].
  exists out. split; [exact P|exact S].
Defined.

(** C2 fails where the builder already holds a fragment of the appended
    unique kind: [element('div').class('c').element('p')] appends rank 0
    behind a Class fragment of rank 2, and the duplicate check, which
    runs first, is the one that throws. *)
Lemma C2_counterexample :
  exists h b,
    chain builder [(Element, "div"); (Class, "c")] initial_heap
    = (h, Return b) /\
    wf_heap h = true /\ is_object h b = true /\
    ~ lower_rank_raises_order_error h b Element "p".
Proof.
  eexists _, _. split; [reflexivity|]. split; [reflexivity|].
  split; [reflexivity|].
  intros H. unfold lower_rank_raises_order_error in H.
  assert (E : Exists (fun p => (rank Element < part_rank p)%Z)
                [Part "element" "div"; Part "class" "c"]).
  { right. left. reflexivity. }
  specialize (H E). vm_compute in H. discriminate H.
Qed.

(** C2, amended.  An append whose fragment is outranked by a fragment
    already present throws the order error, unless the method is one of
    the unique kinds and a fragment of that kind is already present (the
    duplicate check comes first); an append whose fragment is outranked by
    none never throws the order error. *)
Theorem C2_order_violation_unless_duplicate
    (h : heap) (b : loc) (m : method) (v : string) :
  wf_heap h = true -> is_object h b = true ->
  (Exists (fun p => (rank m < part_rank p)%Z) (fragments h b) ->
   ~ (method_unique m = true /\
      Exists (fun p => type p = method_type m) (fragments h b)) ->
   snd (call m b v h) = Throw OrderViolationError) /\
  (Forall (fun p => (part_rank p <= rank m)%Z) (fragments h b) ->
   snd (call m b v h) <> Throw OrderViolationError).
Proof.
  intros Hwf Hb. rewrite call_run by assumption. cbv zeta.
  set (ps := fragments h b). split.
  - intros Hlow Hnodup.
    destruct (method_unique m && _) eqn:Ed.
    + exfalso. apply Hnodup. apply andb_true_iff in Ed as [Hu Hs].
      split; [assumption|]. now apply parts_some_Exists.
    + apply validateOrder_loop_Exists in Hlow. now rewrite Hlow.
  - intros Hall.
    destruct (method_unique m && _); simpl.
    + intros E. apply errors_distinct. congruence.
    + destruct (validateOrder_loop (rank m) ps) eqn:Ev; [|discriminate].
      exfalso. apply validateOrder_loop_Exists in Ev.
      apply List.Exists_exists in Ev as (p & Hin & Hp).
      rewrite List.Forall_forall in Hall. specialize (Hall p Hin). lia.
Qed.

Lemma C2_witness :
  snd (call Id 3 "x"
         [CObject root_object;
          CObject (Object (Some 0) (Some 2) None);
          CArray [Part "element" "div"];
          CObject (Object (Some 1) (Some 4) None);
          CArray [Part "element" "div"; Part "class" "c"]])
  = Throw OrderViolationError /\
  snd (call Class 1 "c"
         [CObject root_object;
          CObject (Object (Some 0) (Some 2) None);
          CArray [Part "id" "main"]])
  <> Throw OrderViolationError.
Proof.
  split.
  - apply C2_order_violation_unless_duplicate;
      [reflexivity|reflexivity| |].
    + right. left. reflexivity.
    + intros [_ E]. inversion E as [? ? E1|? ? E1]; subst;
        [discriminate E1|].
      inversion E1 as [? ? E2|? ? E2]; subst; [discriminate E2|].
      inversion E2.
  - apply C2_order_violation_unless_duplicate;
      [reflexivity|reflexivity|].
    repeat constructor. vm_compute. discriminate.
Defined.

(** C3. On a builder that already holds an Element (Id, PseudoElement)
    fragment, [element] ([id], [pseudoElement]) throws the duplicate error;
    [class], [attr] and [pseudoClass] never throw it, and succeed on any
    builder none of whose fragments outranks theirs, fragments of their own
    kind included. *)
Theorem C3_duplicate_unique_kinds
    (h : heap) (b : loc) (m : method) (v : string) :
  wf_heap h = true -> is_object h b = true ->
  (m = Element \/ m = Id \/ m = PseudoElement ->
   Exists (fun p => type p = method_type m) (fragments h b) ->
   snd (call m b v h) = Throw DuplicateSelectorPartError) /\
  (m = Class \/ m = Attr \/ m = PseudoClass ->
   snd (call m b v h) <> Throw DuplicateSelectorPartError /\
   (Forall (fun p => (part_rank p <= rank m)%Z) (fragments h b) ->
    exists h',
      call m b v h = (h', Return (length h)) /\
      fragments h' (length h)
      = fragments h b ++ [Part (method_type m) v])).
Proof.
  intros Hwf Hb. rewrite call_run by assumption. cbv zeta.
  set (ps := fragments h b). split.
  - intros Hm Hdup. apply parts_some_Exists in Hdup. rewrite Hdup.
    now destruct Hm as [->|[->| ->]].
  - intros Hm.
    assert (Hu : method_unique m = false)
      by now destruct Hm as [->|[->| ->]].
    rewrite Hu. simpl. split.
    + destruct (validateOrder_loop _ _); simpl; [|discriminate].
      intros E. apply errors_distinct. congruence.
    + intros Hall.
      destruct (validateOrder_loop (rank m) ps) eqn:Ev.
      * exfalso. apply validateOrder_loop_Exists in Ev.
        apply List.Exists_exists in Ev as (p & Hin & Hp).
        rewrite List.Forall_forall in Hall. specialize (Hall p Hin). lia.
      * eexists. split; [reflexivity|]. apply derived_fragments.
Qed.

Lemma C3_witness :
  snd (call Id 3 "x"
         [CObject root_object;
          CObject (Object (Some 0) (Some 2) None);
          CArray [Part "element" "div"];
          CObject (Object (Some 1) (Some 4) None);
          CArray [Part "element" "div"; Part "id" "main"]])
  = Throw DuplicateSelectorPartError /\
  snd (call Class 1 "d"
         [CObject root_object;
          CObject (Object (Some 0) (Some 2) None);
          CArray [Part "class" "c"]])
  <> Throw DuplicateSelectorPartError.
Proof.
  split.
  - apply C3_duplicate_unique_kinds;
      [reflexivity|reflexivity|right; left; reflexivity|].
    right. left. reflexivity.
  - apply C3_duplicate_unique_kinds;
      [reflexivity|reflexivity|left; reflexivity].
Defined.

(** C4. For selectors [A] and [B] of the store and any combinator [c],
    [combine(A, c, B)] returns a selector that stringifies to
    [stringify(A) + " " + c + " " + stringify(B)], while [A] and [B]
    stringify as before; with ['+'] the text between the two is [" + "],
    and with the descendant combinator [' '] the spaces are kept as they
    come, one on each side of the combinator's own. *)
Theorem C4_combine_stringify
    (h : heap) (this A : loc) (c : string) (B : loc) :
  wf_heap h = true -> is_object h A = true -> is_object h B = true ->
  exists sa sb h' o,
    stringify h A = Some sa /\ stringify h B = Some sb /\
    combine this A c B h = (h', Return o) /\
    stringify h' A = Some sa /\ stringify h' B = Some sb /\
    stringify h' o = Some (sa +:+ " " +:+ c +:+ " " +:+ sb) /\
    (c = "+" -> stringify h' o = Some (sa +:+ " + " +:+ sb)) /\
    (c = " " -> stringify h' o = Some (sa +:+ "   " +:+ sb)).
Proof.
  intros Hwf HA HB.
  destruct (stringify_total h A Hwf HA) as [sa Ea].
  destruct (stringify_total h B Hwf HB) as [sb Eb].
  exists sa, sb. eexists _, _.
  split; [exact Ea|]. split; [exact Eb|].
  split; [apply combine_run|].
  assert (Ho := stringify_combined_cell h this (Combination A c B)
                  sa sb Ea Eb).
  simpl in Ho.
  split; [now rewrite stringify_app|].
  split; [now rewrite stringify_app|].
  split; [exact Ho|].
  split; intros ->; exact Ho.
Qed.

Lemma C4_witness :
  exists h' o,
    combine 0 1 "+" 3
      [CObject root_object;
       CObject (Object (Some 0) (Some 2) None);
       CArray [Part "element" "div"];
       CObject (Object (Some 0) (Some 4) None);
       CArray [Part "id" "main"]]
    = (h', Return o) /\
    stringify h' o = Some "div + #main".
Proof.
  destruct (C4_combine_stringify
              [CObject root_object;
               CObject (Object (Some 0) (Some 2) None);
               CArray [Part "element" "div"];
               CObject (Object (Some 0) (Some 4) None);
               CArray [Part "id" "main"]]
              0 1 "+" 3 eq_refl eq_refl eq_refl)
    as (sa & sb & h' & o & Ea & Eb & Ec & _ & _ & Eo & _).
  exists h', o. split; [exact Ec|].
  injection Ea as <-. injection Eb as <-. exact Eo.
Defined.

(** C5. A successful append returns a builder that did not exist before
    and that shows the receiver's fragments followed by the new one; every
    cell of the old store, and with it the fragment sequence and the
    stringified form of the receiver and of every other existing builder,
    is what it was before the call. *)
Theorem C5_append_returns_new_builder
    (h : heap) (b1 : loc) (m : method) (v : string) (h' : heap) (b2 : loc) :
  wf_heap h = true -> is_object h b1 = true ->
  call m b1 v h = (h', Return b2) ->
  is_object h b2 = false /\ is_object h' b2 = true /\
  fragments h' b2 = fragments h b1 ++ [Part (method_type m) v] /\
  (forall l, l < length h -> h' !! l = h !! l) /\
  (forall b, is_object h b = true ->
     fragments h' b = fragments h b /\ stringify h' b = stringify h b) /\
  fragments h' b1 = fragments h b1 /\ stringify h' b1 = stringify h b1.
Proof.
  intros Hwf Hb1 Hcall.
  rewrite call_run in Hcall by assumption. cbv zeta in Hcall.
  destruct (_ && _); [discriminate|].
  destruct (validateOrder_loop _ _); [discriminate|].
  injection Hcall as <- <-.
  split.
  { destruct (is_object h (length h)) eqn:E; [|reflexivity].
    apply is_object_lt in E. lia. }
  split; [apply derived_is_object|].
  split; [apply derived_fragments|].
  split; [intros l Hl; now apply derived_old|].
  split; [intros b Hb; now apply derived_frame|].
  now apply derived_frame.
Qed.

Lemma C5_witness :
  exists h',
    call Id 1 "x"
      [CObject root_object;
       CObject (Object (Some 0) (Some 2) None);
       CArray [Part "element" "div"]]
    = (h', Return 3) /\
    stringify h' 1 = Some "div" /\ stringify h' 3 = Some "div#x".
Proof.
  eexists. split; [reflexivity|].
  split; [|reflexivity].
  destruct (C5_append_returns_new_builder
              [CObject root_object;
               CObject (Object (Some 0) (Some 2) None);
               CArray [Part "element" "div"]]
              1 Id "x" _ 3 eq_refl eq_refl eq_refl)
    as (_ & _ & _ & _ & _ & _ & E).
  rewrite E. reflexivity.
Defined.

(** C6. An append that throws throws one of the two errors and changes
    no cell of the old store: the receiver and every other builder that
    existed before the call show the fragments and the stringified form
    they showed before it. *)
Theorem C6_failing_append_is_atomic
    (h : heap) (b : loc) (m : method) (v : string) (h' : heap) (e : string) :
  wf_heap h = true -> is_object h b = true ->
  call m b v h = (h', Throw e) ->
  (e = DuplicateSelectorPartError \/ e = OrderViolationError) /\
  (forall l, l < length h -> h' !! l = h !! l) /\
  (forall b0, is_object h b0 = true ->
     fragments h' b0 = fragments h b0 /\ stringify h' b0 = stringify h b0) /\
  fragments h' b = fragments h b /\ stringify h' b = stringify h b.
Proof.
  intros Hwf Hb Hcall.
  destruct (call_derived _ _ _ _ _ _ Hwf Hb Hcall) as [ps ->].
  split.
  { rewrite call_run in Hcall by assumption. cbv zeta in Hcall.
    destruct (_ && _); [injection Hcall as _ <-; now left|].
    destruct (validateOrder_loop _ _); [|discriminate].
    injection Hcall as _ <-. now right. }
  split; [intros l Hl; now apply derived_old|].
  split; [intros b0 Hb0; now apply derived_frame|].
  now apply derived_frame.
Qed.

Lemma C6_witness :
  exists h',
    call Id 3 "x"
      [CObject root_object;
       CObject (Object (Some 0) (Some 2) None);
       CArray [Part "element" "div"];
       CObject (Object (Some 1) (Some 4) None);
       CArray [Part "element" "div"; Part "id" "main"]]
    = (h', Throw DuplicateSelectorPartError) /\
    stringify h' 3 = Some "div#main" /\
    fragments h' 3 = [Part "element" "div"; Part "id" "main"].
Proof.
  eexists. split; [reflexivity|].
  destruct (C6_failing_append_is_atomic
              [CObject root_object;
               CObject (Object (Some 0) (Some 2) None);
               CArray [Part "element" "div"];
               CObject (Object (Some 1) (Some 4) None);
               CArray [Part "element" "div"; Part "id" "main"]]
              3 Id "x" _ _ eq_refl eq_refl eq_refl)
    as (_ & _ & _ & F & S).
  split; [rewrite S|rewrite F]; reflexivity.
Defined.

(** C7. A selector without [combined] whose [parts] is undefined, as on
    the untouched facade, or is an empty array, stringifies to the empty
    string. *)
Theorem C7_stringify_empty (h : heap) (b : loc) :
  get combined h b = Some None ->
  get parts h b = Some None \/
    (exists a, get parts h b = Some (Some a) /\ h !! a = Some (CArray [])) ->
  stringify h b = Some "".
Proof.
  intros Hc Hp. unfold stringify.
  destruct (length h) as [|n] eqn:El.
  - unfold get in Hc. rewrite El in Hc. discriminate Hc.
  - rewrite stringify_fuel_S, Hc.
    destruct Hp as [->|(a & -> & ->)]; reflexivity.
Qed.

Lemma C7_witness : stringify initial_heap builder = Some "".
Proof.
  apply C7_stringify_empty; [reflexivity|left; reflexivity].
Defined.

(** C8 fails on a prototype with a setter: [Object.assign] assigns, so
    the setter of [radius] runs and the object gets [_radius] instead. *)
Lemma C8_counterexample :
  fromJSON circle_proto (getJSON (JObject [("radius", JNumber 10)]))
  = Return (MkInstance circle_proto [("_radius", JNumber 10)]) /\
  ~ round_trip_as_stated circle_proto [("radius", JNumber 10)].
Proof.
  split; [vm_compute; reflexivity|].
  intros H. unfold round_trip_as_stated in H.
  assert (Hnd : NoDup (map fst [("radius", JNumber 10)])).
  { simpl. apply NoDup_singleton. }
  specialize (H Hnd ltac:(vm_compute; reflexivity)).
  vm_compute in H. discriminate H.
Qed.

(** C8, amended.  For an object [v] with distinct field names that the
    runtime's JSON round-trips, and a prototype [P] whose chain has neither
    an accessor nor a read-only property under the name of a field of [v],
    [fromJSON(P, getJSON(v))] is an object with prototype [P] and exactly
    the fields of [v]. *)
Theorem C8_round_trip_plain_prototype {number} `{JSON number}
    (P : prototype number) (fields : list (string * json number)) :
  NoDup (map fst fields) ->
  JSON_parse (getJSON (JObject fields)) = Some (JObject fields) ->
  (forall k, In k (map fst fields) ->
     assoc k P = None \/ assoc k P = Some Writable) ->
  fromJSON P (getJSON (JObject fields)) = Return (MkInstance P fields).
Proof.
  intros Hnd Hrt HP. unfold fromJSON. cbv zeta. rewrite Hrt.
  cbn [own_enumerable]. now rewrite Object_assign_plain.
Qed.

Lemma C8_witness :
  fromJSON [("getArea", Writable)]
    (getJSON (JObject [("width", JNumber 10); ("height", JNumber 20)]))
  = Return (MkInstance [("getArea", Writable)]
              [("width", JNumber 10); ("height", JNumber 20)]).
Proof.
  apply (C8_round_trip_plain_prototype (H := ecma_JSON)).
  - repeat constructor; vm_compute; intros H;
      repeat (apply elem_of_cons in H as [H|H]; [discriminate H|]);
      now apply elem_of_nil in H.
  - vm_compute. reflexivity.
  - intros k [<-|[<-|[]]]; left; reflexivity.
Defined.




(** C10. When [element], [id] or [pseudoElement] is called on a builder
    that holds both a fragment of the same kind and a fragment of higher
    rank, the duplicate error is the one thrown. *)
Theorem C10_duplicate_check_first
    (h : heap) (b : loc) (m : method) (v : string) :
  wf_heap h = true -> is_object h b = true ->
  m = Element \/ m = Id \/ m = PseudoElement ->
  Exists (fun p => type p = method_type m) (fragments h b) ->
  Exists (fun p => (rank m < part_rank p)%Z) (fragments h b) ->
  snd (call m b v h) = Throw DuplicateSelectorPartError.
Proof.
  intros Hwf Hb Hm Hdup _.
  rewrite call_run by assumption. cbv zeta.
  apply parts_some_Exists in Hdup. rewrite Hdup.
  now destruct Hm as [->|[->| ->]].
Qed.

Lemma C10_witness :
  snd (call Element 3 "p"
         [CObject root_object;
          CObject (Object (Some 0) (Some 2) None);
          CArray [Part "element" "div"];
          CObject (Object (Some 1) (Some 4) None);
          CArray [Part "element" "div"; Part "class" "c"]])
  = Throw DuplicateSelectorPartError.
Proof.
  apply C10_duplicate_check_first;
    [reflexivity|reflexivity|left; reflexivity| |].
  - left. reflexivity.
  - right. left. reflexivity.
Defined.

(** * Further properties of the builder *)

(** ** Ranks *)

Lemma part_rank_bounds p : (-1 <= part_rank p <= 5)%Z.
Proof.
  unfold part_rank. cbv [indexOf order indexOf_from].
  repeat destruct (String.eqb _ (type p)); lia.
Qed.

Lemma validateOrder_loop_false n ps :
  Forall (fun p => (part_rank p <= n)%Z) ps -> validateOrder_loop n ps = false.
Proof.
  intros Hall. destruct (validateOrder_loop n ps) eqn:E; [|reflexivity].
  apply validateOrder_loop_Exists in E.
  apply List.Exists_exists in E as (p & Hin & Hp).
  rewrite List.Forall_forall in Hall. specialize (Hall p Hin). lia.
Qed.

(** Rank 0 is the rank of the type ["element"] alone. *)
Lemma part_rank_0 p : part_rank p = 0%Z <-> type p = "element".
Proof.
  unfold part_rank. cbv [indexOf order indexOf_from]. split.
  - destruct (String.eqb "element" (type p)) eqn:E.
    + intros _. symmetry. now apply String.eqb_eq.
    + repeat destruct (String.eqb _ (type p)); lia.
  - intros ->. reflexivity.
Qed.

(** Rank 5 is the rank of the type ["pseudoElement"] alone. *)
Lemma part_rank_5 p : type p = "pseudoElement" -> part_rank p = 5%Z.
Proof. unfold part_rank. intros ->. reflexivity. Qed.

(** X1. With [obj.parts] an array [ps], [validateOrder(obj, newType)]
    leaves the store as it is; it throws the order error when some part
    has an index in [order] above that of [newType], and returns [obj]
    when none has. *)
Theorem X1_validateOrder_outcome
    (h : heap) (obj a : loc) (ps : list part) (newType : string) :
  get parts h obj = Some (Some a) -> h !! a = Some (CArray ps) ->
  (Exists (fun p => (indexOf order newType < part_rank p)%Z) ps ->
   validateOrder obj newType h = (h, Throw OrderViolationError)) /\
  (Forall (fun p => (part_rank p <= indexOf order newType)%Z) ps ->
   validateOrder obj newType h = (h, Return obj)).
Proof.
  intros Hp Ha. unfold validateOrder, bind, get_prop, Array_read.
  rewrite Hp, Ha. split.
  - intros Hex. apply validateOrder_loop_Exists in Hex. now rewrite Hex.
  - intros Hall. now rewrite validateOrder_loop_false.
Qed.

Lemma X1_witness :
  validateOrder 1 "id"
    [CObject root_object;
     CObject (Object (Some 0) (Some 2) None);
     CArray [Part "class" "c"]]
  = ([CObject root_object;
      CObject (Object (Some 0) (Some 2) None);
      CArray [Part "class" "c"]], Throw OrderViolationError).
Proof.
  apply (X1_validateOrder_outcome _ 1 2 [Part "class" "c"] "id");
    [reflexivity|reflexivity|].
  left. reflexivity.
Defined.

(** X2. [pseudoElement] succeeds on every builder that holds no
    pseudo-element fragment, whatever else it holds: no type has an index
    above that of ["pseudoElement"], so its order check cannot fail. *)
Theorem X2_pseudoElement_order_check_vacuous
    (h : heap) (b : loc) (v : string) :
  wf_heap h = true -> is_object h b = true ->
  ~ Exists (fun p => type p = "pseudoElement") (fragments h b) ->
  exists h',
    pseudoElement b v h = (h', Return (length h)) /\
    fragments h' (length h)
    = fragments h b ++ [Part "pseudoElement" v].
Proof.
  intros Hwf Hb Hno.
  change (pseudoElement b v h) with (call PseudoElement b v h).
  rewrite call_run by assumption. cbv zeta.
  destruct (existsb _ (fragments h b)) eqn:Ed.
  - exfalso. apply Hno. now apply parts_some_Exists.
  - rewrite andb_false_r.
    rewrite validateOrder_loop_false.
    + eexists. split; [reflexivity|]. apply derived_fragments.
    + apply List.Forall_forall. intros p _.
      pose proof (part_rank_bounds p). change (rank PseudoElement) with 5%Z.
      lia.
Qed.

Lemma X2_witness :
  exists h',
    pseudoElement 1 "after"
      [CObject root_object;
       CObject (Object (Some 0) (Some 2) None);
       CArray [Part "pseudoClass" "hover"]]
    = (h', Return 3).
Proof.
  destruct (X2_pseudoElement_order_check_vacuous
              [CObject root_object;
               CObject (Object (Some 0) (Some 2) None);
               CArray [Part "pseudoClass" "hover"]] 1 "after"
              eq_refl eq_refl) as (h' & E & _).
  - intros E. inversion E as [? ? E1|? ? E1]; subst;
      [discriminate E1|inversion E1].
  - exists h'. exact E.
Defined.

(** X3. On a builder whose fragments all have one of the six types,
    [element] succeeds exactly when the builder has no fragment yet. *)
Theorem X3_element_only_first (h : heap) (b : loc) (v : string) :
  wf_heap h = true -> is_object h b = true ->
  Forall (fun p => (0 <= part_rank p)%Z) (fragments h b) ->
  (exists h', element b v h = (h', Return (length h)))
  <-> fragments h b = [].
Proof.
  intros Hwf Hb Hknown.
  change (element b v h) with (call Element b v h).
  rewrite call_run by assumption. cbv zeta.
  destruct (fragments h b) as [|p ps] eqn:Ef.
  - split; [reflexivity|]. intros _. simpl. eauto.
  - split; [|discriminate]. intros [h' H]. exfalso.
    destruct (method_unique Element && _) eqn:Ed; [discriminate H|].
    destruct (validateOrder_loop _ _) eqn:Ev; [discriminate H|].
    simpl in Ed, Ev. fold (part_rank p) in Ev.
    apply orb_false_iff in Ed as [Ed _].
    apply String.eqb_neq in Ed.
    inversion Hknown as [|? ? Hp _]; subst.
    change (rank Element) with 0%Z in Ev.
    destruct (0 <? part_rank p)%Z eqn:El; [discriminate Ev|].
    apply Z.ltb_ge in El.
    apply Ed. apply part_rank_0. lia.
Qed.

Lemma X3_witness :
  exists h', element builder "div" initial_heap = (h', Return 1).
Proof.
  apply (X3_element_only_first initial_heap builder "div");
    [reflexivity|reflexivity|constructor|reflexivity].
Defined.

(** X4. Once a builder holds a pseudo-element fragment, every append
    method throws on it. *)
Theorem X4_pseudoElement_is_last
    (h : heap) (b : loc) (m : method) (v : string) :
  wf_heap h = true -> is_object h b = true ->
  Exists (fun p => type p = "pseudoElement") (fragments h b) ->
  snd (call m b v h) = Throw DuplicateSelectorPartError \/
  snd (call m b v h) = Throw OrderViolationError.
Proof.
  intros Hwf Hb Hex. rewrite call_run by assumption. cbv zeta.
  destruct (method_unique m && _) eqn:Ed; [now left|]. right.
  assert (Hv : validateOrder_loop (rank m) (fragments h b) = true).
  { apply validateOrder_loop_Exists.
    apply List.Exists_exists in Hex as (p & Hin & Hp).
    apply List.Exists_exists. exists p. split; [assumption|].
    rewrite (part_rank_5 p Hp).
    destruct m; try reflexivity.
    exfalso. simpl in Ed.
    assert (Hs : existsb (fun q => String.eqb (type q) "pseudoElement")
                   (fragments h b) = true).
    { apply parts_some_Exists. apply List.Exists_exists. eauto. }
    rewrite Hs in Ed. discriminate Ed. }
  now rewrite Hv.
Qed.

Lemma X4_witness :
  snd (call Class 1 "c"
         [CObject root_object;
          CObject (Object (Some 0) (Some 2) None);
          CArray [Part "pseudoElement" "after"]])
  = Throw DuplicateSelectorPartError \/
  snd (call Class 1 "c"
         [CObject root_object;
          CObject (Object (Some 0) (Some 2) None);
          CArray [Part "pseudoElement" "after"]])
  = Throw OrderViolationError.
Proof.
  apply X4_pseudoElement_is_last; [reflexivity|reflexivity|].
  left. reflexivity.
Defined.

(** ** Text of a derived selector *)

Lemma string_app_assoc (a b c : string) : (a +:+ b) +:+ c = a +:+ (b +:+ c).
Proof.
  induction a as [|x a IH]; [reflexivity|].
  change (String x ((a +:+ b) +:+ c) = String x (a +:+ (b +:+ c))).
  now rewrite IH.
Qed.

Lemma string_app_nil_r (a : string) : a +:+ EmptyString = a.
Proof.
  induction a as [|x a IH]; [reflexivity|].
  change (String x (a +:+ EmptyString) = String x a). now rewrite IH.
Qed.

Lemma join_cons x l : join (x :: l) = x +:+ join l.
Proof.
  unfold join. destruct l as [|y l]; simpl.
  - now rewrite string_app_nil_r.
  - reflexivity.
Qed.

Lemma join_snoc l s : join (l ++ [s]) = join l +:+ s.
Proof.
  induction l as [|x l IH].
  - simpl. reflexivity.
  - change ((x :: l) ++ [s]) with (x :: (l ++ [s])).
    now rewrite !join_cons, IH, string_app_assoc.
Qed.

(** An element that nothing in the array outranks stays at the end. *)
Lemma sort_insert_snoc {A} (key : A -> Z) x p l :
  (key x <= key p)%Z ->
  sort_insert (by_key key) x (l ++ [p]) = sort_insert (by_key key) x l ++ [p].
Proof.
  intros Hxp. induction l as [|y l IH]; simpl.
  - unfold by_key. destruct (0 <? key x - key p)%Z eqn:E; [|reflexivity].
    apply Z.ltb_lt in E. lia.
  - destruct (0 <? by_key key x y)%Z; [|reflexivity]. now rewrite IH.
Qed.

Lemma Array_sort_snoc {A} (key : A -> Z) p l :
  Forall (fun q => (key q <= key p)%Z) l ->
  Array_sort (by_key key) (l ++ [p]) = Array_sort (by_key key) l ++ [p].
Proof.
  induction l as [|x l IH]; intros Hall; [reflexivity|].
  inversion Hall as [|? ? Hx Hl]; subst. simpl.
  rewrite IH by assumption. now apply sort_insert_snoc.
Qed.

Lemma render_method m v : render (Part (method_type m) v) = fragment_text m v.
Proof. destruct m; reflexivity. Qed.

(** What a successful call tells about the receiver's fragments. *)
Lemma call_returns m this v h h' b' :
  wf_heap h = true -> is_object h this = true ->
  call m this v h = (h', Return b') ->
  h' = derived h this (fragments h this ++ [Part (method_type m) v]) /\
  b' = length h /\
  Forall (fun p => (part_rank p <= rank m)%Z) (fragments h this) /\
  (method_unique m = true ->
   ~ Exists (fun p => type p = method_type m) (fragments h this)).
Proof.
  intros Hwf Hthis. rewrite call_run by assumption. cbv zeta.
  destruct (method_unique m && _) eqn:Ed; [discriminate|].
  destruct (validateOrder_loop _ _) eqn:Ev; [discriminate|].
  intros [= <- <-]. repeat split.
  - apply List.Forall_forall. intros p Hin.
    destruct (Z.le_gt_cases (part_rank p) (rank m)) as [|Hgt];
      [assumption|].
    assert (Hex : validateOrder_loop (rank m) (fragments h this) = true).
    { apply validateOrder_loop_Exists. apply List.Exists_exists.
      exists p. split; [assumption|lia]. }
    rewrite Hex in Ev. discriminate Ev.
  - intros Hu Hex. apply parts_some_Exists in Hex.
    rewrite Hu, Hex in Ed. discriminate Ed.
Qed.

(** The text of a selector without [combined] after one more append. *)
Lemma call_text m b v h h' b' s :
  wf_heap h = true -> is_object h b = true ->
  get combined h b = Some None ->
  stringify h b = Some s ->
  call m b v h = (h', Return b') ->
  stringify h' b' = Some (s +:+ fragment_text m v).
Proof.
  intros Hwf Hb Hc Hs Hcall.
  destruct (call_returns _ _ _ _ _ _ Hwf Hb Hcall) as (-> & -> & Hall & _).
  rewrite stringify_simple in Hs by assumption. injection Hs as <-.
  rewrite stringify_simple.
  - rewrite derived_fragments.
    change compare_parts with (by_key part_rank).
    rewrite Array_sort_snoc by assumption.
    rewrite List.map_app.
    change (map render [Part (method_type m) v])
      with [render (Part (method_type m) v)].
    now rewrite join_snoc, render_method.
  - now apply wf_derived.
  - apply derived_is_object.
  - now rewrite derived_get_combined.
Qed.

(** [stringify] of a selector that sees a [combined] property. *)
Lemma stringify_combined h l c :
  wf_heap h = true -> is_object h l = true ->
  get combined h l = Some (Some c) ->
  exists s1 s2,
    stringify h (selector1 c) = Some s1 /\
    stringify h (selector2 c) = Some s2 /\
    stringify h l = Some (s1 +:+ " " +:+ combinator c +:+ " " +:+ s2).
Proof.
  intros Hwf Hl Hc.
  destruct (get_combined_older _ _ _ Hwf Hc) as [[L1 O1] [L2 O2]].
  destruct (stringify_total h _ Hwf O1) as [s1 E1].
  destruct (stringify_total h _ Hwf O2) as [s2 E2].
  exists s1, s2. split; [assumption|]. split; [assumption|].
  pose proof (is_object_lt _ _ Hl) as Hlt.
  unfold stringify in *. destruct (length h) as [|n] eqn:El; [lia|].
  rewrite stringify_fuel_S, Hc.
  destruct (stringify_fuel_total h Hwf n (selector1 c)) as [t1 F1];
    [lia|assumption|].
  destruct (stringify_fuel_total h Hwf n (selector2 c)) as [t2 F2];
    [lia|assumption|].
  rewrite F1, F2.
  rewrite (stringify_fuel_mono _ (S n) _ _ _ F1) in E1 by lia.
  rewrite (stringify_fuel_mono _ (S n) _ _ _ F2) in E2 by lia.
  congruence.
Qed.

(** X5. On a selector that sees no [combined], a successful append
    extends the text at its right end: the new selector stringifies to the
    receiver's text followed by the rendering of the new fragment. *)
Theorem X5_append_extends_text
    (h : heap) (b : loc) (m : method) (v : string) (h' : heap) (b' : loc) :
  wf_heap h = true -> is_object h b = true ->
  get combined h b = Some None ->
  call m b v h = (h', Return b') ->
  exists s,
    stringify h b = Some s /\
    stringify h' b' = Some (s +:+ fragment_text m v).
Proof.
  intros Hwf Hb Hc Hcall.
  destruct (stringify_total h b Hwf Hb) as [s Hs].
  exists s. split; [assumption|].
  exact (call_text _ _ _ _ _ _ _ Hwf Hb Hc Hs Hcall).
Qed.

Lemma X5_witness :
  exists s,
    stringify
      [CObject root_object;
       CObject (Object (Some 0) (Some 2) None);
       CArray [Part "element" "div"]] 1 = Some s /\
    stringify
      (fst (call Class 1 "c"
              [CObject root_object;
               CObject (Object (Some 0) (Some 2) None);
               CArray [Part "element" "div"]])) 3
    = Some (s +:+ ".c").
Proof.
  apply (X5_append_extends_text
           [CObject root_object;
            CObject (Object (Some 0) (Some 2) None);
            CArray [Part "element" "div"]] 1 Class "c" _ 3
           eq_refl eq_refl eq_refl eq_refl).
Defined.

(** The text of a selector that sees a [combined], after one more append. *)
Lemma call_text_inherited m b c v h h' b' :
  wf_heap h = true -> is_object h b = true ->
  get combined h b = Some (Some c) ->
  call m b v h = (h', Return b') ->
  stringify h' b' = stringify h b.
Proof.
  intros Hwf Hb Hc Hcall.
  destruct (call_returns _ _ _ _ _ _ Hwf Hb Hcall) as (-> & -> & _ & _).
  set (ps := fragments h b ++ _).
  destruct (stringify_combined h b c Hwf Hb Hc) as (s1 & s2 & E1 & E2 & E).
  pose proof (get_combined_older _ _ _ Hwf Hc) as [[_ O1] [_ O2]].
  destruct (stringify_combined (derived h b ps) (length h) c)
    as (t1 & t2 & F1 & F2 & F).
  - now apply wf_derived.
  - apply derived_is_object.
  - now rewrite derived_get_combined.
  - unfold derived in F1, F2.
    rewrite stringify_app in F1, F2 by assumption.
    congruence.
Qed.

(** X6. [combined] is inherited through [Object.create] like [parts]: a
    selector derived by an append from one that sees a [combined]
    stringifies exactly as its receiver, the new fragment not showing. *)
Theorem X6_append_on_combination_keeps_text
    (h : heap) (b : loc) (c : combination) (m : method) (v : string)
    (h' : heap) (b' : loc) :
  wf_heap h = true -> is_object h b = true ->
  get combined h b = Some (Some c) ->
  call m b v h = (h', Return b') ->
  stringify h' b' = stringify h b /\
  fragments h' b' = fragments h b ++ [Part (method_type m) v].
Proof.
  intros Hwf Hb Hc Hcall. split.
  - exact (call_text_inherited _ _ _ _ _ _ _ Hwf Hb Hc Hcall).
  - destruct (call_returns _ _ _ _ _ _ Hwf Hb Hcall) as (-> & -> & _ & _).
    apply derived_fragments.
Qed.

Lemma X6_witness :
  stringify
    (fst (call Class 5 "c"
            [CObject root_object;
             CObject (Object (Some 0) (Some 2) None);
             CArray [Part "element" "a"];
             CObject (Object (Some 0) (Some 4) None);
             CArray [Part "element" "b"];
             CObject (Object (Some 0) None (Some (Combination 1 ">" 3)))]))
    6
  = Some "a > b".
Proof.
  destruct (X6_append_on_combination_keeps_text
              [CObject root_object;
               CObject (Object (Some 0) (Some 2) None);
               CArray [Part "element" "a"];
               CObject (Object (Some 0) (Some 4) None);
               CArray [Part "element" "b"];
               CObject (Object (Some 0) None (Some (Combination 1 ">" 3)))]
              5 (Combination 1 ">" 3) Class "c" _ 6
              eq_refl eq_refl eq_refl eq_refl) as [E _].
  etransitivity; [exact E|reflexivity].
Defined.

(** ** Chains of calls *)

Lemma accepts_step x m v :
  accepts x (m, v)
  = negb (method_unique m
          && String.eqb (type (call_part x)) (method_type m))
    && negb (rank m <? part_rank (call_part x))%Z.
Proof. destruct x as [[] t], m; reflexivity. Qed.

(** The two checks of a call, run on the fragments of the calls [prev],
    pass exactly when each of these calls lets the new one through. *)
Lemma checks_forallb m v prev :
  negb (method_unique m
        && existsb (fun p => String.eqb (type p) (method_type m))
             (map call_part prev))
  && negb (validateOrder_loop (rank m) (map call_part prev))
  = forallb (fun x => accepts x (m, v)) prev.
Proof.
  induction prev as [|x prev IH].
  - simpl. now rewrite andb_false_r.
  - change (map call_part (x :: prev))
      with (call_part x :: map call_part prev).
    change (forallb (fun y => accepts y (m, v)) (x :: prev))
      with (accepts x (m, v) && forallb (fun y => accepts y (m, v)) prev).
    rewrite accepts_step, <- IH. unfold part_rank.
    generalize (call_part x) as p, (map call_part prev) as ps.
    intros p ps. cbn [existsb validateOrder_loop].
    destruct (method_unique m), (String.eqb (type p) (method_type m)),
      (rank m <? indexOf order (type p))%Z, (existsb _ ps),
      (validateOrder_loop (rank m) ps); reflexivity.
Qed.

Lemma forallb_true {A} (l : list A) : forallb (fun _ => true) l = true.
Proof. induction l; simpl; auto. Qed.

Lemma forallb_andb {A} (f g : A -> bool) l :
  forallb (fun x => f x && g x) l = forallb f l && forallb g l.
Proof.
  induction l as [|x l IH]; simpl; [reflexivity|]. rewrite IH.
  destruct (f x), (g x), (forallb f l), (forallb g l); reflexivity.
Qed.

Lemma chain_returns_iff calls : forall prev h b,
  wf_heap h = true -> is_object h b = true ->
  fragments h b = map call_part prev ->
  (exists h' b', chain b calls h = (h', Return b'))
  <-> forallb (fun x => forallb (accepts x) calls) prev = true /\
      valid_calls calls = true.
Proof.
  induction calls as [|[m v] rest IH]; intros prev h b Hwf Hb Hf.
  - simpl. rewrite forallb_true. split; [auto|]. intros _.
    eexists _, _. reflexivity.
  - simpl chain. unfold bind. rewrite call_run by assumption. cbv zeta.
    rewrite Hf. pose proof (checks_forallb m v prev) as Hok.
    simpl forallb. rewrite forallb_andb.
    destruct (method_unique m && _) eqn:Ed.
    { simpl in Hok. rewrite <- Hok. split.
      - intros (h' & b' & H). discriminate H.
      - intros [H _]. discriminate H. }
    destruct (validateOrder_loop _ _) eqn:Ev.
    { simpl in Hok. rewrite <- Hok. split.
      - intros (h' & b' & H). discriminate H.
      - intros [H _]. discriminate H. }
    simpl in Hok. rewrite <- Hok. rewrite <- Hf.
    rewrite (IH (prev ++ [(m, v)])).
    + rewrite forallb_app. simpl. rewrite !andb_true_iff. tauto.
    + now apply wf_derived.
    + apply derived_is_object.
    + rewrite derived_fragments, Hf, List.map_app. reflexivity.
Qed.

(** A chain on a well-formed store ends in a selector or in one of the
    two errors of the builder. *)
Lemma chain_outcome calls : forall h b,
  wf_heap h = true -> is_object h b = true ->
  exists h',
    (exists b', chain b calls h = (h', Return b')) \/
    chain b calls h = (h', Throw DuplicateSelectorPartError) \/
    chain b calls h = (h', Throw OrderViolationError).
Proof.
  induction calls as [|[m v] rest IH]; intros h b Hwf Hb.
  - exists h. left. exists b. reflexivity.
  - simpl. unfold bind. rewrite call_run by assumption. cbv zeta.
    destruct (method_unique m && _); [eexists; right; left; reflexivity|].
    destruct (validateOrder_loop _ _); [eexists; right; right; reflexivity|].
    apply IH; [now apply wf_derived|apply derived_is_object].
Qed.

Lemma chain_text calls : forall h b h' b' s,
  wf_heap h = true -> is_object h b = true ->
  get combined h b = Some None ->
  stringify h b = Some s ->
  chain b calls h = (h', Return b') ->
  stringify h' b'
  = Some (s +:+ join (map (fun c => fragment_text (fst c) (snd c)) calls)).
Proof.
  induction calls as [|[m v] rest IH]; intros h b h' b' s Hwf Hb Hc Hs Hrun.
  - injection Hrun as <- <-. simpl. change (join []) with EmptyString.
    now rewrite string_app_nil_r.
  - simpl in Hrun. unfold bind in Hrun.
    destruct (call m b v h) as [h1 [b1|e|]] eqn:Ecall; try discriminate Hrun.
    pose proof (call_text _ _ _ _ _ _ _ Hwf Hb Hc Hs Ecall) as Hs1.
    destruct (call_returns _ _ _ _ _ _ Hwf Hb Ecall) as (-> & -> & _ & _).
    rewrite (IH _ _ _ _ (s +:+ fragment_text m v)
               (wf_derived _ _ _ Hwf Hb) (derived_is_object _ _ _)
               (eq_trans (derived_get_combined _ _ _ Hwf Hb) Hc) Hs1 Hrun).
    simpl map. now rewrite join_cons, string_app_assoc.
Qed.

(** X7. From a builder without fragments, a chain of calls returns a
    selector exactly when every call is let through by all the calls
    before it (strictly lower rank, or equal rank of a repeatable kind);
    any other chain stops on one of the two errors. *)
Theorem X7_chain_accepted_iff_valid
    (h : heap) (b : loc) (calls : list (method * string)) :
  wf_heap h = true -> is_object h b = true -> fragments h b = [] ->
  (valid_calls calls = true ->
   exists h' b', chain b calls h = (h', Return b')) /\
  (valid_calls calls = false ->
   exists h',
     chain b calls h = (h', Throw DuplicateSelectorPartError) \/
     chain b calls h = (h', Throw OrderViolationError)).
Proof.
  intros Hwf Hb Hf.
  pose proof (chain_returns_iff calls [] h b Hwf Hb Hf) as Hiff.
  simpl in Hiff. split.
  - intros Hv. apply Hiff. auto.
  - intros Hv. destruct (chain_outcome calls h b Hwf Hb) as [h' [Hret|Hthrow]].
    + destruct Hret as [b' Hret].
      assert (Hv' : valid_calls calls = true) by (apply Hiff; eauto).
      congruence.
    + eauto.
Qed.

Lemma X7_witness :
  (exists h' b',
      chain builder [(Element, "a"); (Class, "x"); (Class, "y");
                     (PseudoElement, "after")] initial_heap
      = (h', Return b')) /\
  (exists h',
      chain builder [(Class, "x"); (Id, "i")] initial_heap
      = (h', Throw DuplicateSelectorPartError) \/
      chain builder [(Class, "x"); (Id, "i")] initial_heap
      = (h', Throw OrderViolationError)).
Proof.
  split.
  - apply (X7_chain_accepted_iff_valid initial_heap builder);
      reflexivity.
  - apply (X7_chain_accepted_iff_valid initial_heap builder);
      reflexivity.
Defined.

(** X8. A chain that succeeds from a builder without fragments and
    without [combined] stringifies to the renderings of its calls in the
    order of the calls: on an accepted chain the sort moves nothing. *)
Theorem X8_chain_text_in_call_order
    (h : heap) (b : loc) (calls : list (method * string))
    (h' : heap) (b' : loc) :
  wf_heap h = true -> is_object h b = true ->
  get combined h b = Some None -> fragments h b = [] ->
  chain b calls h = (h', Return b') ->
  stringify h' b'
  = Some (String.concat ""
            (map (fun c => fragment_text (fst c) (snd c)) calls)).
Proof.
  intros Hwf Hb Hc Hf Hrun.
  assert (Hs : stringify h b = Some EmptyString).
  { rewrite stringify_simple by assumption. now rewrite Hf. }
  exact (chain_text calls _ _ _ _ _ Hwf Hb Hc Hs Hrun).
Qed.

Lemma X8_witness :
  stringify
    (fst (chain builder [(Element, "a"); (Class, "x"); (Class, "y")]
            initial_heap)) 5
  = Some "a.x.y".
Proof.
  exact (X8_chain_text_in_call_order initial_heap builder
           [(Element, "a"); (Class, "x"); (Class, "y")] _ 5
           eq_refl eq_refl eq_refl eq_refl eq_refl).
Defined.

(** ** combine *)

(** X9. [combine] validates nothing and never throws: whatever its
    arguments, it returns a fresh object and leaves every cell of the
    store in place; on a well-formed store every existing selector keeps
    its fragments and its text. *)
Theorem X9_combine_frame
    (h : heap) (this A : loc) (c : string) (B : loc) :
  wf_heap h = true ->
  exists h',
    combine this A c B h = (h', Return (length h)) /\
    is_object h (length h) = false /\ is_object h' (length h) = true /\
    (forall l, l < length h -> h' !! l = h !! l) /\
    (forall b, is_object h b = true ->
       fragments h' b = fragments h b /\ stringify h' b = stringify h b).
Proof.
  intros Hwf. eexists. split; [apply combine_run|].
  split.
  { destruct (is_object h (length h)) eqn:E; [|reflexivity].
    apply is_object_lt in E. lia. }
  split.
  { apply is_object_Some. eexists.
    now apply (list_lookup_middle h [] _ (length h)). }
  split.
  - intros l Hl. now apply lookup_app_l.
  - intros b Hb. split; [now apply fragments_app|now apply stringify_app].
Qed.

Lemma X9_witness :
  exists h',
    combine builder 7 ">" 9 initial_heap = (h', Return 1) /\
    stringify h' builder = Some EmptyString.
Proof.
  destruct (X9_combine_frame initial_heap builder 7 ">" 9 eq_refl)
    as (h' & E & _ & _ & _ & F).
  exists h'. split; [exact E|].
  destruct (F builder eq_refl) as [_ S].
  etransitivity; [exact S|reflexivity].
Defined.

Lemma run_text_combine this A c B h sa sb :
  wf_heap h = true -> is_object h A = true -> is_object h B = true ->
  stringify h A = Some sa -> stringify h B = Some sb ->
  stringify (h ++ [combined_cell this (Combination A c B)]) (length h)
  = Some (sa +:+ " " +:+ c +:+ " " +:+ sb).
Proof.
  intros Hwf HA HB Ea Eb.
  exact (stringify_combined_cell h this (Combination A c B) sa sb Ea Eb).
Qed.

Lemma wf_combined_cell this A c B h :
  wf_heap h = true -> is_object h this = true ->
  is_object h A = true -> is_object h B = true ->
  wf_heap (h ++ [combined_cell this (Combination A c B)]) = true.
Proof.
  intros Hwf Hthis HA HB.
  pose proof (wf_combine this A c B h Hwf Hthis HA HB) as W.
  now rewrite combine_run in W.
Qed.

(** X10. The text of nested combinations does not show the nesting:
    combining [A c1 B] with [C] and combining [A] with [B c2 C] give the
    same text, [A c1 B c2 C] with a space on each side of each
    combinator. *)
Theorem X10_combine_text_associative
    (h : heap) (this A : loc) (c1 : string) (B : loc) (c2 : string)
    (C : loc) :
  wf_heap h = true -> is_object h this = true ->
  is_object h A = true -> is_object h B = true -> is_object h C = true ->
  exists sa sb sc,
    stringify h A = Some sa /\ stringify h B = Some sb /\
    stringify h C = Some sc /\
    run_text (let* ab := combine this A c1 B in combine this ab c2 C) h
    = Some (sa +:+ " " +:+ c1 +:+ " " +:+ sb +:+ " " +:+ c2 +:+ " " +:+ sc)
    /\
    run_text (let* bc := combine this B c2 C in combine this A c1 bc) h
    = Some (sa +:+ " " +:+ c1 +:+ " " +:+ sb +:+ " " +:+ c2 +:+ " " +:+ sc).
Proof.
  intros Hwf Hthis HA HB HC.
  destruct (stringify_total h A Hwf HA) as [sa Ea].
  destruct (stringify_total h B Hwf HB) as [sb Eb].
  destruct (stringify_total h C Hwf HC) as [sc Ec].
  exists sa, sb, sc. repeat split; try assumption.
  - unfold run_text, bind. rewrite !combine_run.
    set (h1 := h ++ [combined_cell this (Combination A c1 B)]).
    assert (W1 : wf_heap h1 = true) by now apply wf_combined_cell.
    assert (Oab : is_object h1 (length h) = true).
    { apply is_object_Some. eexists.
      now apply (list_lookup_middle h [] _ (length h)). }
    rewrite (run_text_combine this (length h) c2 C h1
               (sa +:+ " " +:+ c1 +:+ " " +:+ sb) sc W1 Oab).
    + now rewrite !string_app_assoc.
    + now apply is_object_app.
    + now apply run_text_combine.
    + unfold h1. now rewrite stringify_app.
  - unfold run_text, bind. rewrite !combine_run.
    set (h1 := h ++ [combined_cell this (Combination B c2 C)]).
    assert (W1 : wf_heap h1 = true) by now apply wf_combined_cell.
    assert (Obc : is_object h1 (length h) = true).
    { apply is_object_Some. eexists.
      now apply (list_lookup_middle h [] _ (length h)). }
    rewrite (run_text_combine this A c1 (length h) h1
               sa (sb +:+ " " +:+ c2 +:+ " " +:+ sc) W1).
    + reflexivity.
    + now apply is_object_app.
    + exact Obc.
    + unfold h1. now rewrite stringify_app.
    + now apply run_text_combine.
Qed.

Lemma X10_witness :
  run_text (let* ab := combine 0 1 "+" 3 in combine 0 ab "~" 5)
    [CObject root_object;
     CObject (Object (Some 0) (Some 2) None); CArray [Part "element" "a"];
     CObject (Object (Some 0) (Some 4) None); CArray [Part "element" "b"];
     CObject (Object (Some 0) (Some 6) None); CArray [Part "element" "c"]]
  = run_text (let* bc := combine 0 3 "~" 5 in combine 0 1 "+" bc)
      [CObject root_object;
       CObject (Object (Some 0) (Some 2) None); CArray [Part "element" "a"];
       CObject (Object (Some 0) (Some 4) None); CArray [Part "element" "b"];
       CObject (Object (Some 0) (Some 6) None); CArray [Part "element" "c"]].
Proof.
  destruct (X10_combine_text_associative
              [CObject root_object;
               CObject (Object (Some 0) (Some 2) None);
               CArray [Part "element" "a"];
               CObject (Object (Some 0) (Some 4) None);
               CArray [Part "element" "b"];
               CObject (Object (Some 0) (Some 6) None);
               CArray [Part "element" "c"]]
              0 1 "+" 3 "~" 5 eq_refl eq_refl eq_refl eq_refl eq_refl)
    as (sa & sb & sc & _ & _ & _ & E1 & E2).
  etransitivity; [exact E1|symmetry; exact E2].
Defined.

(** ** Invariants of the store *)

Lemma unshared_initial : unshared initial_heap.
Proof.
  intros i j oi oj a Hi _ Hpi _.
  destruct i as [|i]; simpl in Hi; [|now destruct i].
  injection Hi as <-. discriminate Hpi.
Qed.

Lemma wf_parts_lt h i o a :
  wf_heap h = true -> h !! i = Some (CObject o) -> parts o = Some a ->
  a < length h.
Proof.
  intros Hwf Hi Hp. pose proof (wf_heap_lookup _ _ _ Hwf Hi) as W.
  simpl in W. rewrite Hp in W. rewrite !andb_true_iff in W.
  destruct W as [[_ Ha] _]. apply is_array_Some in Ha as [ps Ea].
  now apply lookup_lt_Some in Ea.
Qed.

(** The objects of a store grown by an append call. *)
Lemma derived_objects h this ps i o :
  derived h this ps !! i = Some (CObject o) ->
  (i < length h /\ h !! i = Some (CObject o)) \/
  (i = length h /\ parts o = Some (S (length h))).
Proof.
  intros Hi. unfold derived in Hi.
  apply lookup_app_Some in Hi as [Hi|[Hle Hi]].
  - left. split; [now apply lookup_lt_Some in Hi|assumption].
  - right. destruct (i - length h) as [|[|k]] eqn:Ek; simpl in Hi.
    + injection Hi as <-. split; [lia|reflexivity].
    + discriminate Hi.
    + discriminate Hi.
Qed.

Lemma unshared_derived h this ps :
  wf_heap h = true -> unshared h -> unshared (derived h this ps).
Proof.
  intros Hwf Hun i j oi oj a Hi Hj Hpi Hpj.
  apply derived_objects in Hi as [[Li Hi]|[-> Hi]];
    apply derived_objects in Hj as [[Lj Hj]|[-> Hj]].
  - exact (Hun _ _ _ _ _ Hi Hj Hpi Hpj).
  - pose proof (wf_parts_lt _ _ _ _ Hwf Hi Hpi). exfalso.
    rewrite Hpj in Hj. injection Hj as ->. lia.
  - pose proof (wf_parts_lt _ _ _ _ Hwf Hj Hpj). exfalso.
    rewrite Hpi in Hi. injection Hi as ->. lia.
  - reflexivity.
Qed.

Lemma unshared_combined_cell h this c :
  unshared h -> unshared (h ++ [combined_cell this c]).
Proof.
  intros Hun i j oi oj a Hi Hj Hpi Hpj.
  assert (Hold : forall k o, (h ++ [combined_cell this c]) !! k
                             = Some (CObject o) ->
                 parts o <> None -> h !! k = Some (CObject o)).
  { intros k o Hk Hp. apply lookup_app_Some in Hk as [Hk|[Hle Hk]];
      [assumption|].
    destruct (k - length h) as [|n]; simpl in Hk; [|discriminate Hk].
    injection Hk as <-. now contradiction Hp. }
  apply (Hun i j oi oj a); try assumption; apply Hold; congruence.
Qed.

(** X11. The builder keeps its store in shape.  After any append call,
    returning or throwing, and after any [combine] of existing selectors,
    prototypes and combined selectors still point to older objects (no
    cycles), [parts] still points to arrays, and no array is the [parts]
    of two objects: a [push] can only ever reach the array of the object
    being built. *)
Theorem X11_store_invariants (h : heap) (this : loc) :
  wf_heap h = true -> unshared h -> is_object h this = true ->
  (forall m v,
     wf_heap (fst (call m this v h)) = true /\
     unshared (fst (call m this v h))) /\
  (forall A c B,
     is_object h A = true -> is_object h B = true ->
     wf_heap (fst (combine this A c B h)) = true /\
     unshared (fst (combine this A c B h))).
Proof.
  intros Hwf Hun Hthis. split.
  - intros m v. destruct (call m this v h) as [h' r] eqn:Ecall.
    destruct (call_derived _ _ _ _ _ _ Hwf Hthis Ecall) as [ps ->].
    split; [now apply wf_derived|now apply unshared_derived].
  - intros A c B HA HB. split; [now apply wf_combine|].
    rewrite combine_run. now apply unshared_combined_cell.
Qed.

Lemma X11_witness :
  wf_heap (fst (call Element builder "div" initial_heap)) = true /\
  unshared (fst (call Element builder "div" initial_heap)).
Proof.
  exact (proj1 (X11_store_invariants initial_heap builder eq_refl
                  unshared_initial eq_refl) Element "div").
Defined.

(** X12. [stringify] needs no more recursion than the store has cells:
    on a well-formed store it returns a text for every object, and any
    larger fuel returns the same text. *)
Theorem X12_stringify_total (h : heap) (b : loc) :
  wf_heap h = true -> is_object h b = true ->
  exists s,
    stringify h b = Some s /\
    forall n, length h <= n -> stringify_fuel n h b = Some s.
Proof.
  intros Hwf Hb. destruct (stringify_total h b Hwf Hb) as [s E].
  exists s. split; [assumption|]. intros n Hn.
  now apply stringify_fuel_mono with (n := length h).
Qed.

Lemma X12_witness :
  exists s,
    stringify
      [CObject root_object;
       CObject (Object (Some 0) (Some 2) None); CArray [Part "id" "x"];
       CObject (Object (Some 0) None (Some (Combination 1 "~" 1)))] 3
    = Some s.
Proof.
  destruct (X12_stringify_total
              [CObject root_object;
               CObject (Object (Some 0) (Some 2) None);
               CArray [Part "id" "x"];
               CObject (Object (Some 0) None (Some (Combination 1 "~" 1)))]
              3 eq_refl eq_refl) as (s & E & _).
  exists s. exact E.
Defined.

(** ** After a failed append *)

(** X13. A failed append can be forgotten: on the store it leaves, any
    call on the same receiver throws what it would have thrown on the
    store before, or returns a selector with the same fragments and the
    same text. *)
Theorem X13_failed_append_leaves_builder_usable
    (h : heap) (b : loc) (m1 : method) (v1 : string) (h1 : heap)
    (e : string) (m2 : method) (v2 : string) :
  wf_heap h = true -> is_object h b = true ->
  call m1 b v1 h = (h1, Throw e) ->
  (forall e2,
     snd (call m2 b v2 h1) = Throw e2 <-> snd (call m2 b v2 h) = Throw e2)
  /\
  (forall h2 b2,
     call m2 b v2 h = (h2, Return b2) ->
     exists h2' b2',
       call m2 b v2 h1 = (h2', Return b2') /\
       fragments h2' b2' = fragments h2 b2 /\
       stringify h2' b2' = stringify h2 b2).
Proof.
  intros Hwf Hb Hfail.
  destruct (call_derived _ _ _ _ _ _ Hwf Hb Hfail) as [ps ->].
  assert (W1 : wf_heap (derived h b ps) = true) by now apply wf_derived.
  assert (O1 : is_object (derived h b ps) b = true)
    by (unfold derived; now apply is_object_app).
  destruct (derived_frame h b ps b Hwf Hb) as [F1 S1].
  assert (C1 : get combined (derived h b ps) b = get combined h b)
    by (unfold derived; now apply get_app).
  split.
  - intros e2. rewrite !call_run by assumption. cbv zeta. rewrite F1.
    destruct (method_unique m2 && _); [reflexivity|].
    destruct (validateOrder_loop _ _); [reflexivity|].
    simpl. split; discriminate.
  - intros h2 b2 Hret.
    destruct (call m2 b v2 (derived h b ps)) as [h2' r] eqn:Ecall.
    assert (Hr : exists b2', r = Return b2').
    { revert Ecall Hret. rewrite !call_run by assumption. cbv zeta.
      rewrite F1.
      destruct (method_unique m2 && _); [discriminate|].
      destruct (validateOrder_loop _ _); [discriminate|].
      intros [= _ <-] _. eauto. }
    destruct Hr as [b2' ->]. exists h2', b2'. split; [reflexivity|].
    destruct (call_returns _ _ _ _ _ _ W1 O1 Ecall) as (E2' & Eb' & _).
    destruct (call_returns _ _ _ _ _ _ Hwf Hb Hret) as (E2 & Eb & _).
    assert (Hfr : fragments h2' b2' = fragments h2 b2).
    { subst. now rewrite !derived_fragments, F1. }
    split; [exact Hfr|].
    destruct (get_total combined h Hwf b Hb) as [[c|] Hc].
    + rewrite (call_text_inherited _ _ c _ _ _ _ W1 O1
                 (eq_trans C1 Hc) Ecall).
      rewrite (call_text_inherited _ _ c _ _ _ _ Hwf Hb Hc Hret).
      exact S1.
    + assert (W2 : wf_heap h2 = true) by (subst; now apply wf_derived).
      assert (W2' : wf_heap h2' = true) by (subst; now apply wf_derived).
      rewrite !stringify_simple; try assumption.
      * now rewrite Hfr.
      * subst. apply derived_is_object.
      * subst. now rewrite derived_get_combined.
      * subst. apply derived_is_object.
      * subst. rewrite derived_get_combined by assumption.
        now rewrite C1.
Qed.

Lemma X13_witness :
  exists h2' b2',
    call Class 1 "c"
      (fst (call Element 1 "p"
              [CObject root_object;
               CObject (Object (Some 0) (Some 2) None);
               CArray [Part "element" "div"]]))
    = (h2', Return b2') /\
    fragments h2' b2' = [Part "element" "div"; Part "class" "c"].
Proof.
  destruct (X13_failed_append_leaves_builder_usable
              [CObject root_object;
               CObject (Object (Some 0) (Some 2) None);
               CArray [Part "element" "div"]]
              1 Element "p" _ _ Class "c" eq_refl eq_refl eq_refl)
    as [_ H].
  destruct (H _ 3 eq_refl) as (h2' & b2' & E & F & _).
  exists h2', b2'. split; [exact E|].
  etransitivity; [exact F|reflexivity].
Defined.

(** ** The shape of the fragment sequence *)

Lemma StronglySorted_snoc {A} (R : A -> A -> Prop) l p :
  StronglySorted R l -> Forall (fun x => R x p) l ->
  StronglySorted R (l ++ [p]).
Proof.
  induction l as [|x l IH]; intros Hs Hall; simpl.
  - repeat constructor.
  - inversion Hs as [|? ? Hs' Hx]; subst.
    inversion Hall as [|? ? Hxp Hl]; subst.
    constructor; [now apply IH|].
    apply List.Forall_app. split; [assumption|]. now constructor.
Qed.

Lemma unique_type_method m t :
  In t ["element"; "id"; "pseudoElement"] -> method_type m = t ->
  method_unique m = true.
Proof.
  intros Hin <-.
  destruct m; try reflexivity; exfalso; simpl in Hin;
    repeat (destruct Hin as [Hin|Hin]; [discriminate Hin|]); exact Hin.
Qed.

Lemma filter_none {A} (f : A -> bool) l :
  ~ Exists (fun x => f x = true) l -> List.filter f l = [].
Proof.
  induction l as [|x l IH]; intros Hno; simpl; [reflexivity|].
  destruct (f x) eqn:E.
  - exfalso. apply Hno. now left.
  - apply IH. intros Hex. apply Hno. now right.
Qed.

Lemma canonical_call m b v h h' b' :
  wf_heap h = true -> is_object h b = true ->
  canonical (fragments h b) ->
  call m b v h = (h', Return b') ->
  canonical (fragments h' b').
Proof.
  intros Hwf Hb [Hs Hu] Hcall.
  destruct (call_returns _ _ _ _ _ _ Hwf Hb Hcall) as (-> & -> & Hall & Hdup).
  rewrite derived_fragments. split.
  - now apply StronglySorted_snoc.
  - intros t Ht. rewrite List.filter_app, length_app. simpl.
    destruct (String.eqb (method_type m) t) eqn:E; simpl.
    + apply String.eqb_eq in E.
      rewrite filter_none; [simpl; lia|].
      intros Hex. apply (Hdup (unique_type_method m t Ht E)).
      apply List.Exists_exists in Hex as (p & Hin & Hp).
      apply List.Exists_exists. exists p. split; [assumption|].
      apply String.eqb_eq in Hp. congruence.
    + specialize (Hu t Ht). lia.
Qed.

(** X16. The builder keeps the fragment sequence in shape: whatever
    chain of calls succeeds on a builder whose fragments are in
    non-decreasing rank order with at most one element, one id and one
    pseudo-element, the selector it returns has fragments of that shape
    again; so has every selector built from the facade. *)
Theorem X16_fragments_stay_canonical
    (h : heap) (b : loc) (calls : list (method * string))
    (h' : heap) (b' : loc) :
  wf_heap h = true -> is_object h b = true ->
  canonical (fragments h b) ->
  chain b calls h = (h', Return b') ->
  canonical (fragments h' b').
Proof.
  revert h b. induction calls as [|[m v] rest IH]; intros h b Hwf Hb Hc Hrun.
  - now injection Hrun as <- <-.
  - simpl in Hrun. unfold bind in Hrun.
    destruct (call m b v h) as [h1 [b1|e|]] eqn:Ecall; try discriminate Hrun.
    pose proof (canonical_call _ _ _ _ _ _ Hwf Hb Hc Ecall) as Hc1.
    destruct (call_returns _ _ _ _ _ _ Hwf Hb Ecall) as (-> & -> & _ & _).
    apply (IH _ _ (wf_derived _ _ _ Hwf Hb) (derived_is_object _ _ _)
             Hc1 Hrun).
Qed.

Lemma X16_witness :
  canonical
    (fragments
       (fst (chain builder [(Element, "a"); (Class, "x"); (Class, "y")]
               initial_heap)) 5).
Proof.
  apply (X16_fragments_stay_canonical initial_heap builder
           [(Element, "a"); (Class, "x"); (Class, "y")] _ 5
           eq_refl eq_refl).
  - split; [constructor|]. intros t _. simpl. lia.
  - reflexivity.
Defined.

(** * Further properties of fromJSON *)

Section AssignFailures.
Context {number : Type}.
Implicit Types (P : prototype number) (fields : list (string * json number)).

Lemma update_keys {V} k (v : V) (l : list (string * V)) :
  map fst (update k v l) = map fst l.
Proof.
  induction l as [|[k' v'] l IH]; simpl; [reflexivity|].
  destruct (String.eqb k' k); simpl; [reflexivity|now rewrite IH].
Qed.

Lemma assoc_Some_In {V} k (v : V) (l : list (string * V)) :
  assoc k l = Some v -> In k (map fst l).
Proof.
  induction l as [|[k' v'] l IH]; simpl; [discriminate|].
  destruct (String.eqb k' k) eqn:E.
  - apply String.eqb_eq in E. now left.
  - intros H. right. now apply IH.
Qed.

Lemma put_keys {V} k (v : V) (l : list (string * V)) k' :
  In k' (map fst (put k v l)) <-> In k' (map fst l) \/ k' = k.
Proof.
  unfold put. destruct (assoc k l) as [w|] eqn:E.
  - rewrite update_keys. apply assoc_Some_In in E.
    split; [tauto|]. intros [H| ->]; assumption.
  - rewrite List.map_app, List.in_app_iff. simpl. split.
    + intros [H|[<-|[]]]; auto.
    + intros [H| ->]; auto.
Qed.

(** Under names the chain leaves alone every assignment goes through: the
    object keeps its prototype, and its own fields are named as before,
    and as the source. *)
Lemma Object_assign_writable P source : forall fields,
  (forall k, In k (map fst source) ->
     assoc k P = None \/ assoc k P = Some Writable) ->
  exists fields',
    Object_assign (MkInstance P fields) source
    = Return (MkInstance P fields')
    /\ forall k, In k (map fst fields')
                 <-> In k (map fst fields) \/ In k (map fst source).
Proof.
  induction source as [|[k v] source IH]; intros fields HP.
  - exists fields. split; [reflexivity|]. simpl. tauto.
  - cbn [Object_assign]. rewrite Object_set_plain by (apply HP; now left).
    destruct (IH (put k v fields)) as (fields' & -> & Hk).
    { intros k' Hin. apply HP. now right. }
    exists fields'. split; [reflexivity|].
    intros k'. rewrite Hk, put_keys. simpl. intuition congruence.
Qed.

(** The first assignment to a read-only name throws: the names already
    assigned are own fields, and none of them is read-only. *)
Lemma Object_assign_read_only P source : forall fields,
  (forall k set, assoc k P <> Some (Setter set)) ->
  (forall k, In k (map fst fields) -> assoc k P <> Some ReadOnly) ->
  Exists (fun kv => assoc (fst kv) P = Some ReadOnly) source ->
  Object_assign (MkInstance P fields) source = Throw TypeError.
Proof.
  induction source as [|[k v] source IH]; intros fields Hset Hown Hex;
    [inversion Hex|].
  cbn [Object_assign]. unfold Object_set. cbn [instance_proto own_fields].
  destruct (assoc k fields) as [w|] eqn:Ef.
  - apply IH; [assumption| |].
    + intros k'. rewrite update_keys. apply Hown.
    + inversion Hex as [? ? Hhd|? ? Htl]; subst; [|assumption].
      exfalso. simpl in Hhd.
      exact (Hown k (assoc_Some_In _ _ _ Ef) Hhd).
  - destruct (assoc k P) as [[| |set]|] eqn:E.
    + apply IH; [assumption| |].
      * intros k'. rewrite List.map_app. simpl. intros Hin.
        apply in_app_or in Hin as [Hin|[<-|[]]]; [now apply Hown|].
        congruence.
      * inversion Hex as [? ? Hhd|? ? Htl]; subst; [|assumption].
        simpl in Hhd. congruence.
    + reflexivity.
    + now contradiction (Hset k set).
    + apply IH; [assumption| |].
      * intros k'. rewrite List.map_app. simpl. intros Hin.
        apply in_app_or in Hin as [Hin|[<-|[]]]; [now apply Hown|].
        congruence.
      * inversion Hex as [? ? Hhd|? ? Htl]; subst; [|assumption].
        simpl in Hhd. congruence.
Qed.
End AssignFailures.





(** * The scenarios of the specification and of the source's comment *)

Example scenario_id_class_class :
  script_text (chain builder
                 [(Id, "main"); (Class, "container"); (Class, "editable")])
  = inl (Some "#main.container.editable").
Proof. reflexivity. Qed.

Example scenario_element_attr_pseudoClass :
  script_text
    (chain builder
       [(Element, "a");
        (Attr, "href$=" +:+ String quote ".png" +:+ String quote EmptyString);
        (PseudoClass, "focus")])
  = inl (Some ("a[href$=" +:+ String quote ".png" +:+ String quote "]:focus")).
Proof. reflexivity. Qed.

Example scenario_second_id :
  script_text (chain builder [(Element, "div"); (Id, "main"); (Id, "x")])
  = inr DuplicateSelectorPartError.
Proof. reflexivity. Qed.

Example scenario_id_after_class :
  script_text (chain builder [(Class, "c"); (Id, "x")])
  = inr OrderViolationError.
Proof. reflexivity. Qed.

Example scenario_class_after_id :
  script_text (chain builder [(Id, "x"); (Class, "c")]) = inl (Some "#x.c").
Proof. reflexivity. Qed.

Example scenario_combine :
  script_text
    (let* a := chain builder [(Element, "div"); (Id, "main");
                              (Class, "container"); (Class, "draggable")] in
     let* b := chain builder [(Element, "table"); (Id, "data")] in
     let* c := chain builder [(Element, "tr");
                              (PseudoClass, "nth-of-type(even)")] in
     let* d := chain builder [(Element, "td");
                              (PseudoClass, "nth-of-type(even)")] in
     let* cd := combine builder c " " d in
     let* bcd := combine builder b "~" cd in
     combine builder a "+" bcd)
  = inl (Some "div#main.container.draggable + table#data ~ tr:nth-of-type(even)   td:nth-of-type(even)").
Proof. reflexivity. Qed.

(** [combined] is inherited like [parts]: a selector derived from a
    combination by an append still stringifies as the combination. *)
Example append_on_combination :
  script_text
    (let* a := element builder "a" in
     let* b := element builder "b" in
     let* ab := combine builder a ">" b in
     class ab "c")
  = inl (Some "a > b").
Proof. reflexivity. Qed.

(** The examples of the source's comments on the JSON helpers. *)
Example scenario_getJSON_array :
  getJSON (JArray [JNumber 1; JNumber 2; JNumber 3]) = "[1,2,3]".
Proof. vm_compute. reflexivity. Qed.

Example scenario_getJSON_object :
  getJSON (JObject [("width", JNumber 10); ("height", JNumber 20)])
  = "{" +:+ quoted "width" +:+ ":10," +:+ quoted "height" +:+ ":20}".
Proof. vm_compute. reflexivity. Qed.

Example scenario_fromJSON_circle :
  fromJSON circle_proto ("{" +:+ quoted "radius" +:+ ":10}")
  = Return (MkInstance circle_proto [("_radius", JNumber 10)]).
Proof. vm_compute. reflexivity. Qed.

Example scenario_fromJSON_malformed :
  fromJSON Rectangle_prototype "{oops" = Throw ParseError.
Proof. vm_compute. reflexivity. Qed.

(** The key [__proto__] reaches the accessor of [Object.prototype]: the
    object returned has the parsed value for its prototype, and no own
    field. *)
Example scenario_fromJSON_proto_key :
  fromJSON Rectangle_prototype
    ("{" +:+ quoted "__proto__" +:+ ":{" +:+ quoted "x" +:+ ":1}}")
  = Return (MkInstance
              (data_prototype (Some (JObject [("x", JNumber 1)]))) []).
Proof. vm_compute. reflexivity. Qed.

(** White space between the tokens is skipped; a missing value, a leading
    zero and a trailing comma are refused. *)
Example scenario_parse_spaces :
  JSON_parse ("{ " +:+ quoted "a" +:+ " : [ 1 , 2.50 ] } ")
  = Some (JObject [("a", JArray [JNumber 1;
                                 JNumber (Decimal 25 (-1))])]).
Proof. vm_compute. reflexivity. Qed.

Example scenario_parse_missing_value :
  JSON_parse ("{" +:+ quoted "a" +:+ ":}") = None.
Proof. vm_compute. reflexivity. Qed.

Example scenario_parse_leading_zero :
  JSON_parse ("{" +:+ quoted "a" +:+ ":01}") = None.
Proof. vm_compute. reflexivity. Qed.

Example scenario_parse_trailing_comma : JSON_parse "[1,]" = None.
Proof. vm_compute. reflexivity. Qed.

(** A name twice in a text is one property, with the last value; array
    indices come before the other names. *)
Example scenario_parse_member_order :
  JSON_parse ("{" +:+ quoted "b" +:+ ":1," +:+ quoted "7" +:+ ":2,"
              +:+ quoted "b" +:+ ":3}")
  = Some (JObject [("7", JNumber 2); ("b", JNumber 3)]).
Proof. vm_compute. reflexivity. Qed.

(** [JSON.stringify] on strings, nested data and numbers. *)
Example scenario_stringify_nested :
  getJSON (JArray [JString "a"; JNull; JBool true;
                   JObject [("k", JArray [])];
                   JNumber (Decimal (-15) (-1)); JNumber (Decimal 1 21)])
  = "[" +:+ quoted "a" +:+ ",null,true,{" +:+ quoted "k"
    +:+ ":[]},-1.5,1e+21]".
Proof. vm_compute. reflexivity. Qed.
